(** * Uno: subproblem layer (interior-point and active-set methods)

    A shallow embedding of the numerical core of the subproblem layer:
    the primal-dual interior-point subproblem
    (PrimalDualInteriorPointSubproblem.cpp), the active-set method
    (ActiveSetMethod.cpp, InequalityConstrainedMethod.cpp) and the two
    subproblem factories.

    Numbers.  A C++ [double] is modelled by the type [double] below: a
    real number, one of the two infinities, or NaN.  Arithmetic on finite
    values is exact (no rounding, no overflow); the special values follow
    IEEE 754, except that the two zeros are not distinguished (a zero
    divisor acts as +0).  Comparisons with NaN are false, as in C++.

    Effects.  A method that writes its object or its arguments returns
    the new values; a method with an [assert] returns an [option], [None]
    when an assertion fails; an exception is a value of a sum type.  Output
    (statistics, debug and warning messages) is not modelled. *)

From Stdlib Require Import Reals Lra Lia.
From stdpp Require Import base decidable option list gmap strings.

#[global] Instance Rlt_decision (x y : R) : Decision (x < y)%R := Rlt_dec x y.
#[global] Instance Rle_decision (x y : R) : Decision (x <= y)%R := Rle_dec x y.
#[global] Instance R_eq_decision : EqDecision R := Req_dec_T.

(** ** Doubles *)

Inductive double : Type :=
| NaN
| NInf
| PInf
| Fin (r : R).

#[global] Instance double_inhabited : Inhabited double := populate NaN.

Declare Scope double_scope.
Delimit Scope double_scope with D.
Bind Scope double_scope with double.

Module Double.
Local Open Scope R_scope.

Definition zero : double := Fin 0.
Definition one : double := Fin 1.
Definition two : double := Fin 2.

Definition opp (a : double) : double :=
  match a with
  | NaN => NaN
  | NInf => PInf
  | PInf => NInf
  | Fin x => Fin (- x)
  end.

Definition add (a b : double) : double :=
  match a, b with
  | NaN, _ | _, NaN => NaN
  | Fin x, Fin y => Fin (x + y)
  | PInf, NInf | NInf, PInf => NaN
  | PInf, _ | _, PInf => PInf
  | NInf, _ | _, NInf => NInf
  end.

Definition sub (a b : double) : double :=
  match a, b with
  | NaN, _ | _, NaN => NaN
  | Fin x, Fin y => Fin (x - y)
  | PInf, PInf | NInf, NInf => NaN
  | PInf, _ | _, NInf => PInf
  | NInf, _ | _, PInf => NInf
  end.

(** the infinity with the sign of [x], NaN for [x = 0] *)
Definition signed_inf (x : R) : double :=
  if decide (0 < x) then PInf else if decide (x < 0) then NInf else NaN.

Definition mul (a b : double) : double :=
  match a, b with
  | NaN, _ | _, NaN => NaN
  | Fin x, Fin y => Fin (x * y)
  | Fin x, PInf | PInf, Fin x => signed_inf x
  | Fin x, NInf | NInf, Fin x => signed_inf (- x)
  | PInf, PInf | NInf, NInf => PInf
  | PInf, NInf | NInf, PInf => NInf
  end.

Definition div (a b : double) : double :=
  match a, b with
  | NaN, _ | _, NaN => NaN
  | Fin x, Fin y => if decide (y = 0) then signed_inf x else Fin (x / y)
  | Fin _, (PInf | NInf) => Fin 0
  | PInf, Fin y => if decide (y < 0) then NInf else PInf
  | NInf, Fin y => if decide (y < 0) then PInf else NInf
  | (PInf | NInf), (PInf | NInf) => NaN
  end.

(** [std::abs] *)
Definition abs (a : double) : double :=
  match a with
  | NaN => NaN
  | NInf | PInf => PInf
  | Fin x => Fin (Rabs x)
  end.

(** [std::sqrt] *)
Definition sqrt (a : double) : double :=
  match a with
  | NaN | NInf => NaN
  | PInf => PInf
  | Fin x => if decide (x < 0) then NaN else Fin (R_sqrt.sqrt x)
  end.

(** [a < b] *)
Definition ltb (a b : double) : bool :=
  match a, b with
  | NaN, _ | _, NaN => false
  | Fin x, Fin y => bool_decide (x < y)
  | _, NInf => false
  | NInf, _ => true
  | PInf, _ => false
  | Fin _, PInf => true
  end.

(** [a <= b] *)
Definition leb (a b : double) : bool :=
  match a, b with
  | NaN, _ | _, NaN => false
  | Fin x, Fin y => bool_decide (x <= y)
  | NInf, _ => true
  | _, PInf => true
  | _, NInf => false
  | PInf, _ => false
  end.

(** [std::max(a, b)] is [(a < b) ? b : a] *)
Definition max (a b : double) : double := if ltb a b then b else a.

(** [std::min(a, b)] is [(b < a) ? b : a] *)
Definition min (a b : double) : double := if ltb b a then b else a.

(** [is_finite] of tools/Infinity.hpp: [std::abs(x) < INF] *)
Definition is_finite (a : double) : bool := ltb (abs a) PInf.

(** the real number held by a finite double (0 for the special values) *)
Definition to_R (a : double) : R :=
  match a with
  | Fin x => x
  | _ => 0
  end.

(** [a != b] *)
Definition neb (a b : double) : bool :=
  match a, b with
  | NaN, _ | _, NaN => true
  | Fin x, Fin y => negb (bool_decide (x = y))
  | NInf, NInf | PInf, PInf => false
  | _, _ => true
  end.

(** [std::log]: minus infinity at zero, NaN below *)
Definition log (a : double) : double :=
  match a with
  | NaN | NInf => NaN
  | PInf => PInf
  | Fin x => if decide (x < 0) then NaN else if decide (x = 0) then NInf else Fin (ln x)
  end.

(** [std::isnan] *)
Definition isnan (a : double) : bool :=
  match a with
  | NaN => true
  | _ => false
  end.
End Double.

Notation "- a" := (Double.opp a) : double_scope.
Infix "+" := Double.add : double_scope.
Infix "-" := Double.sub : double_scope.
Infix "*" := Double.mul : double_scope.
Infix "/" := Double.div : double_scope.
Infix "<?" := Double.ltb : double_scope.
Infix "<=?" := Double.leb : double_scope.

(** [std::vector<double>]: [v[i]] is [v !!! i]; an access out of range
    (undefined behaviour in C++) reads NaN, and a store out of range
    ([<[i:=a]> v]) is dropped. *)
Abbreviation vector := (list double).

(** [Interval] / [Range] of two doubles *)
Record Interval : Type := mkInterval { lb : double; ub : double }.

(** ** Iterates and problems *)

(** [Multipliers]: constraint multipliers and the two bound multipliers *)
Record Multipliers : Type := mkMultipliers {
  constraints : vector;
  lower_bounds : vector;
  upper_bounds : vector
}.

(** [Iterate]: primal point, multipliers, the cached constraint values
    ([evaluations.constraints]) and the validity flags of the caches *)
Record Iterate : Type := mkIterate {
  primals : vector;
  multipliers : Multipliers;
  evaluations_constraints : vector;
  is_objective_gradient_computed : bool;
  are_constraints_computed : bool;
  is_constraint_jacobian_computed : bool
}.

Definition set_primals (iterate : Iterate) (x : vector) : Iterate :=
  mkIterate x (multipliers iterate) (evaluations_constraints iterate)
    (is_objective_gradient_computed iterate) (are_constraints_computed iterate)
    (is_constraint_jacobian_computed iterate).

Definition set_multipliers (iterate : Iterate) (m : Multipliers) : Iterate :=
  mkIterate (primals iterate) m (evaluations_constraints iterate)
    (is_objective_gradient_computed iterate) (are_constraints_computed iterate)
    (is_constraint_jacobian_computed iterate).

(** [iterate.primals[i] = a] *)
Definition set_primal (iterate : Iterate) (i : nat) (a : double) : Iterate :=
  set_primals iterate (<[i:=a]> (primals iterate)).

(** [iterate.multipliers.lower_bounds[i] = a] *)
Definition set_lower_bound_multiplier (iterate : Iterate) (i : nat) (a : double) : Iterate :=
  set_multipliers iterate
    (mkMultipliers (constraints (multipliers iterate))
       (<[i:=a]> (lower_bounds (multipliers iterate)))
       (upper_bounds (multipliers iterate))).

(** [iterate.multipliers.upper_bounds[i] = a] *)
Definition set_upper_bound_multiplier (iterate : Iterate) (i : nat) (a : double) : Iterate :=
  set_multipliers iterate
    (mkMultipliers (constraints (multipliers iterate))
       (lower_bounds (multipliers iterate))
       (<[i:=a]> (upper_bounds (multipliers iterate)))).

(** [iterate.multipliers.constraints = lambda] *)
Definition set_constraint_multipliers (iterate : Iterate) (lambda : vector) : Iterate :=
  set_multipliers iterate
    (mkMultipliers lambda (lower_bounds (multipliers iterate))
       (upper_bounds (multipliers iterate))).

(** [NonlinearProblem] (reformulation/NonlinearProblem.hpp): the sizes,
    the index lists of bounded variables, the bound accessors (virtual in
    the source, fields here), and from the model the slack map
    ([model.slacks], constraint index and slack index) and the constraint
    function. *)
Record NonlinearProblem : Type := mkNonlinearProblem {
  number_variables : nat;
  number_constraints : nat;
  inequality_constraints : list nat;
  lower_bounded_variables : list nat;
  upper_bounded_variables : list nat;
  single_lower_bounded_variables : list nat;
  single_upper_bounded_variables : list nat;
  get_variable_lower_bound : nat -> double;
  get_variable_upper_bound : nat -> double;
  model_slacks : list (nat * nat);
  model_evaluate_constraints : vector -> vector
}.

Definition is_constrained (problem : NonlinearProblem) : bool :=
  bool_decide (0 < number_constraints problem)%nat.

(** Modelled from the spec: [Iterate::evaluate_constraints] (Iterate.cpp
    is not part of the sources).  The cache of constraint values carries a
    validity flag and is filled from the model only when it is not valid. *)
Definition evaluate_constraints (problem : NonlinearProblem) (iterate : Iterate) : Iterate :=
  if are_constraints_computed iterate then iterate
  else mkIterate (primals iterate) (multipliers iterate)
         (model_evaluate_constraints problem (primals iterate))
         (is_objective_gradient_computed iterate) true
         (is_constraint_jacobian_computed iterate).

(** [std::numeric_limits<double>::epsilon()] *)
Definition machine_epsilon : double := Fin (/ 2 ^ 52).

(** ** Primal-dual interior-point subproblem *)

Module InteriorPoint.

(** the [parameters] member *)
Record Parameters : Type := mkParameters {
  tau_min : double;
  k_sigma : double;
  regularization_exponent : double;
  small_direction_factor : double;
  push_variable_to_interior_k1 : double;
  push_variable_to_interior_k2 : double
}.

(** [Direction]: the fields written by the interior-point subproblem *)
Record Direction : Type := mkDirection {
  direction_number_variables : nat;
  direction_number_constraints : nat;
  direction_primals : vector;
  direction_multipliers : Multipliers;
  primal_dual_step_length : double;
  bound_dual_step_length : double;
  subproblem_objective : double
}.

(** The state of a [PrimalDualInteriorPointSubproblem]:
    [barrier_parameter] is the value held by the barrier-parameter update
    strategy ([get_barrier_parameter] / [set_barrier_parameter]),
    [constraint_values] is [this->evaluations.constraints],
    [objective_gradient] is [this->evaluations.objective_gradient] (a sparse
    vector) and [solution] is [this->augmented_system.solution]. *)
Record Subproblem : Type := mkSubproblem {
  barrier_parameter : double;
  previous_barrier_parameter : double;
  default_multiplier : double;
  parameters : Parameters;
  solving_feasibility_problem : bool;
  subproblem_definition_changed : bool;
  constraint_values : vector;
  objective_gradient : gmap nat double;
  solution : vector;
  lower_delta_z : vector;
  upper_delta_z : vector;
  direction : Direction
}.

Definition push_variable_to_interior (parameters : Parameters)
    (variable_value : double) (variable_bounds : Interval) : double :=
  let range := (ub variable_bounds - lb variable_bounds)%D in
  let perturbation_lb :=
    Double.min
      (push_variable_to_interior_k1 parameters * Double.max Double.one (Double.abs (lb variable_bounds)))%D
      (push_variable_to_interior_k2 parameters * range)%D in
  let perturbation_ub :=
    Double.min
      (push_variable_to_interior_k1 parameters * Double.max Double.one (Double.abs (ub variable_bounds)))%D
      (push_variable_to_interior_k2 parameters * range)%D in
  let variable_value := Double.max variable_value (lb variable_bounds + perturbation_lb)%D in
  let variable_value := Double.min variable_value (ub variable_bounds - perturbation_ub)%D in
  variable_value.

Section Initialize.
(** [Preprocessing::compute_least_square_multipliers] solves a linear
    system with the external linear solver; it writes the constraint
    multipliers of the iterate and nothing else of it. *)
Variable least_square_multipliers : NonlinearProblem -> Iterate -> vector.

Definition compute_least_square_multipliers (problem : NonlinearProblem)
    (iterate : Iterate) : Iterate :=
  set_constraint_multipliers iterate (least_square_multipliers problem iterate).

(** [None] models a failed [assert]. *)
Definition initialize (this : Subproblem) (problem : NonlinearProblem)
    (first_iterate : Iterate) : option Iterate :=
  if bool_decide (inequality_constraints problem = []) then
    (* evaluate the constraints at the original point *)
    let first_iterate := evaluate_constraints problem first_iterate in
    (* make the initial point strictly feasible wrt the bounds *)
    let first_iterate :=
      foldl (fun first_iterate i =>
               let bounds := mkInterval (get_variable_lower_bound problem i)
                                        (get_variable_upper_bound problem i) in
               set_primal first_iterate i
                 (push_variable_to_interior (parameters this) (primals first_iterate !!! i) bounds))
            first_iterate (seq 0 (number_variables problem)) in
    (* set the slack variables (if any) *)
    let first_iterate :=
      if bool_decide (model_slacks problem <> []) then
        foldl (fun first_iterate '(j, slack_index) =>
                 let bounds := mkInterval (get_variable_lower_bound problem slack_index)
                                          (get_variable_upper_bound problem slack_index) in
                 set_primal first_iterate slack_index
                   (push_variable_to_interior (parameters this)
                      (evaluations_constraints first_iterate !!! j) bounds))
              first_iterate (model_slacks problem)
      else first_iterate in
    let first_iterate :=
      mkIterate (primals first_iterate) (multipliers first_iterate)
        (evaluations_constraints first_iterate) false false false in
    (* set the bound multipliers *)
    let first_iterate :=
      foldl (fun first_iterate i =>
               set_lower_bound_multiplier first_iterate i (default_multiplier this))
            first_iterate (lower_bounded_variables problem) in
    let first_iterate :=
      foldl (fun first_iterate i =>
               set_upper_bound_multiplier first_iterate i (- default_multiplier this)%D)
            first_iterate (upper_bounded_variables problem) in
    (* compute least-square multipliers *)
    if is_constrained problem then
      Some (compute_least_square_multipliers problem first_iterate)
    else Some first_iterate
  else None.
End Initialize.

(** rescale the bound multipliers (Eq. 16 in Ipopt paper); the debug
    and warning messages are not modelled *)
Definition postprocess_iterate (this : Subproblem) (problem : NonlinearProblem)
    (iterate : Iterate) : Iterate :=
  let iterate :=
    foldl (fun iterate i =>
             let coefficient :=
               (barrier_parameter this / (primals iterate !!! i - get_variable_lower_bound problem i))%D in
             let lb := (coefficient / k_sigma (parameters this))%D in
             let ub := (coefficient * k_sigma (parameters this))%D in
             if (lb <=? ub)%D then
               set_lower_bound_multiplier iterate i
                 (Double.max (Double.min (lower_bounds (multipliers iterate) !!! i) ub) lb)
             else iterate)
          iterate (lower_bounded_variables problem) in
  let iterate :=
    foldl (fun iterate i =>
             let coefficient :=
               (barrier_parameter this / (primals iterate !!! i - get_variable_upper_bound problem i))%D in
             let lb := (coefficient * k_sigma (parameters this))%D in
             let ub := (coefficient / k_sigma (parameters this))%D in
             if (lb <=? ub)%D then
               set_upper_bound_multiplier iterate i
                 (Double.max (Double.min (upper_bounds (multipliers iterate) !!! i) ub) lb)
             else iterate)
          iterate (upper_bounded_variables problem) in
  iterate.

(** *** Fraction-to-boundary rule *)

Definition primal_fraction_to_boundary (this : Subproblem) (problem : NonlinearProblem)
    (current_iterate : Iterate) (tau : double) : option double :=
  let primal_length := Double.one in
  let primal_length :=
    foldl (fun primal_length i =>
             if (solution this !!! i <? Double.zero)%D then
               let trial_alpha_xi :=
                 (- tau * (primals current_iterate !!! i - get_variable_lower_bound problem i)
                  / solution this !!! i)%D in
               if (Double.zero <? trial_alpha_xi)%D then Double.min primal_length trial_alpha_xi
               else primal_length
             else primal_length)
          primal_length (lower_bounded_variables problem) in
  let primal_length :=
    foldl (fun primal_length i =>
             if (Double.zero <? solution this !!! i)%D then
               let trial_alpha_xi :=
                 (- tau * (primals current_iterate !!! i - get_variable_upper_bound problem i)
                  / solution this !!! i)%D in
               if (Double.zero <? trial_alpha_xi)%D then Double.min primal_length trial_alpha_xi
               else primal_length
             else primal_length)
          primal_length (upper_bounded_variables problem) in
  if (Double.zero <? primal_length)%D && (primal_length <=? Double.one)%D
  then Some primal_length else None.

Definition dual_fraction_to_boundary (this : Subproblem) (problem : NonlinearProblem)
    (current_iterate : Iterate) (tau : double) : option double :=
  let dual_length := Double.one in
  let dual_length :=
    foldl (fun dual_length i =>
             if (lower_delta_z this !!! i <? Double.zero)%D then
               let trial_alpha_zj :=
                 (- tau * lower_bounds (multipliers current_iterate) !!! i
                  / lower_delta_z this !!! i)%D in
               if (Double.zero <? trial_alpha_zj)%D then Double.min dual_length trial_alpha_zj
               else dual_length
             else dual_length)
          dual_length (lower_bounded_variables problem) in
  let dual_length :=
    foldl (fun dual_length i =>
             if (Double.zero <? upper_delta_z this !!! i)%D then
               let trial_alpha_zj :=
                 (- tau * upper_bounds (multipliers current_iterate) !!! i
                  / upper_delta_z this !!! i)%D in
               if (Double.zero <? trial_alpha_zj)%D then Double.min dual_length trial_alpha_zj
               else dual_length
             else dual_length)
          dual_length (upper_bounded_variables problem) in
  if (Double.zero <? dual_length)%D && (dual_length <=? Double.one)%D
  then Some dual_length else None.

Definition set_solution (this : Subproblem) (s : vector) : Subproblem :=
  mkSubproblem (barrier_parameter this) (previous_barrier_parameter this)
    (default_multiplier this) (parameters this) (solving_feasibility_problem this)
    (subproblem_definition_changed this) (constraint_values this) (objective_gradient this)
    s (lower_delta_z this) (upper_delta_z this) (direction this).

Definition set_lower_delta_z (this : Subproblem) (dz : vector) : Subproblem :=
  mkSubproblem (barrier_parameter this) (previous_barrier_parameter this)
    (default_multiplier this) (parameters this) (solving_feasibility_problem this)
    (subproblem_definition_changed this) (constraint_values this) (objective_gradient this)
    (solution this) dz (upper_delta_z this) (direction this).

Definition set_upper_delta_z (this : Subproblem) (dz : vector) : Subproblem :=
  mkSubproblem (barrier_parameter this) (previous_barrier_parameter this)
    (default_multiplier this) (parameters this) (solving_feasibility_problem this)
    (subproblem_definition_changed this) (constraint_values this) (objective_gradient this)
    (solution this) (lower_delta_z this) dz (direction this).

Definition set_direction (this : Subproblem) (d : Direction) : Subproblem :=
  mkSubproblem (barrier_parameter this) (previous_barrier_parameter this)
    (default_multiplier this) (parameters this) (solving_feasibility_problem this)
    (subproblem_definition_changed this) (constraint_values this) (objective_gradient this)
    (solution this) (lower_delta_z this) (upper_delta_z this) d.

(** [initialize_vector(v, 0.)] *)
Definition initialize_vector (v : vector) (a : double) : vector :=
  replicate (length v) a.

(** [assert(is_finite(...))] after each assignment: [None] when it fails *)
Definition compute_bound_dual_direction (this : Subproblem) (problem : NonlinearProblem)
    (current_iterate : Iterate) : option Subproblem :=
  let this := set_lower_delta_z this (initialize_vector (lower_delta_z this) Double.zero) in
  let this := set_upper_delta_z this (initialize_vector (upper_delta_z this) Double.zero) in
  this ← foldl (fun (acc : option Subproblem) i =>
             this ← acc;
             let distance_to_bound :=
               (primals current_iterate !!! i - get_variable_lower_bound problem i)%D in
             let dz :=
               ((barrier_parameter this
                 - solution this !!! i * lower_bounds (multipliers current_iterate) !!! i)
                / distance_to_bound
                - lower_bounds (multipliers current_iterate) !!! i)%D in
             let this := set_lower_delta_z this (<[i:=dz]> (lower_delta_z this)) in
             if Double.is_finite (lower_delta_z this !!! i) then Some this else None)
          (Some this) (lower_bounded_variables problem);
  foldl (fun (acc : option Subproblem) i =>
           this ← acc;
           let distance_to_bound :=
             (primals current_iterate !!! i - get_variable_upper_bound problem i)%D in
           let dz :=
             ((barrier_parameter this
               - solution this !!! i * upper_bounds (multipliers current_iterate) !!! i)
              / distance_to_bound
              - upper_bounds (multipliers current_iterate) !!! i)%D in
           let this := set_upper_delta_z this (<[i:=dz]> (upper_delta_z this)) in
           if Double.is_finite (upper_delta_z this !!! i) then Some this else None)
        (Some this) (upper_bounded_variables problem).

Section Direction.
(** [hessian_model->hessian->quadratic_product(x, y)] of the evaluated
    Hessian (external to this file) *)
Variable quadratic_product : vector -> vector -> double.

(** [dot(x, y)] of a dense and a sparse vector *)
Definition dot (x : vector) (y : gmap nat double) : double :=
  map_fold (fun i derivative acc => (acc + x !!! i * derivative)%D) Double.zero y.

Definition evaluate_subproblem_objective (this : Subproblem) : double :=
  let linear_term := dot (direction_primals (direction this)) (objective_gradient this) in
  let quadratic_term :=
    (quadratic_product (direction_primals (direction this)) (direction_primals (direction this))
     / Double.two)%D in
  (linear_term + quadratic_term)%D.

Definition set_direction_primal (d : Direction) (i : nat) (a : double) : Direction :=
  mkDirection (direction_number_variables d) (direction_number_constraints d)
    (<[i:=a]> (direction_primals d)) (direction_multipliers d)
    (primal_dual_step_length d) (bound_dual_step_length d) (subproblem_objective d).

Definition set_direction_multipliers (d : Direction) (m : Multipliers) : Direction :=
  mkDirection (direction_number_variables d) (direction_number_constraints d)
    (direction_primals d) m
    (primal_dual_step_length d) (bound_dual_step_length d) (subproblem_objective d).

Definition generate_primal_dual_direction (this : Subproblem) (problem : NonlinearProblem)
    (current_iterate : Iterate) : option Subproblem :=
  (* direction.set_dimensions *)
  let this :=
    set_direction this
      (mkDirection (number_variables problem) (number_constraints problem)
         (direction_primals (direction this)) (direction_multipliers (direction this))
         (primal_dual_step_length (direction this)) (bound_dual_step_length (direction this))
         (subproblem_objective (direction this))) in
  (* retrieve +Δλ (Nocedal p590) *)
  let this :=
    foldl (fun this j => set_solution this (<[j:=(- solution this !!! j)%D]> (solution this)))
          this (seq (number_variables problem)
                    (length (solution this) - number_variables problem)) in
  (* "fraction-to-boundary" rule for primal variables and constraints multipliers *)
  let tau := Double.max (tau_min (parameters this)) (Double.one - barrier_parameter this)%D in
  step_length_primal_dual ← primal_fraction_to_boundary this problem current_iterate tau;
  let this :=
    foldl (fun this i =>
             set_direction this (set_direction_primal (direction this) i (solution this !!! i)))
          this (seq 0 (number_variables problem)) in
  let this :=
    foldl (fun this j =>
             let m := direction_multipliers (direction this) in
             set_direction this
               (set_direction_multipliers (direction this)
                  (mkMultipliers
                     (<[j:=solution this !!! (number_variables problem + j)%nat]> (constraints m))
                     (lower_bounds m) (upper_bounds m))))
          this (seq 0 (number_constraints problem)) in
  (* compute bound multiplier direction Δz *)
  this ← compute_bound_dual_direction this problem current_iterate;
  (* "fraction-to-boundary" rule for bound multipliers *)
  step_length_bound_dual ← dual_fraction_to_boundary this problem current_iterate tau;
  let this :=
    foldl (fun this i =>
             let m := direction_multipliers (direction this) in
             set_direction this
               (set_direction_multipliers (direction this)
                  (mkMultipliers (constraints m)
                     (<[i:=lower_delta_z this !!! i]> (lower_bounds m))
                     (<[i:=upper_delta_z this !!! i]> (upper_bounds m)))))
          this (seq 0 (number_variables problem)) in
  let d := direction this in
  let this :=
    set_direction this
      (mkDirection (direction_number_variables d) (direction_number_constraints d)
         (direction_primals d) (direction_multipliers d)
         step_length_primal_dual step_length_bound_dual (subproblem_objective d)) in
  let d := direction this in
  Some (set_direction this
          (mkDirection (direction_number_variables d) (direction_number_constraints d)
             (direction_primals d) (direction_multipliers d)
             (primal_dual_step_length d) (bound_dual_step_length d)
             (evaluate_subproblem_objective this))).
End Direction.

(** *** Bound relaxation *)

(** slightly relax the bounds whenever the current point is too close to
    the bounds (Section 3.5 in IPOPT paper): both [if] bodies are empty
    in the source *)
Definition relax_variable_bounds (this : Subproblem) (problem : NonlinearProblem)
    (current_iterate : Iterate) : Subproblem * NonlinearProblem :=
  let state := (this, problem) in
  let state :=
    foldl (fun (state : Subproblem * NonlinearProblem) i =>
             if (primals current_iterate !!! i - get_variable_lower_bound problem i
                 <? machine_epsilon * barrier_parameter this)%D
             then state else state)
          state (lower_bounded_variables problem) in
  let state :=
    foldl (fun (state : Subproblem * NonlinearProblem) i =>
             if (get_variable_upper_bound problem i - primals current_iterate !!! i
                 <? machine_epsilon * barrier_parameter this)%D
             then state else state)
          state (upper_bounded_variables problem) in
  state.

(** *** Feasibility problem *)

(** Modelled from the spec: [norm_inf] of a dense vector
    (linear_algebra/Vector.hpp is not part of the sources), the largest
    absolute value of an entry, 0 for the empty vector. *)
Definition norm_inf (x : vector) : double :=
  foldl (fun norm a => Double.max norm (Double.abs a)) Double.zero x.

Definition initialize_feasibility_problem (this : Subproblem) : Subproblem :=
  (* this->solving_feasibility_problem = true;
     this->previous_barrier_parameter = this->barrier_parameter(); *)
  let this :=
    mkSubproblem (barrier_parameter this) (barrier_parameter this)
      (default_multiplier this) (parameters this) true
      (subproblem_definition_changed this) (constraint_values this) (objective_gradient this)
      (solution this) (lower_delta_z this) (upper_delta_z this) (direction this) in
  let new_barrier_parameter :=
    Double.max (barrier_parameter this) (norm_inf (constraint_values this)) in
  (* set_barrier_parameter(new_barrier_parameter);
     this->subproblem_definition_changed = true; *)
  mkSubproblem new_barrier_parameter (previous_barrier_parameter this)
    (default_multiplier this) (parameters this) (solving_feasibility_problem this)
    true (constraint_values this) (objective_gradient this)
    (solution this) (lower_delta_z this) (upper_delta_z this) (direction this).

(** The elastic variables of an [l1RelaxedProblem]: for each one the
    index [j] of its constraint, its own index among the variables and
    its coefficient (-1 or +1) in the relaxed constraint. *)
Record l1RelaxedProblem : Type := mkl1RelaxedProblem {
  elastic_variables : list (nat * nat * double)
}.

(** Modelled from the spec: the hook
    [l1RelaxedProblem::set_elastic_variable_values(iterate, setter)]
    (l1RelaxedProblem.hpp is not part of the sources) calls the setter
    once for each elastic variable.  The setter may fail (an [assert]). *)
Definition problem_set_elastic_variable_values (problem : l1RelaxedProblem)
    (iterate : Iterate)
    (elastic_setting_function : Iterate -> nat -> nat -> double -> option Iterate)
    : option Iterate :=
  foldl (fun (acc : option Iterate) '(j, elastic_index, jacobian_coefficient) =>
           iterate ← acc;
           elastic_setting_function iterate j elastic_index jacobian_coefficient)
        (Some iterate) (elastic_variables problem).

(** [std::pow(a, 2)] *)
Definition pow2 (a : double) : double := (a * a)%D.

(** the lambda [elastic_setting_function] of [set_elastic_variable_values];
    it captures the subproblem and the barrier parameter.
    c(x) - p + n = 0; analytical expression for p and n:
    (mu_over_rho - jacobian_coefficient*this->barrier_constraints[j] + std::sqrt(radical))/2.
    where jacobian_coefficient = -1 for p, +1 for n.
    [None] models a failed [assert]. *)
Definition elastic_setting_function (this : Subproblem) (barrier_parameter : double)
    (iterate : Iterate) (j elastic_index : nat) (jacobian_coefficient : double)
    : option Iterate :=
  (* precomputations *)
  let constraint_j := constraint_values this !!! j in
  let mu_over_rho := barrier_parameter in (* here, rho = 1 *)
  let radical := (pow2 constraint_j + pow2 mu_over_rho)%D in
  let sqrt_radical := Double.sqrt radical in
  let iterate :=
    set_primal iterate elastic_index
      ((mu_over_rho - jacobian_coefficient * constraint_j + sqrt_radical) / Double.two)%D in
  let iterate :=
    set_lower_bound_multiplier iterate elastic_index
      (barrier_parameter / primals iterate !!! elastic_index)%D in
  if (Double.zero <? primals iterate !!! elastic_index)%D
     && (Double.zero <? lower_bounds (multipliers iterate) !!! elastic_index)%D
  then Some iterate else None.

(** set the elastic variables of the current iterate *)
Definition set_elastic_variable_values (this : Subproblem) (problem : l1RelaxedProblem)
    (current_iterate : Iterate) : option Iterate :=
  let barrier_parameter := barrier_parameter this in
  problem_set_elastic_variable_values problem current_iterate
    (elastic_setting_function this barrier_parameter).

Section ExitFeasibility.
Variable least_square_multipliers : NonlinearProblem -> Iterate -> vector.

(** [None] models the failed [assert] when the subproblem is not
    solving the feasibility problem *)
Definition exit_feasibility_problem (this : Subproblem) (problem : NonlinearProblem)
    (trial_iterate : Iterate) : option (Subproblem * Iterate) :=
  if solving_feasibility_problem this then
    let this :=
      mkSubproblem (previous_barrier_parameter this) (previous_barrier_parameter this)
        (default_multiplier this) (parameters this) false
        (subproblem_definition_changed this) (constraint_values this) (objective_gradient this)
        (solution this) (lower_delta_z this) (upper_delta_z this) (direction this) in
    Some (this, compute_least_square_multipliers least_square_multipliers problem trial_iterate)
  else None.
End ExitFeasibility.

End InteriorPoint.

(** A sparse vector ([SparseVector]): index to value, an absent index is a zero *)
Abbreviation SparseVector := (gmap nat double).

(** the value of a sparse vector at an index *)
Definition sparse_at (v : SparseVector) (i : nat) : double :=
  default Double.zero (v !! i).

(** ** Inequality-constrained (active-set) methods:
       InequalityConstrainedMethod.cpp *)

Module InequalityConstrainedMethod.

(** [OptimizationProblem]: sizes and bound accessors *)
Record OptimizationProblem : Type := mkOptimizationProblem {
  get_number_original_variables : nat;
  number_variables : nat;
  number_constraints : nat;
  variable_lower_bound : nat -> double;
  variable_upper_bound : nat -> double;
  constraint_lower_bound : nat -> double;
  constraint_upper_bound : nat -> double
}.

Record Method : Type := mkMethod {
  trust_region_radius : double;
  initial_point : vector;
  direction_lower_bounds : vector;
  direction_upper_bounds : vector;
  linearized_constraints_lower_bounds : vector;
  linearized_constraints_upper_bounds : vector
}.

Definition set_direction_lower_bound (this : Method) (i : nat) (a : double) : Method :=
  mkMethod (trust_region_radius this) (initial_point this)
    (<[i:=a]> (direction_lower_bounds this)) (direction_upper_bounds this)
    (linearized_constraints_lower_bounds this) (linearized_constraints_upper_bounds this).

Definition set_direction_upper_bound (this : Method) (i : nat) (a : double) : Method :=
  mkMethod (trust_region_radius this) (initial_point this)
    (direction_lower_bounds this) (<[i:=a]> (direction_upper_bounds this))
    (linearized_constraints_lower_bounds this) (linearized_constraints_upper_bounds this).

Definition set_direction_bounds (this : Method) (problem : OptimizationProblem)
    (current_iterate : Iterate) : Method :=
  (* bounds of original variables intersected with trust region *)
  let this :=
    foldl (fun this variable_index =>
             let this :=
               set_direction_lower_bound this variable_index
                 (Double.max (- trust_region_radius this)%D
                    (variable_lower_bound problem variable_index
                     - primals current_iterate !!! variable_index)%D) in
             set_direction_upper_bound this variable_index
               (Double.min (trust_region_radius this)
                  (variable_upper_bound problem variable_index
                   - primals current_iterate !!! variable_index)%D))
          this (seq 0 (get_number_original_variables problem)) in
  (* bounds of additional variables (no trust region!) *)
  let this :=
    foldl (fun this variable_index =>
             let this :=
               set_direction_lower_bound this variable_index
                 (variable_lower_bound problem variable_index
                  - primals current_iterate !!! variable_index)%D in
             set_direction_upper_bound this variable_index
               (variable_upper_bound problem variable_index
                - primals current_iterate !!! variable_index)%D)
          this (seq (get_number_original_variables problem)
                    (number_variables problem - get_number_original_variables problem)) in
  this.

(** the setter never fails: the hook is the one of the interior-point
    subproblem, whose setter has assertions *)
Definition set_elastic_variable_values (problem : InteriorPoint.l1RelaxedProblem)
    (current_iterate : Iterate) : option Iterate :=
  InteriorPoint.problem_set_elastic_variable_values problem current_iterate
    (fun iterate _ elastic_index _ =>
       let iterate := set_primal iterate elastic_index Double.zero in
       let iterate := set_lower_bound_multiplier iterate elastic_index Double.one in
       Some iterate).

Definition set_linearized_constraints_lower_bound (this : Method) (j : nat) (a : double)
    : Method :=
  mkMethod (trust_region_radius this) (initial_point this)
    (direction_lower_bounds this) (direction_upper_bounds this)
    (<[j:=a]> (linearized_constraints_lower_bounds this))
    (linearized_constraints_upper_bounds this).

Definition set_linearized_constraints_upper_bound (this : Method) (j : nat) (a : double)
    : Method :=
  mkMethod (trust_region_radius this) (initial_point this)
    (direction_lower_bounds this) (direction_upper_bounds this)
    (linearized_constraints_lower_bounds this)
    (<[j:=a]> (linearized_constraints_upper_bounds this)).

Definition set_linearized_constraint_bounds (this : Method) (problem : OptimizationProblem)
    (current_constraints : vector) : Method :=
  foldl (fun this constraint_index =>
           let this :=
             set_linearized_constraints_lower_bound this constraint_index
               (constraint_lower_bound problem constraint_index
                - current_constraints !!! constraint_index)%D in
           set_linearized_constraints_upper_bound this constraint_index
             (constraint_upper_bound problem constraint_index
              - current_constraints !!! constraint_index)%D)
        this (seq 0 (number_constraints problem)).

(** compute dual *displacements* (note: active-set methods usually
    compute the new duals, not the displacements); [Direction] is the
    class of the interior-point subproblem *)
Definition compute_dual_displacements (problem : OptimizationProblem)
    (current_iterate : Iterate) (direction : InteriorPoint.Direction)
    : InteriorPoint.Direction :=
  let direction :=
    foldl (fun direction constraint_index =>
             let m := InteriorPoint.direction_multipliers direction in
             InteriorPoint.set_direction_multipliers direction
               (mkMultipliers
                  (<[constraint_index:=
                       (constraints m !!! constraint_index
                        - constraints (multipliers current_iterate) !!! constraint_index)%D]>
                     (constraints m))
                  (lower_bounds m) (upper_bounds m)))
          direction (seq 0 (number_constraints problem)) in
  let direction :=
    foldl (fun direction variable_index =>
             let m := InteriorPoint.direction_multipliers direction in
             let direction :=
               InteriorPoint.set_direction_multipliers direction
                 (mkMultipliers (constraints m)
                    (<[variable_index:=
                         (lower_bounds m !!! variable_index
                          - lower_bounds (multipliers current_iterate) !!! variable_index)%D]>
                       (lower_bounds m))
                    (upper_bounds m)) in
             let m := InteriorPoint.direction_multipliers direction in
             InteriorPoint.set_direction_multipliers direction
               (mkMultipliers (constraints m) (lower_bounds m)
                  (<[variable_index:=
                       (upper_bounds m !!! variable_index
                        - upper_bounds (multipliers current_iterate) !!! variable_index)%D]>
                     (upper_bounds m))))
          direction (seq 0 (number_variables problem)) in
  direction.

End InequalityConstrainedMethod.

(** ** The active-set method of ActiveSetMethod.cpp *)

Module ActiveSetMethod.

Inductive ConstraintFeasibility : Type :=
| FEASIBLE
| INFEASIBLE_LOWER
| INFEASIBLE_UPPER.

#[global] Instance ConstraintFeasibility_eq_dec : EqDecision ConstraintFeasibility.
Proof. solve_decision. Defined.

(** reading [constraint_feasibility[j]] out of range is undefined in
    the source; the model reads [FEASIBLE] *)
#[global] Instance ConstraintFeasibility_inhabited : Inhabited ConstraintFeasibility :=
  populate FEASIBLE.

#[global] Instance Interval_inhabited : Inhabited Interval :=
  populate (mkInterval NaN NaN).

Inductive Phase : Type :=
| OPTIMALITY
| RESTORATION.

Record ConstraintPartition : Type := mkConstraintPartition {
  feasible : list nat;
  infeasible : list nat;
  constraint_feasibility : list ConstraintFeasibility
}.

(** one kind of active-set record: two sets of indices *)
Record ActiveSetRecord : Type := mkActiveSetRecord {
  at_lower_bound : gset nat;
  at_upper_bound : gset nat
}.

(** [direction.active_set]: [.constraints] and [.bounds] *)
Record ActiveSet : Type := mkActiveSet {
  active_constraints : ActiveSetRecord;
  active_bounds : ActiveSetRecord
}.

(** the predicted-reduction model stored in a direction (a pointer to a
    member function in the source) *)
Inductive PredictedReduction : Type :=
| compute_lp_predicted_reduction_
| other_predicted_reduction.

Record Direction : Type := mkDirection {
  x : vector;
  multipliers : Multipliers;
  active_set : ActiveSet;
  objective : double;
  objective_multiplier : double;
  phase : Phase;
  constraint_partition : ConstraintPartition;
  predicted_reduction : PredictedReduction
}.

Record Problem : Type := mkProblem {
  number_variables : nat;
  number_constraints : nat;
  constraint_bounds : list Interval;
  objective_sign : double
}.

Record Iterate : Type := mkIterate {
  iterate_x : vector;
  iterate_multipliers : Multipliers;
  iterate_constraints : vector;
  constraints_jacobian : list SparseVector;
  objective_gradient : SparseVector
}.

(** [ElasticVariables]: constraint index to elastic variable index *)
Record ElasticVariables : Type := mkElasticVariables {
  positive : gmap nat nat;
  negative : gmap nat nat
}.

(** the members of the method: the variable bounds and the counter *)
Record Method : Type := mkMethod {
  bounds : list Interval;
  number_subproblems_solved : nat
}.

Definition generate_variables_bounds_ (this : Method) (current_iterate : Iterate)
    (trust_region_radius : double) : list Interval :=
  let bounds_ := replicate (length (iterate_x current_iterate)) (mkInterval Double.zero Double.zero) in
  (* bounds intersected with trust region *)
  foldl (fun bounds_ i =>
           let lb_ := Double.max (- trust_region_radius)%D
                        (lb (bounds this !!! i) - iterate_x current_iterate !!! i)%D in
           let ub_ := Double.min trust_region_radius
                        (ub (bounds this !!! i) - iterate_x current_iterate !!! i)%D in
           <[i:=mkInterval lb_ ub_]> bounds_)
        bounds_ (seq 0 (length (iterate_x current_iterate))).

(** *** QP *)

Definition erase_bound (d : Direction) (i : nat) : Direction :=
  let a := active_set d in
  mkDirection (x d) (multipliers d)
    (mkActiveSet (active_constraints a)
       (mkActiveSetRecord (at_lower_bound (active_bounds a) ∖ {[i]})
                          (at_upper_bound (active_bounds a) ∖ {[i]})))
    (objective d) (objective_multiplier d) (phase d) (constraint_partition d)
    (predicted_reduction d).

Definition erase_constraint (d : Direction) (j : nat) : Direction :=
  let a := active_set d in
  mkDirection (x d) (multipliers d)
    (mkActiveSet
       (mkActiveSetRecord (at_lower_bound (active_constraints a) ∖ {[j]})
                          (at_upper_bound (active_constraints a) ∖ {[j]}))
       (active_bounds a))
    (objective d) (objective_multiplier d) (phase d) (constraint_partition d)
    (predicted_reduction d).

(** the constraint violation of constraint [j]: the elastic values that
    exist for it ([std::map::at] throws [std::out_of_range] for an
    absent key, which the source catches and ignores) *)
Definition constraint_violation (direction : Direction)
    (elastic_variables : ElasticVariables) (j : nat) : double :=
  let constraint_violation := Double.zero in
  let constraint_violation :=
    match positive elastic_variables !! j with
    | Some i => (constraint_violation + x direction !!! i)%D
    | None => constraint_violation
    end in
  let constraint_violation :=
    match negative elastic_variables !! j with
    | Some i => (constraint_violation + x direction !!! i)%D
    | None => constraint_violation
    end in
  constraint_violation.

Definition recover_l1qp_active_set_ (problem : Problem) (direction : Direction)
    (elastic_variables : ElasticVariables) : Direction :=
  (* remove extra variables p and n *)
  let direction :=
    foldl (fun direction i => erase_bound direction i)
          direction
          (seq (number_variables problem)
               (length (x direction) - number_variables problem)) in
  (* constraints: only when p-n = 0 *)
  let direction :=
    foldl (fun direction j =>
             (* compute constraint violation *)
             let constraint_violation := constraint_violation direction elastic_variables j in
             (* update active set *)
             if (Double.zero <? constraint_violation)%D
             then erase_constraint direction j
             else direction)
          direction (seq 0 (length (constraints (multipliers direction)))) in
  direction.

(** *** l1 feasibility problem *)

Definition set_objective_gradient (iterate : Iterate) (g : SparseVector) : Iterate :=
  mkIterate (iterate_x iterate) (iterate_multipliers iterate) (iterate_constraints iterate)
    (constraints_jacobian iterate) g.

(** objective function: sum of gradients of infeasible constraints.
    [objective_gradient[i]] creates an absent entry with value 0. *)
Definition compute_l1_linear_objective_ (current_iterate : Iterate)
    (constraint_partition : ConstraintPartition) : Iterate :=
  let objective_gradient : SparseVector := ∅ in
  let objective_gradient :=
    foldl (fun (objective_gradient : SparseVector) j =>
             map_fold (fun i derivative (objective_gradient : SparseVector) =>
                         if decide (constraint_feasibility constraint_partition !!! j = INFEASIBLE_LOWER)
                         then <[i:=(sparse_at objective_gradient i - derivative)%D]> objective_gradient
                         else <[i:=(sparse_at objective_gradient i + derivative)%D]> objective_gradient)
                      objective_gradient
                      (constraints_jacobian current_iterate !!! j))
          objective_gradient (infeasible constraint_partition) in
  set_objective_gradient current_iterate objective_gradient.

Definition generate_feasibility_bounds_ (problem : Problem) (current_constraints : vector)
    (constraint_partition : ConstraintPartition) : list Interval :=
  let constraints_bounds :=
    replicate (number_constraints problem) (mkInterval Double.zero Double.zero) in
  foldl (fun constraints_bounds j =>
           let '(lb_, ub_) :=
             if decide (constraint_feasibility constraint_partition !!! j = INFEASIBLE_LOWER) then
               (NInf, (lb (constraint_bounds problem !!! j) - current_constraints !!! j)%D)
             else if decide (constraint_feasibility constraint_partition !!! j = INFEASIBLE_UPPER) then
               ((ub (constraint_bounds problem !!! j) - current_constraints !!! j)%D, PInf)
             else (* FEASIBLE *)
               ((lb (constraint_bounds problem !!! j) - current_constraints !!! j)%D,
                (ub (constraint_bounds problem !!! j) - current_constraints !!! j)%D) in
           <[j:=mkInterval lb_ ub_]> constraints_bounds)
        constraints_bounds (seq 0 (number_constraints problem)).

Section Solver.
(** [QPSolver::solve_LP(variables_bounds, constraints_bounds,
    linear_objective, constraints_jacobian, initial_point)], the
    external LP solver *)
Variable solve_LP :
  list Interval -> list Interval -> SparseVector -> list SparseVector -> vector -> Direction.

(** the arguments of a call of the LP solver *)
Record LPCall : Type := mkLPCall {
  call_variables_bounds : list Interval;
  call_constraints_bounds : list Interval;
  call_linear_objective : SparseVector;
  call_constraints_jacobian : list SparseVector;
  call_initial_point : vector
}.

Definition call_solve_LP (c : LPCall) : Direction :=
  solve_LP (call_variables_bounds c) (call_constraints_bounds c) (call_linear_objective c)
    (call_constraints_jacobian c) (call_initial_point c).

(** the restoration subproblem that [compute_l1lp_step_] hands to the
    LP solver, with the iterate after the objective gradient was set *)
Definition l1lp_subproblem (this : Method) (problem : Problem) (current_iterate : Iterate)
    (phase_2_direction : Direction) (trust_region_radius : double) : Iterate * LPCall :=
  (* compute the objective *)
  let current_iterate :=
    compute_l1_linear_objective_ current_iterate (constraint_partition phase_2_direction) in
  (* bounds of the variables *)
  let variables_bounds := generate_variables_bounds_ this current_iterate trust_region_radius in
  (* bounds of the linearized constraints *)
  let constraints_bounds :=
    generate_feasibility_bounds_ problem (iterate_constraints current_iterate)
      (constraint_partition phase_2_direction) in
  (* generate the initial point *)
  let d0 := x phase_2_direction in
  (current_iterate,
   mkLPCall variables_bounds constraints_bounds (objective_gradient current_iterate)
     (constraints_jacobian current_iterate) d0).

(** returns the direction, the method (its counter) and the iterate
    (its objective gradient), which the source updates in place *)
Definition compute_l1lp_step_ (this : Method) (problem : Problem) (current_iterate : Iterate)
    (phase_2_direction : Direction) (trust_region_radius : double)
    : Direction * Method * Iterate :=
  let '(current_iterate, call) :=
    l1lp_subproblem this problem current_iterate phase_2_direction trust_region_radius in
  (* solve the QP *)
  let direction := call_solve_LP call in
  let direction :=
    mkDirection (x direction) (multipliers direction) (active_set direction)
      (objective direction) Double.zero RESTORATION
      (constraint_partition phase_2_direction) compute_lp_predicted_reduction_ in
  let this := mkMethod (bounds this) (S (number_subproblems_solved this)) in
  (direction, this, current_iterate).
End Solver.

(** *** Elastic variables and multipliers of the l1 problem *)

Definition set_negative (elastic_variables : ElasticVariables) (j i : nat) : ElasticVariables :=
  mkElasticVariables (positive elastic_variables) (<[j:=i]> (negative elastic_variables)).

Definition set_positive (elastic_variables : ElasticVariables) (j i : nat) : ElasticVariables :=
  mkElasticVariables (<[j:=i]> (positive elastic_variables)) (negative elastic_variables).

(** generate elastic variables p and n on the fly to relax the
    constraints; the state of the loop is the pair of the maps and of
    [elastic_index] (an [int] in the source, a natural number here) *)
Definition generate_elastic_variables_ (problem : Problem)
    (elastic_variables : ElasticVariables) : ElasticVariables :=
  let elastic_index := number_variables problem in
  fst (foldl (fun '(elastic_variables, elastic_index) j =>
                let '(elastic_variables, elastic_index) :=
                  if (NInf <? lb (constraint_bounds problem !!! j))%D then
                    (* nonpositive variable n that captures the negative part of the
                       constraint violation *)
                    (set_negative elastic_variables j elastic_index, S elastic_index)
                  else (elastic_variables, elastic_index) in
                if (ub (constraint_bounds problem !!! j) <? PInf)%D then
                  (* nonnegative variable p that captures the positive part of the
                     constraint violation *)
                  (set_positive elastic_variables j elastic_index, S elastic_index)
                else (elastic_variables, elastic_index))
             (elastic_variables, elastic_index)
             (seq 0 (number_constraints problem))).

Definition generate_l1_multipliers_ (problem : Problem)
    (current_constraint_multipliers : vector) (constraint_partition : ConstraintPartition)
    : vector :=
  let constraint_multipliers := replicate (number_constraints problem) Double.zero in
  foldl (fun constraint_multipliers j =>
           if decide (constraint_feasibility constraint_partition !!! j = INFEASIBLE_LOWER) then
             <[j:=Double.one]> constraint_multipliers
           else if decide (constraint_feasibility constraint_partition !!! j = INFEASIBLE_UPPER) then
             <[j:=(- Double.one)%D]> constraint_multipliers
           else
             <[j:=current_constraint_multipliers !!! j]> constraint_multipliers)
        constraint_multipliers (seq 0 (number_constraints problem)).

End ActiveSetMethod.

(** ** Subproblem factories *)

(** the outcome of a construction: an instance, or the exception thrown *)
Inductive Exception : Type :=
| invalid_argument (what : string)
| out_of_range (what : string).

Module SubproblemFactory.

(** the instances [SubproblemFactory::create] builds, with the
    arguments of their constructors that come from the options *)
Inductive Subproblem : Type :=
| SQP (QP_solver hessian : string) (use_trust_region scale_residuals : bool)
| SLP (QP_solver : string) (use_trust_region scale_residuals : bool)
| Sl1QP (QP_solver hessian : string) (use_trust_region scale_residuals : bool)
        (initial_parameter : double)
| InteriorPoint (linear_solver hessian : string) (use_trust_region scale_residuals : bool).

Section Create.
(** [std::stod]: the number a string starts with, or the exception it
    throws ([std::invalid_argument] when there is no number,
    [std::out_of_range] when it is too large) *)
Variable stod : string -> Exception + double.

(** [options[key]] on a [std::map<std::string, std::string>] passed by
    value: an absent key reads as the empty string *)
Definition option_value (options : gmap string string) (key : string) : string :=
  default EmptyString (options !! key).

Definition create (type : string) (options : gmap string string)
    (use_trust_region scale_residuals : bool) : Exception + Subproblem :=
  (* active-set methods *)
  if decide (type = "SQP"%string) then
    inr (SQP (option_value options "QP_solver") (option_value options "hessian")
           use_trust_region scale_residuals)
  else if decide (type = "SLP"%string) then
    inr (SLP (option_value options "QP_solver") use_trust_region scale_residuals)
  else if decide (type = "Sl1QP"%string) then
    match stod (option_value options "Sl1QP_initial_parameter") with
    | inr initial_parameter =>
        inr (Sl1QP (option_value options "QP_solver") (option_value options "hessian")
               use_trust_region scale_residuals initial_parameter)
    | inl exception => inl exception
    end
  (* interior point method *)
  else if decide (type = "IPM"%string) then
    inr (InteriorPoint (option_value options "linear_solver") (option_value options "hessian")
           use_trust_region scale_residuals)
  else
    inl (invalid_argument ("Subproblem method " +:+ type +:+ " does not exist")).
End Create.

End SubproblemFactory.

Module InequalityHandlingMethodFactory.

(** the instances [InequalityHandlingMethodFactory::create] builds,
    with the sizes their constructors receive *)
Inductive InequalityHandlingMethod : Type :=
| QPSubproblem (number_variables number_constraints number_objective_gradient_nonzeros
                number_jacobian_nonzeros number_hessian_nonzeros : nat)
| LPSubproblem (number_variables number_constraints number_objective_gradient_nonzeros
                number_jacobian_nonzeros : nat)
| PrimalDualInteriorPointMethod (number_variables number_constraints
                                 number_jacobian_nonzeros number_hessian_nonzeros : nat).

Section Create.
(** [Options] and its [get_string] (options/Options.hpp) *)
Variable Options : Type.
Variable get_string : Options -> string -> string.

Definition create (number_variables number_constraints number_objective_gradient_nonzeros
                   number_jacobian_nonzeros number_hessian_nonzeros : nat)
    (options : Options) : Exception + InequalityHandlingMethod :=
  let subproblem_strategy := get_string options "subproblem" in
  (* active-set methods *)
  if decide (subproblem_strategy = "QP"%string) then
    inr (QPSubproblem number_variables number_constraints number_objective_gradient_nonzeros
           number_jacobian_nonzeros number_hessian_nonzeros)
  else if decide (subproblem_strategy = "LP"%string) then
    inr (LPSubproblem number_variables number_constraints number_objective_gradient_nonzeros
           number_jacobian_nonzeros)
  (* interior-point method *)
  else if decide (subproblem_strategy = "primal_dual_interior_point"%string) then
    inr (PrimalDualInteriorPointMethod number_variables number_constraints
           number_jacobian_nonzeros number_hessian_nonzeros)
  else
    inl (invalid_argument ("Subproblem strategy " +:+ subproblem_strategy +:+ " is not supported")).
End Create.

(** the arguments are the lists that [QPSolverFactory::available_solvers()]
    and [SymmetricIndefiniteLinearSolverFactory::available_solvers()] return
    (they depend on the libraries the program was built with) *)
Definition available_strategies (QP_available_solvers linear_available_solvers : list string)
    : list string :=
  let strategies : list string := [] in
  let strategies :=
    if negb (bool_decide (QP_available_solvers = [])) then
      (strategies ++ ["QP"%string]) ++ ["LP"%string]
    else strategies in
  let strategies :=
    if negb (bool_decide (linear_available_solvers = [])) then
      strategies ++ ["primal_dual_interior_point"%string]
    else strategies in
  strategies.

End InequalityHandlingMethodFactory.

(** ** Primal-dual interior-point subproblem: barrier terms, right-hand
       side and measures *)

Module PrimalDualInteriorPointSubproblem.
Import InteriorPoint.

(** The subproblem with the members that the methods below use besides
    those of [InteriorPoint.Subproblem]: [rhs] is
    [this->augmented_system.rhs] and [constraint_jacobian] is
    [this->evaluations.constraint_jacobian], one sparse row for each
    constraint. *)
Record State : Type := mkState {
  subproblem : Subproblem;
  damping_factor : double;
  rhs : vector;
  constraint_jacobian : list SparseVector;
  number_subproblems_solved : nat
}.

Definition set_subproblem (this : State) (s : Subproblem) : State :=
  mkState s (damping_factor this) (rhs this) (constraint_jacobian this)
    (number_subproblems_solved this).

Definition set_rhs (this : State) (v : vector) : State :=
  mkState (subproblem this) (damping_factor this) v (constraint_jacobian this)
    (number_subproblems_solved this).

(** [this->evaluations.constraints = c] *)
Definition set_constraint_values (this : Subproblem) (c : vector) : Subproblem :=
  mkSubproblem (barrier_parameter this) (previous_barrier_parameter this)
    (default_multiplier this) (parameters this) (solving_feasibility_problem this)
    (subproblem_definition_changed this) c (objective_gradient this)
    (solution this) (lower_delta_z this) (upper_delta_z this) (direction this).

(** The body of the loop of [evaluate_functions] for the variable [i], up
    to its two [insert] calls: the pair of [hessian_diagonal_barrier_term],
    which the loop inserts at [(i, i)] into the Hessian, and of
    [objective_barrier_term], which it inserts at [i] into the objective
    gradient.  The evaluations around the loop (Hessian model, objective
    gradient, constraints, Jacobian) are external. *)
Definition evaluate_functions_barrier_terms (this : State) (problem : NonlinearProblem)
    (current_iterate : Iterate) (i : nat) : double * double :=
  (* Hessian: diagonal barrier terms (grouped by variable) *)
  let hessian_diagonal_barrier_term := Double.zero in
  (* objective gradient *)
  let objective_barrier_term := Double.zero in
  let '(hessian_diagonal_barrier_term, objective_barrier_term) :=
    if Double.is_finite (get_variable_lower_bound problem i) then (* lower bounded *)
      let inverse_distance :=
        (Double.one / (primals current_iterate !!! i - get_variable_lower_bound problem i))%D in
      let hessian_diagonal_barrier_term :=
        (hessian_diagonal_barrier_term
         + lower_bounds (multipliers current_iterate) !!! i * inverse_distance)%D in
      let objective_barrier_term :=
        (objective_barrier_term + - barrier_parameter (subproblem this) * inverse_distance)%D in
      (* damping *)
      let objective_barrier_term :=
        if negb (Double.is_finite (get_variable_upper_bound problem i)) then
          (objective_barrier_term
           + damping_factor this * barrier_parameter (subproblem this))%D
        else objective_barrier_term in
      (hessian_diagonal_barrier_term, objective_barrier_term)
    else (hessian_diagonal_barrier_term, objective_barrier_term) in
  let '(hessian_diagonal_barrier_term, objective_barrier_term) :=
    if Double.is_finite (get_variable_upper_bound problem i) then (* upper bounded *)
      let inverse_distance :=
        (Double.one / (primals current_iterate !!! i - get_variable_upper_bound problem i))%D in
      let hessian_diagonal_barrier_term :=
        (hessian_diagonal_barrier_term
         + upper_bounds (multipliers current_iterate) !!! i * inverse_distance)%D in
      let objective_barrier_term :=
        (objective_barrier_term + - barrier_parameter (subproblem this) * inverse_distance)%D in
      (* damping *)
      let objective_barrier_term :=
        if negb (Double.is_finite (get_variable_lower_bound problem i)) then
          (objective_barrier_term
           - damping_factor this * barrier_parameter (subproblem this))%D
        else objective_barrier_term in
      (hessian_diagonal_barrier_term, objective_barrier_term)
    else (hessian_diagonal_barrier_term, objective_barrier_term) in
  (hessian_diagonal_barrier_term, objective_barrier_term).

(** The value that the method stores in [iterate.progress.auxiliary_terms];
    [None] models the failed [assert] on a NaN. *)
Definition set_auxiliary_measure (this : State) (problem : NonlinearProblem)
    (iterate : Iterate) : option double :=
  (* auxiliary measure: barrier terms *)
  let barrier_terms := Double.zero in
  let barrier_terms :=
    foldl (fun barrier_terms i =>
             (barrier_terms
              - Double.log (primals iterate !!! i - get_variable_lower_bound problem i))%D)
          barrier_terms (lower_bounded_variables problem) in
  let barrier_terms :=
    foldl (fun barrier_terms i =>
             (barrier_terms
              - Double.log (get_variable_upper_bound problem i - primals iterate !!! i))%D)
          barrier_terms (upper_bounded_variables problem) in
  (* damping *)
  let barrier_terms :=
    foldl (fun barrier_terms i =>
             (barrier_terms
              + damping_factor this
                * (primals iterate !!! i - get_variable_lower_bound problem i))%D)
          barrier_terms (single_lower_bounded_variables problem) in
  let barrier_terms :=
    foldl (fun barrier_terms i =>
             (barrier_terms
              + damping_factor this
                * (get_variable_upper_bound problem i - primals iterate !!! i))%D)
          barrier_terms (single_upper_bounded_variables problem) in
  let barrier_terms := (barrier_terms * barrier_parameter (subproblem this))%D in
  if negb (Double.isnan barrier_terms) then Some barrier_terms else None.

Definition compute_barrier_term_directional_derivative (this : State)
    (problem : NonlinearProblem) (current_iterate : Iterate) (direction : Direction)
    : double :=
  let directional_derivative := Double.zero in
  let directional_derivative :=
    foldl (fun directional_derivative i =>
             (directional_derivative
              + - barrier_parameter (subproblem this)
                / (primals current_iterate !!! i - get_variable_lower_bound problem i)
                * direction_primals direction !!! i)%D)
          directional_derivative (lower_bounded_variables problem) in
  let directional_derivative :=
    foldl (fun directional_derivative i =>
             (directional_derivative
              + - barrier_parameter (subproblem this)
                / (primals current_iterate !!! i - get_variable_upper_bound problem i)
                * direction_primals direction !!! i)%D)
          directional_derivative (upper_bounded_variables problem) in
  (* damping *)
  let directional_derivative :=
    foldl (fun directional_derivative i =>
             (directional_derivative
              + damping_factor this * barrier_parameter (subproblem this)
                * direction_primals direction !!! i)%D)
          directional_derivative (single_lower_bounded_variables problem) in
  let directional_derivative :=
    foldl (fun directional_derivative i =>
             (directional_derivative
              - damping_factor this * barrier_parameter (subproblem this)
                * direction_primals direction !!! i)%D)
          directional_derivative (single_upper_bounded_variables problem) in
  directional_derivative.

Definition generate_predicted_auxiliary_reduction_model (this : State)
    (problem : NonlinearProblem) (current_iterate : Iterate) (direction : Direction)
    (step_length : double) : double :=
  let directional_derivative :=
    compute_barrier_term_directional_derivative this problem current_iterate direction in
  (step_length * - directional_derivative)%D.

(** Modelled from the spec: [norm_inf] of the values of a function over
    a range of indices (linear_algebra/Vector.hpp is not part of the
    sources), the largest absolute value, 0 for the empty range. *)
Definition norm_inf_range (ith_component : nat -> double) (range : list nat) : double :=
  foldl (fun norm i => Double.max norm (Double.abs (ith_component i))) Double.zero range.

(** Section 3.9 in IPOPT paper *)
Definition is_small_step (this : State) (problem : NonlinearProblem)
    (current_iterate : Iterate) (direction : Direction) : bool :=
  let relative_measure_function := fun i =>
    (direction_primals direction !!! i
     / (Double.one + Double.abs (primals current_iterate !!! i)))%D in
  (norm_inf_range relative_measure_function (seq 0 (number_variables problem))
   <? small_direction_factor (parameters (subproblem this)) * machine_epsilon)%D.

(** generate the right-hand side; [for_each] visits the entries of a
    sparse vector *)
Definition generate_augmented_rhs (this : State) (problem : NonlinearProblem)
    (current_iterate : Iterate) : State :=
  let this := set_rhs this (initialize_vector (rhs this) Double.zero) in
  (* objective gradient *)
  let this :=
    map_fold (fun i derivative this =>
                set_rhs this (<[i:=(rhs this !!! i - derivative)%D]> (rhs this)))
             this (objective_gradient (subproblem this)) in
  (* constraint: evaluations and gradients *)
  foldl (fun this j =>
           (* Lagrangian *)
           let this :=
             if Double.neb (constraints (multipliers current_iterate) !!! j) Double.zero then
               map_fold (fun i derivative this =>
                           set_rhs this
                             (<[i:=(rhs this !!! i
                                    + constraints (multipliers current_iterate) !!! j
                                      * derivative)%D]> (rhs this)))
                        this (constraint_jacobian this !!! j)
             else this in
           (* constraints *)
           set_rhs this
             (<[(number_variables problem + j)%nat:=
                  (- constraint_values (subproblem this) !!! j)%D]> (rhs this)))
        this (seq 0 (number_constraints problem)).

Section SecondOrderCorrection.
(** [hessian_model->hessian->quadratic_product] *)
Variable quadratic_product : vector -> vector -> double.
(** [problem.evaluate_constraints(iterate, constraints)], a virtual
    method of the problem: the iterate (whose caches it may fill) and the
    constraint values *)
Variable problem_evaluate_constraints : NonlinearProblem -> Iterate -> Iterate * vector.
(** [this->augmented_system.solve] with the linear solver: the solution
    of the factorized system for a right-hand side *)
Variable augmented_system_solve : vector -> vector.

(** The status of the direction ([Subproblem::check_unboundedness]) is
    not modelled.  Returns the subproblem, whose [direction] is the one
    returned by the source, and the trial iterate. *)
Definition compute_second_order_correction (this : State) (problem : NonlinearProblem)
    (trial_iterate : Iterate) (primal_step_length : double) : option (State * Iterate) :=
  (* scale the current constraint values with the primal step length *)
  let this :=
    foldl (fun this j =>
             set_rhs this
               (<[(number_variables problem + j)%nat:=
                    (rhs this !!! (number_variables problem + j)%nat * primal_step_length)%D]>
                  (rhs this)))
          this (seq 0 (number_constraints problem)) in
  (* shift the RHS with the values of the constraints at the trial iterate *)
  let '(trial_iterate, trial_constraints) := problem_evaluate_constraints problem trial_iterate in
  let this := set_subproblem this (set_constraint_values (subproblem this) trial_constraints) in
  let this :=
    foldl (fun this j =>
             set_rhs this
               (<[(number_variables problem + j)%nat:=
                    (rhs this !!! (number_variables problem + j)%nat
                     - constraint_values (subproblem this) !!! j)%D]>
                  (rhs this)))
          this (seq 0 (number_constraints problem)) in
  (* compute the solution (Δx, -Δλ) *)
  let this :=
    set_subproblem this (set_solution (subproblem this) (augmented_system_solve (rhs this))) in
  let this :=
    mkState (subproblem this) (damping_factor this) (rhs this) (constraint_jacobian this)
      (S (number_subproblems_solved this)) in
  base ← generate_primal_dual_direction quadratic_product (subproblem this) problem trial_iterate;
  Some (set_subproblem this base, trial_iterate).
End SecondOrderCorrection.

End PrimalDualInteriorPointSubproblem.

Import InteriorPoint.

(** * Specifications *)

(** ** The interior-point invariant *)

(** [x] is strictly inside the bound of every bounded variable *)
Definition strictly_interior (problem : NonlinearProblem) (x : vector) : Prop :=
  (forall i, i ∈ lower_bounded_variables problem ->
     (get_variable_lower_bound problem i <? x !!! i)%D = true) /\
  (forall i, i ∈ upper_bounded_variables problem ->
     (x !!! i <? get_variable_upper_bound problem i)%D = true).

(** [z_L >= 0] and [z_U <= 0] *)
Definition dual_feasible (m : Multipliers) : Prop :=
  Forall (fun z => (Double.zero <=? z)%D = true) (lower_bounds m) /\
  Forall (fun z => (z <=? Double.zero)%D = true) (upper_bounds m).

Definition interior_point_invariant (problem : NonlinearProblem) (iterate : Iterate) : Prop :=
  strictly_interior problem (primals iterate) /\ dual_feasible (multipliers iterate).

(** ** Multiplier reset *)

(** clamping [z] into [[lo, hi]] as the source writes it; nothing is done
    when the interval is empty *)
Definition clamp (lo hi z : double) : double :=
  if (lo <=? hi)%D then Double.max (Double.min z hi) lo else z.

(** the interval of Eq. 16 for a lower-bound multiplier *)
Definition lower_multiplier_interval (this : Subproblem) (problem : NonlinearProblem)
    (x : vector) (i : nat) : double * double :=
  let coefficient := (barrier_parameter this / (x !!! i - get_variable_lower_bound problem i))%D in
  ((coefficient / k_sigma (parameters this))%D, (coefficient * k_sigma (parameters this))%D).

(** the interval of Eq. 16 for an upper-bound multiplier *)
Definition upper_multiplier_interval (this : Subproblem) (problem : NonlinearProblem)
    (x : vector) (i : nat) : double * double :=
  let coefficient := (barrier_parameter this / (x !!! i - get_variable_upper_bound problem i))%D in
  ((coefficient * k_sigma (parameters this))%D, (coefficient / k_sigma (parameters this))%D).

Definition clamp_lower (this : Subproblem) (problem : NonlinearProblem) (x : vector) (i : nat)
    : double -> double :=
  clamp (lower_multiplier_interval this problem x i).1 (lower_multiplier_interval this problem x i).2.

Definition clamp_upper (this : Subproblem) (problem : NonlinearProblem) (x : vector) (i : nat)
    : double -> double :=
  clamp (upper_multiplier_interval this problem x i).1 (upper_multiplier_interval this problem x i).2.

(** ** Fraction-to-boundary rule *)

(** one iteration of the four loops of the rule *)
Definition fraction_step (guard : nat -> bool) (trial : nat -> double)
    (length_ : double) (i : nat) : double :=
  if guard i then
    if (Double.zero <? trial i)%D then Double.min length_ (trial i) else length_
  else length_.

(** the displacement of a lower-bound multiplier *)
Definition lower_displacement (this : Subproblem) (problem : NonlinearProblem)
    (current_iterate : Iterate) (i : nat) : double :=
  ((barrier_parameter this
    - solution this !!! i * lower_bounds (multipliers current_iterate) !!! i)
   / (primals current_iterate !!! i - get_variable_lower_bound problem i)
   - lower_bounds (multipliers current_iterate) !!! i)%D.

(** the displacement of an upper-bound multiplier *)
Definition upper_displacement (this : Subproblem) (problem : NonlinearProblem)
    (current_iterate : Iterate) (i : nat) : double :=
  ((barrier_parameter this
    - solution this !!! i * upper_bounds (multipliers current_iterate) !!! i)
   / (primals current_iterate !!! i - get_variable_upper_bound problem i)
   - upper_bounds (multipliers current_iterate) !!! i)%D.

Definition with_delta_z (this : Subproblem) (dzL dzU : vector) : Subproblem :=
  set_upper_delta_z (set_lower_delta_z this dzL) dzU.

(** ** Feasibility problem *)

(** the value that the source gives to an elastic variable, for the
    barrier parameter [mu], the constraint value [c] and the coefficient [s] *)
Definition elastic_value (mu c s : R) : R := ((mu - s * c + sqrt (c * c + mu * mu)) / 2)%R.

(** an elastic variable is well formed for an iterate: its indices are
    in range, the value of its constraint is finite and its coefficient
    is 1 or -1 *)
Definition elastic_well_formed (this : Subproblem) (iterate : Iterate)
    (elastic : nat * nat * double) : Prop :=
  let '(j, e, coefficient) := elastic in
  (e < length (primals iterate))%nat
  /\ (e < length (lower_bounds (multipliers iterate)))%nat
  /\ Double.is_finite (constraint_values this !!! j) = true
  /\ (coefficient = Fin 1 \/ coefficient = Fin (-1)).

(** ** Active set *)

(** the constraint is relaxed: the elastic variables of [j] sum to a
    positive value *)
Definition relaxed (direction : ActiveSetMethod.Direction)
    (elastic_variables : ActiveSetMethod.ElasticVariables) (j : nat) : bool :=
  (Double.zero <? ActiveSetMethod.constraint_violation direction elastic_variables j)%D.

(** ** Restoration objective *)

(** the sum of a list of real numbers *)
Definition Rsum (l : list R) : R := foldr Rplus 0%R l.

(** the sign of the gradient of constraint [j] in the objective *)
Definition gradient_sign (partition : ActiveSetMethod.ConstraintPartition) (j : nat) : R :=
  if decide (ActiveSetMethod.constraint_feasibility partition !!! j
             = ActiveSetMethod.INFEASIBLE_LOWER)
  then (-1)%R else 1%R.

(** the derivative of constraint [j] with respect to variable [i] *)
Definition jacobian_entry (current_iterate : ActiveSetMethod.Iterate) (j i : nat) : R :=
  Double.to_R (sparse_at (ActiveSetMethod.constraints_jacobian current_iterate !!! j) i).

(** one iteration of the outer loop of [compute_l1_linear_objective_] *)
Definition add_row (current_iterate : ActiveSetMethod.Iterate)
    (partition : ActiveSetMethod.ConstraintPartition) (j : nat) (g : SparseVector)
    : SparseVector :=
  map_fold (fun i derivative (objective_gradient : SparseVector) =>
              if decide (ActiveSetMethod.constraint_feasibility partition !!! j
                         = ActiveSetMethod.INFEASIBLE_LOWER)
              then <[i:=(sparse_at objective_gradient i - derivative)%D]> objective_gradient
              else <[i:=(sparse_at objective_gradient i + derivative)%D]> objective_gradient)
           g (ActiveSetMethod.constraints_jacobian current_iterate !!! j).

(** ** Factories *)

(** the strategies that the specification lists for the option [subproblem] *)
Definition specified_strategies : list string :=
  ["QP"; "LP"; "primal_dual_interior_point"]%string.

(** the names that [SubproblemFactory::create] recognizes *)
Definition legacy_strategies : list string :=
  ["SQP"; "SLP"; "Sl1QP"; "IPM"]%string.

(** ** Elastic variables *)

(** the constraint has a lower bound, so that it gets a [negative]
    elastic variable *)
Definition has_lower_bound (problem : ActiveSetMethod.Problem) (j : nat) : bool :=
  (NInf <? lb (ActiveSetMethod.constraint_bounds problem !!! j))%D.

(** the constraint has an upper bound, so that it gets a [positive]
    elastic variable *)
Definition has_upper_bound (problem : ActiveSetMethod.Problem) (j : nat) : bool :=
  (ub (ActiveSetMethod.constraint_bounds problem !!! j) <? PInf)%D.

(** the number of elastic variables of the constraints before [k] *)
Fixpoint elastic_count (problem : ActiveSetMethod.Problem) (k : nat) : nat :=
  match k with
  | O => 0
  | S j =>
      elastic_count problem j
      + (if has_lower_bound problem j then 1 else 0)
      + (if has_upper_bound problem j then 1 else 0)
  end.

(** ** Barrier function *)

(** the logarithmic barrier of the bounds at [x], with its damping terms
    for the variables bounded on one side, over the reals *)
Definition barrier_function (problem : NonlinearProblem) (x : vector) (damping : R) : R :=
  (- Rsum ((fun i => ln (Double.to_R (x !!! i) - Double.to_R (get_variable_lower_bound problem i)))
           <$> lower_bounded_variables problem)
   - Rsum ((fun i => ln (Double.to_R (get_variable_upper_bound problem i) - Double.to_R (x !!! i)))
           <$> upper_bounded_variables problem)
   + Rsum ((fun i => damping
                     * (Double.to_R (x !!! i) - Double.to_R (get_variable_lower_bound problem i)))
           <$> single_lower_bounded_variables problem)
   + Rsum ((fun i => damping
                     * (Double.to_R (get_variable_upper_bound problem i) - Double.to_R (x !!! i)))
           <$> single_upper_bounded_variables problem))%R.

(** ** Concrete data for the examples *)

Definition example_parameters (k1 k2 : R) : Parameters :=
  mkParameters (Fin (99 / 100)) (Fin 10) (Fin (1 / 4)) (Fin 10) (Fin k1) (Fin k2).

Definition example_direction : Direction :=
  mkDirection 0 0 [] (mkMultipliers [] [] []) Double.zero Double.zero Double.zero.

(** a subproblem with barrier parameter 1/10 and default multiplier 1 *)
Definition example_subproblem (k1 k2 : R) : Subproblem :=
  mkSubproblem (Fin (1 / 10)) (Fin (1 / 10)) Double.one (example_parameters k1 k2)
    false false [] ∅ [] [] [] example_direction.

(** a subproblem whose linear system returned the step [dx] for the one
    variable of [one_variable_problem] *)
Definition example_solved_subproblem (dx : R) : Subproblem :=
  mkSubproblem (Fin (1 / 10)) (Fin (1 / 10)) Double.one
    (example_parameters (1 / 100) (1 / 100)) false false [] ∅
    [Fin dx] [Double.zero] [Double.zero]
    (mkDirection 0 0 [Double.zero] (mkMultipliers [] [Double.zero] [Double.zero])
       Double.zero Double.zero Double.zero).

(** one variable with bounds [l <= x <= u], no constraint *)
Definition one_variable_problem (l u : R) : NonlinearProblem :=
  mkNonlinearProblem 1 0 [] [0%nat] [0%nat] [] [] (fun _ => Fin l) (fun _ => Fin u) []
    (fun _ => []).

Definition one_variable_iterate (x zl zu : R) : Iterate :=
  mkIterate [Fin x] (mkMultipliers [] [Fin zl] [Fin zu]) [] false false false.

Definition no_least_square_multipliers : NonlinearProblem -> Iterate -> vector :=
  fun _ _ => [].

(** the subproblem [example_solved_subproblem dx] with the damping
    factor 1/100000 and an empty right-hand side *)
Definition example_state (dx : R) : PrimalDualInteriorPointSubproblem.State :=
  PrimalDualInteriorPointSubproblem.mkState (example_solved_subproblem dx)
    (Fin (1 / 100000)) [] [] 0.

(** a direction for the one variable of [one_variable_problem] *)
Definition one_variable_direction (d : R) : Direction :=
  mkDirection 1 0 [Fin d] (mkMultipliers [] [Double.zero] [Double.zero])
    Double.zero Double.zero Double.zero.

(** two variables with bounds [0 <= x <= 10], the second one the slack
    of the constraint [c(x) = 2 x_0] *)
Definition slack_problem : NonlinearProblem :=
  mkNonlinearProblem 2 1 [] [0; 1]%nat [0; 1]%nat [] [] (fun _ => Fin 0) (fun _ => Fin 10)
    [(0, 1)]%nat (fun x => [(Double.two * x !!! 0%nat)%D]).

(** * Properties *)

(** ** Loops *)

Section Loops.
Context {A B : Type}.
Implicit Types (f : A -> B -> A) (l : list B).

(** a loop invariant: it holds at entry and every iteration keeps it *)
Lemma foldl_invariant (P : A -> Prop) f l a :
  P a -> (forall a x, x ∈ l -> P a -> P (f a x)) -> P (foldl f a l).
Proof.
  revert a. induction l as [|x l IH]; intros a Ha Hstep; simpl; [done|].
  apply IH.
  - apply Hstep; [left|done].
  - intros a' y Hy. apply Hstep. by right.
Qed.

(** a loop invariant that may mention the iterations already done *)
Lemma foldl_invariant_done (P : list B -> A -> Prop) f l a :
  P [] a ->
  (forall done x a, x ∈ l -> P done a -> P (done ++ [x]) (f a x)) ->
  P l (foldl f a l).
Proof.
  induction l as [|x l IH] using rev_ind; intros Ha Hstep; simpl; [done|].
  rewrite foldl_app. simpl. apply Hstep.
  - set_solver.
  - apply IH; [done|]. intros done y a' Hy. apply Hstep. set_solver.
Qed.
End Loops.

(** storing the same value at each index of a list *)
Lemma foldl_insert_const `{!Inhabited A} (a : A) (l : list nat) (v : list A) (k : nat) :
  length (foldl (fun v i => <[i:=a]> v) v l) = length v /\
  foldl (fun v i => <[i:=a]> v) v l !!! k
  = if decide (k ∈ l /\ (k < length v)%nat) then a else v !!! k.
Proof.
  revert v. induction l as [|i l IH]; intros v; cbn [foldl].
  - split; [done|]. rewrite decide_False; [done|]. intros [H _]. by apply elem_of_nil in H.
  - destruct (IH (<[i:=a]> v)) as [IH1 IH2]. rewrite IH1, IH2, !length_insert.
    split; [done|].
    destruct (decide (k ∈ l /\ (k < length v)%nat)) as [[Hl Hk]|Hn].
    + rewrite decide_True; [done|]. split; [by right|done].
    + destruct (decide (k = i)) as [->|Hne].
      * destruct (decide (i < length v)%nat) as [Hi|Hi].
        -- rewrite list_lookup_total_insert_eq by done.
           rewrite decide_True; [done|]. split; [by left|done].
        -- rewrite list_insert_ge by lia. rewrite decide_False; [done|]. intros [_ ?]. lia.
      * rewrite list_lookup_total_insert_ne by done.
        rewrite decide_False; [done|]. intros [H ?]. apply Hn. split; [|done].
        apply elem_of_cons in H as [?|?]; [done|done].
Qed.

(** a loop that rewrites the entry at each index of a list without
    repetitions, from the entry itself *)
Lemma foldl_insert_pointwise `{!Inhabited A} (g : nat -> A -> A) (l : list nat) (v : list A)
    (k : nat) :
  NoDup l ->
  length (foldl (fun v i => <[i:=g i (v !!! i)]> v) v l) = length v /\
  foldl (fun v i => <[i:=g i (v !!! i)]> v) v l !!! k
  = if decide (k ∈ l /\ (k < length v)%nat) then g k (v !!! k) else v !!! k.
Proof.
  revert v. induction l as [|i l IH]; intros v Hnd; cbn [foldl].
  - split; [done|]. rewrite decide_False; [done|]. intros [H _]. by apply elem_of_nil in H.
  - apply NoDup_cons in Hnd as [Hi Hnd].
    destruct (IH (<[i:=g i (v !!! i)]> v) Hnd) as [IH1 IH2]. rewrite IH1, IH2, !length_insert.
    split; [done|].
    destruct (decide (k = i)) as [->|Hne].
    + rewrite decide_False by (by intros [? _]).
      destruct (decide (i < length v)%nat) as [Hlt|Hlt].
      * rewrite list_lookup_total_insert_eq by done.
        rewrite decide_True; [done|]. split; [by left|done].
      * rewrite list_insert_ge by lia. rewrite decide_False; [done|]. intros [_ ?]. lia.
    + rewrite !list_lookup_total_insert_ne by done.
      destruct (decide (k ∈ l /\ (k < length v)%nat)) as [[Hl Hk]|Hn].
      * rewrite decide_True; [done|]. split; [by right|done].
      * rewrite decide_False; [done|]. intros [H ?]. apply Hn. split; [|done].
        apply elem_of_cons in H as [?|?]; [done|done].
Qed.

Ltac dcases :=
  repeat (simpl in *; unfold Double.signed_inf in *;
          first [ case_bool_decide | case_decide ]); simpl in *.

Lemma opp_nonpositive (a : double) :
  (Double.zero <=? a)%D = true -> (- a <=? Double.zero)%D = true.
Proof.
  destruct a; simpl; try done. intros H.
  apply bool_decide_eq_true. apply bool_decide_eq_true in H. lra.
Qed.

(** ** Pushing a value into an interval *)

Section Push.
Local Open Scope R_scope.
Variable p : Parameters.
Variables k1 k2 : R.
Hypothesis Hk1 : push_variable_to_interior_k1 p = Fin k1.
Hypothesis Hk2 : push_variable_to_interior_k2 p = Fin k2.

(** finite bounds: the result lies between them *)
Lemma push_variable_to_interior_finite (v l u : R) :
  0 <= k1 -> 0 < k2 <= 1 -> l <= u ->
  exists r, push_variable_to_interior p (Fin v) (mkInterval (Fin l) (Fin u)) = Fin r
    /\ l <= r <= u /\ (0 < k1 -> k2 < 1 -> l < u -> l < r < u) /\ (l = u -> r = l).
Proof.
  intros H1 H2 H3.
  unfold push_variable_to_interior, Double.max, Double.min. rewrite Hk1, Hk2. simpl.
  pose proof (Rabs_pos l) as Hal. pose proof (Rabs_pos u) as Hau.
  generalize dependent (Rabs l). generalize dependent (Rabs u). intros au Hau al Hal.
  repeat (case_bool_decide; simpl); eexists; (split; [reflexivity|]); nra.
Qed.

(** any bounds, infinite ones included: the result is strictly inside
    each finite bound *)
Lemma push_variable_to_interior_strict (v : double) (b : Interval) :
  0 < k1 -> 0 < k2 < 1 -> v <> NaN -> (lb b <? ub b)%D = true ->
  (Double.is_finite (lb b) = true -> (lb b <? push_variable_to_interior p v b)%D = true) /\
  (Double.is_finite (ub b) = true -> (push_variable_to_interior p v b <? ub b)%D = true).
Proof.
  intros H1 H2 Hv Hb. destruct b as [l u].
  unfold push_variable_to_interior, Double.max, Double.min, Double.is_finite.
  rewrite Hk1, Hk2. simpl in *.
  destruct l as [| | |l], u as [| | |u]; try discriminate Hb;
    destruct v as [| | |v]; try congruence; simpl.
  all: try (pose proof (Rabs_pos l); generalize dependent (Rabs l); intros al Hal).
  all: try (pose proof (Rabs_pos u); generalize dependent (Rabs u); intros au Hau).
  all: dcases.
  all: try (exfalso; lra).
  all: split; try discriminate; intros; dcases; try reflexivity; try nra.
Qed.
End Push.

(** ** Loops over an iterate *)

Lemma foldl_set_primal (g : nat -> double -> double) (l : list nat) (it : Iterate) :
  foldl (fun it i => set_primal it i (g i (primals it !!! i))) it l
  = set_primals it (foldl (fun v i => <[i:=g i (v !!! i)]> v) (primals it) l).
Proof.
  revert it. induction l as [|i l IH]; intros it; simpl; [by destruct it|].
  rewrite IH. reflexivity.
Qed.

Lemma foldl_set_lower_bound_multiplier (a : double) (l : list nat) (it : Iterate) :
  foldl (fun it i => set_lower_bound_multiplier it i a) it l
  = set_multipliers it
      (mkMultipliers (constraints (multipliers it))
         (foldl (fun v i => <[i:=a]> v) (lower_bounds (multipliers it)) l)
         (upper_bounds (multipliers it))).
Proof.
  revert it. induction l as [|i l IH]; intros it; simpl; [by destruct it as [? [] ? ? ? ?]|].
  rewrite IH. reflexivity.
Qed.

Lemma foldl_set_upper_bound_multiplier (a : double) (l : list nat) (it : Iterate) :
  foldl (fun it i => set_upper_bound_multiplier it i a) it l
  = set_multipliers it
      (mkMultipliers (constraints (multipliers it))
         (lower_bounds (multipliers it))
         (foldl (fun v i => <[i:=a]> v) (upper_bounds (multipliers it)) l)).
Proof.
  revert it. induction l as [|i l IH]; intros it; simpl; [by destruct it as [? [] ? ? ? ?]|].
  rewrite IH. reflexivity.
Qed.

Lemma Forall_foldl_insert_const (P : double -> Prop) (a : double) (l : list nat) (v : vector) :
  P a -> Forall P v -> Forall P (foldl (fun v i => <[i:=a]> v) v l).
Proof.
  intros Ha. revert v. induction l as [|i l IH]; intros v Hv; simpl; [done|].
  apply IH. by apply Forall_insert.
Qed.

Section InitializeInvariant.
Variable least_square_multipliers : NonlinearProblem -> Iterate -> vector.
Variables (this : Subproblem) (problem : NonlinearProblem) (first_iterate : Iterate).
Variables k1 k2 : R.
Hypothesis Hk1 : push_variable_to_interior_k1 (parameters this) = Fin k1.
Hypothesis Hk2 : push_variable_to_interior_k2 (parameters this) = Fin k2.
Hypothesis Hk1_pos : (0 < k1)%R.
Hypothesis Hk2_range : (0 < k2 < 1)%R.
Hypothesis Hno_inequality : inequality_constraints problem = [].
Hypothesis Hbounds : forall i, (i < number_variables problem)%nat ->
  (get_variable_lower_bound problem i <? get_variable_upper_bound problem i)%D = true.
Hypothesis Hlower : forall i, i ∈ lower_bounded_variables problem ->
  (i < number_variables problem)%nat /\ Double.is_finite (get_variable_lower_bound problem i) = true.
Hypothesis Hupper : forall i, i ∈ upper_bounded_variables problem ->
  (i < number_variables problem)%nat /\ Double.is_finite (get_variable_upper_bound problem i) = true.
Hypothesis Hslacks : forall j s, (j, s) ∈ model_slacks problem ->
  (s < number_variables problem)%nat /\
  evaluations_constraints (evaluate_constraints problem first_iterate) !!! j <> NaN.
Hypothesis Hlength : length (primals first_iterate) = number_variables problem.
Hypothesis Hprimals : Forall (fun a => a <> NaN) (primals first_iterate).
Hypothesis Hlength_lower : length (lower_bounds (multipliers first_iterate)) = number_variables problem.
Hypothesis Hlength_upper : length (upper_bounds (multipliers first_iterate)) = number_variables problem.
Hypothesis Hdual : dual_feasible (multipliers first_iterate).
Hypothesis Hdefault : (Double.zero <=? default_multiplier this)%D = true.

Let pushed (v : double) (i : nat) : double :=
  push_variable_to_interior (parameters this) v
    (mkInterval (get_variable_lower_bound problem i) (get_variable_upper_bound problem i)).

Let inside (x : vector) : Prop :=
  length x = number_variables problem /\
  forall i, (i < number_variables problem)%nat ->
    (Double.is_finite (get_variable_lower_bound problem i) = true ->
     (get_variable_lower_bound problem i <? x !!! i)%D = true) /\
    (Double.is_finite (get_variable_upper_bound problem i) = true ->
     (x !!! i <? get_variable_upper_bound problem i)%D = true).

Local Lemma pushed_inside (v : double) (i : nat) :
  (i < number_variables problem)%nat -> v <> NaN ->
  (Double.is_finite (get_variable_lower_bound problem i) = true ->
   (get_variable_lower_bound problem i <? pushed v i)%D = true) /\
  (Double.is_finite (get_variable_upper_bound problem i) = true ->
   (pushed v i <? get_variable_upper_bound problem i)%D = true).
Proof.
  intros Hi Hv.
  apply (push_variable_to_interior_strict _ k1 k2 Hk1 Hk2 v
           (mkInterval (get_variable_lower_bound problem i) (get_variable_upper_bound problem i)));
    try done.
  by apply Hbounds.
Qed.

Local Lemma first_loop_inside :
  inside (foldl (fun v i => <[i:=pushed (v !!! i) i]> v) (primals first_iterate)
            (seq 0 (number_variables problem))).
Proof.
  pose proof (foldl_insert_pointwise (fun i v => pushed v i) (seq 0 (number_variables problem))
                (primals first_iterate)) as H.
  split.
  - rewrite <- Hlength at 2. apply (H 0%nat), NoDup_seq.
  - intros i Hi. destruct (H i (NoDup_seq _ _)) as [_ ->].
    rewrite decide_True.
    + apply pushed_inside; [done|].
      rewrite Forall_forall in Hprimals. apply Hprimals.
      apply list_elem_of_lookup_total_2. lia.
    + split; [apply elem_of_seq; lia | lia].
Qed.

Local Lemma slack_loop_inside (c : vector) (x : vector) :
  (forall j s, (j, s) ∈ model_slacks problem -> c !!! j <> NaN) ->
  inside x ->
  inside (foldl (fun (v : vector) '(j, slack_index) => <[slack_index:=pushed (c !!! j) slack_index]> v)
            x (model_slacks problem)).
Proof.
  intros Hc Hx. apply foldl_invariant; [done|].
  intros v [j s] Hjs [Hlen Hv]. split; [by rewrite length_insert|].
  intros i Hi. destruct (decide (i = s)) as [->|Hne].
  - rewrite list_lookup_total_insert_eq by lia.
    apply pushed_inside; [done|]. by eapply Hc.
  - rewrite list_lookup_total_insert_ne by done. by apply Hv.
Qed.

Lemma initialize_interior :
  exists iterate,
    initialize least_square_multipliers this problem first_iterate = Some iterate /\
    interior_point_invariant problem iterate /\
    (forall i, i ∈ lower_bounded_variables problem ->
       lower_bounds (multipliers iterate) !!! i = default_multiplier this) /\
    (forall i, i ∈ upper_bounded_variables problem ->
       upper_bounds (multipliers iterate) !!! i = (- default_multiplier this)%D).
Proof.
  unfold initialize. rewrite bool_decide_eq_true_2 by done.
  set (it1 := evaluate_constraints problem first_iterate).
  assert (Hp1 : primals it1 = primals first_iterate)
    by (unfold it1, evaluate_constraints; by destruct (are_constraints_computed _)).
  assert (Hm1 : multipliers it1 = multipliers first_iterate)
    by (unfold it1, evaluate_constraints; by destruct (are_constraints_computed _)).
  rewrite (foldl_set_primal (fun i v => pushed v i)).
  set (it2 := set_primals it1 _).
  assert (Hin2 : inside (primals it2)) by (unfold it2; simpl; rewrite Hp1; apply first_loop_inside).
  set (it3 := if bool_decide (model_slacks problem <> []) then _ else it2).
  assert (H3 : inside (primals it3) /\ multipliers it3 = multipliers first_iterate).
  { unfold it3. case_bool_decide; [|by rewrite <- Hm1].
    assert (Heq : forall l it,
      foldl (fun (first_iterate0 : Iterate) '(j, slack_index) =>
               set_primal first_iterate0 slack_index
                 (push_variable_to_interior (parameters this)
                    (evaluations_constraints first_iterate0 !!! j)
                    (mkInterval (get_variable_lower_bound problem slack_index)
                       (get_variable_upper_bound problem slack_index)))) it l
      = set_primals it
          (foldl (fun (v : vector) '(j, slack_index) =>
                    <[slack_index:=pushed (evaluations_constraints it !!! j) slack_index]> v)
             (primals it) l)).
    { induction l as [|[j s] l IH]; intros it; simpl; [by destruct it|]. by rewrite IH. }
    rewrite Heq. simpl. split; [|by rewrite <- Hm1].
    apply slack_loop_inside; [|done]. intros j s Hjs. by apply Hslacks in Hjs as [_ ?]. }
  destruct H3 as [[Hlen3 Hin3] Hm3].
  rewrite foldl_set_lower_bound_multiplier. simpl.
  rewrite foldl_set_upper_bound_multiplier. simpl.
  rewrite Hm3.
  match goal with |- context [if is_constrained problem then Some ?a else Some ?b] =>
    assert (Hgoal : interior_point_invariant problem b /\
      (forall i, i ∈ lower_bounded_variables problem ->
         lower_bounds (multipliers b) !!! i = default_multiplier this) /\
      (forall i, i ∈ upper_bounded_variables problem ->
         upper_bounds (multipliers b) !!! i = (- default_multiplier this)%D))
  end.
  { simpl. destruct Hdual as [HzL HzU]. split; [split; [split|split]|split]; simpl.
    - intros i Hi. apply Hlower in Hi as [Hi Hfin]. by apply Hin3.
    - intros i Hi. apply Hupper in Hi as [Hi Hfin]. by apply Hin3.
    - by apply Forall_foldl_insert_const.
    - apply Forall_foldl_insert_const; [|done].
      by apply opp_nonpositive.
    - intros i Hi. destruct (foldl_insert_const (default_multiplier this)
        (lower_bounded_variables problem) (lower_bounds (multipliers first_iterate)) i) as [_ ->].
      rewrite decide_True; [done|]. split; [done|]. rewrite Hlength_lower. by apply Hlower.
    - intros i Hi. destruct (foldl_insert_const (- default_multiplier this)%D
        (upper_bounded_variables problem) (upper_bounds (multipliers first_iterate)) i) as [_ ->].
      rewrite decide_True; [done|]. split; [done|]. rewrite Hlength_upper. by apply Hupper. }
  destruct (is_constrained problem); eexists; (split; [reflexivity|]); [|done].
  destruct Hgoal as [[? [? ?]] [? ?]]. split; [split; [done|split; done]|split; done].
Qed.
End InitializeInvariant.

(** a loop that rewrites the entry at each index of a list by an
    idempotent function (indices may repeat) *)
Lemma foldl_insert_idempotent `{!Inhabited A} (g : nat -> A -> A) (l : list nat) (v : list A)
    (k : nat) :
  (forall i z, g i (g i z) = g i z) ->
  length (foldl (fun v i => <[i:=g i (v !!! i)]> v) v l) = length v /\
  foldl (fun v i => <[i:=g i (v !!! i)]> v) v l !!! k
  = if decide (k ∈ l /\ (k < length v)%nat) then g k (v !!! k) else v !!! k.
Proof.
  intros Hg. revert v. induction l as [|i l IH]; intros v; cbn [foldl].
  - split; [done|]. rewrite decide_False; [done|]. intros [H _]. by apply elem_of_nil in H.
  - destruct (IH (<[i:=g i (v !!! i)]> v)) as [IH1 IH2]. rewrite IH1, IH2, !length_insert.
    split; [done|].
    destruct (decide (k = i)) as [->|Hne].
    + destruct (decide (i < length v)%nat) as [Hlt|Hlt].
      * rewrite list_lookup_total_insert_eq by done.
        rewrite (decide_True (P := i ∈ i :: l /\ _)) by (split; [by left|done]).
        destruct (decide (i ∈ l /\ (i < length v)%nat)); [apply Hg|done].
      * rewrite list_insert_ge by lia.
        rewrite !decide_False; [done| |]; intros [_ ?]; lia.
    + rewrite !list_lookup_total_insert_ne by done.
      destruct (decide (k ∈ l /\ (k < length v)%nat)) as [[Hl Hk]|Hn].
      * rewrite decide_True; [done|]. split; [by right|done].
      * rewrite decide_False; [done|]. intros [H ?]. apply Hn. split; [|done].
        apply elem_of_cons in H as [?|?]; [done|done].
Qed.

(** ** Multiplier reset *)

Lemma clamp_idempotent lo hi z : clamp lo hi (clamp lo hi z) = clamp lo hi z.
Proof.
  unfold clamp. destruct (lo <=? hi)%D eqn:Hle; [|done].
  unfold Double.max, Double.min.
  destruct lo, hi, z; simpl in *; try done; dcases; try done; try (f_equal; lra); try lra.
Qed.

Lemma clamp_inside lo hi z :
  (lo <=? hi)%D = true -> z <> NaN ->
  (lo <=? clamp lo hi z)%D = true /\ (clamp lo hi z <=? hi)%D = true.
Proof.
  unfold clamp. intros Hle Hz. rewrite Hle. unfold Double.max, Double.min.
  destruct lo, hi, z; simpl in *; try done; dcases; try done; split; try done;
    try (apply bool_decide_eq_true; lra); dcases; try done; try lra.
Qed.

Lemma clamp_unchanged lo hi z :
  (lo <=? z)%D = true -> (z <=? hi)%D = true -> clamp lo hi z = z.
Proof.
  unfold clamp. intros H1 H2. destruct (lo <=? hi)%D; [|done]. unfold Double.max, Double.min.
  destruct lo, hi, z; simpl in *; try done; dcases; try done; try lra.
Qed.

(** [postprocess_iterate] as two loops over the vectors of bound multipliers *)
Lemma postprocess_iterate_multipliers (this : Subproblem) (problem : NonlinearProblem)
    (iterate : Iterate) :
  postprocess_iterate this problem iterate
  = set_multipliers iterate
      (mkMultipliers (constraints (multipliers iterate))
         (foldl (fun v i => <[i:=clamp_lower this problem (primals iterate) i (v !!! i)]> v)
            (lower_bounds (multipliers iterate)) (lower_bounded_variables problem))
         (foldl (fun v i => <[i:=clamp_upper this problem (primals iterate) i (v !!! i)]> v)
            (upper_bounds (multipliers iterate)) (upper_bounded_variables problem))).
Proof.
  unfold postprocess_iterate.
  assert (HL : forall l it,
    foldl (fun it i =>
             let coefficient :=
               (barrier_parameter this / (primals it !!! i - get_variable_lower_bound problem i))%D in
             let lb := (coefficient / k_sigma (parameters this))%D in
             let ub := (coefficient * k_sigma (parameters this))%D in
             if (lb <=? ub)%D then
               set_lower_bound_multiplier it i
                 (Double.max (Double.min (lower_bounds (multipliers it) !!! i) ub) lb)
             else it) it l
    = set_multipliers it
        (mkMultipliers (constraints (multipliers it))
           (foldl (fun v i => <[i:=clamp_lower this problem (primals it) i (v !!! i)]> v)
              (lower_bounds (multipliers it)) l)
           (upper_bounds (multipliers it)))).
  { induction l as [|i l IH]; intros it; cbn [foldl]; [by destruct it as [? [] ? ? ? ?]|].
    rewrite IH. unfold clamp_lower, clamp, lower_multiplier_interval. cbn [fst snd].
    cbv zeta. destruct (_ <=? _)%D; [done|].
    rewrite list_insert_id'; [done|]. intros Hi. by apply list_lookup_lookup_total_lt. }
  assert (HU : forall l it,
    foldl (fun it i =>
             let coefficient :=
               (barrier_parameter this / (primals it !!! i - get_variable_upper_bound problem i))%D in
             let lb := (coefficient * k_sigma (parameters this))%D in
             let ub := (coefficient / k_sigma (parameters this))%D in
             if (lb <=? ub)%D then
               set_upper_bound_multiplier it i
                 (Double.max (Double.min (upper_bounds (multipliers it) !!! i) ub) lb)
             else it) it l
    = set_multipliers it
        (mkMultipliers (constraints (multipliers it))
           (lower_bounds (multipliers it))
           (foldl (fun v i => <[i:=clamp_upper this problem (primals it) i (v !!! i)]> v)
              (upper_bounds (multipliers it)) l))).
  { induction l as [|i l IH]; intros it; cbn [foldl]; [by destruct it as [? [] ? ? ? ?]|].
    rewrite IH. unfold clamp_upper, clamp, upper_multiplier_interval. cbn [fst snd].
    cbv zeta. destruct (_ <=? _)%D; [done|].
    rewrite list_insert_id'; [done|]. intros Hi. by apply list_lookup_lookup_total_lt. }
  rewrite HL, HU. reflexivity.
Qed.

Section RealLemmas.
Local Open Scope R_scope.

Lemma Rdiv_nonneg (a b : R) : 0 <= a -> 0 < b -> 0 <= a / b.
Proof.
  intros Ha Hb. unfold Rdiv. apply Rmult_le_pos; [done|].
  left. by apply Rinv_0_lt_compat.
Qed.

Lemma Rdiv_nonpos (a b : R) : 0 <= a -> b < 0 -> a / b <= 0.
Proof.
  intros Ha Hb. replace (a / b) with (- (a / - b)) by (field; lra).
  pose proof (Rdiv_nonneg a (- b) Ha). lra.
Qed.

Lemma Rdiv_pos (a b : R) : 0 < a -> 0 < b -> 0 < a / b.
Proof.
  intros Ha Hb. unfold Rdiv. apply Rmult_lt_0_compat; [done|].
  by apply Rinv_0_lt_compat.
Qed.

Lemma Rdiv_le_mult (c k : R) : 0 <= c -> 1 <= k -> c / k <= c * k.
Proof.
  intros Hc Hk. unfold Rdiv.
  assert (/ k <= 1) by (rewrite <- Rinv_1; apply Rinv_le_contravar; lra).
  assert (0 < / k) by (apply Rinv_0_lt_compat; lra).
  nra.
Qed.

Lemma Rmult_le_div (c k : R) : c <= 0 -> 1 <= k -> c * k <= c / k.
Proof.
  intros Hc Hk. pose proof (Rdiv_le_mult (- c) k). 
  replace (- c / k) with (- (c / k)) in * by (field; lra). lra.
Qed.
End RealLemmas.

Lemma Forall_insert_total (P : double -> Prop) (g : double -> double) (v : vector) (i : nat) :
  (forall z, P z -> P (g z)) -> Forall P v -> Forall P (<[i:=g (v !!! i)]> v).
Proof.
  intros Hg Hv. destruct (decide (i < length v)%nat) as [Hi|Hi].
  - apply Forall_insert; [done|]. apply Hg.
    rewrite Forall_forall in Hv. apply Hv. by apply list_elem_of_lookup_total_2.
  - by rewrite list_insert_ge by lia.
Qed.

Section MultiplierReset.
Local Open Scope R_scope.
Variables (this : Subproblem) (problem : NonlinearProblem).
Variables mu ks : R.
Hypothesis Hmu : barrier_parameter this = Fin mu.
Hypothesis Hks : k_sigma (parameters this) = Fin ks.
Hypothesis Hmu_nonneg : 0 <= mu.

Lemma clamp_lower_nonnegative (x : vector) (i : nat) (z : double) :
  0 < ks ->
  (get_variable_lower_bound problem i <? x !!! i)%D = true ->
  (Double.zero <=? z)%D = true ->
  (Double.zero <=? clamp_lower this problem x i z)%D = true.
Proof.
  intros Hk Hx Hz.
  unfold clamp_lower, lower_multiplier_interval, clamp, Double.max, Double.min. cbn [fst snd].
  rewrite Hmu, Hks.
  destruct (get_variable_lower_bound problem i) as [| | |l], (x !!! i) as [| | |xi],
    z as [| | |z]; simpl in *; try done; dcases; try done.
  all: try (apply bool_decide_eq_true).
  all: try (assert (0 <= mu / (xi - l)) by (apply Rdiv_nonneg; lra)).
  all: try (assert (0 <= mu / (xi - l) / ks) by (apply Rdiv_nonneg; lra)).
  all: try (assert (0 <= 0 / ks) by (apply Rdiv_nonneg; lra)).
  all: try nra.
Qed.

Lemma clamp_upper_nonpositive (x : vector) (i : nat) (z : double) :
  0 < ks ->
  (x !!! i <? get_variable_upper_bound problem i)%D = true ->
  (z <=? Double.zero)%D = true ->
  (clamp_upper this problem x i z <=? Double.zero)%D = true.
Proof.
  intros Hk Hx Hz.
  unfold clamp_upper, upper_multiplier_interval, clamp, Double.max, Double.min. cbn [fst snd].
  rewrite Hmu, Hks.
  destruct (get_variable_upper_bound problem i) as [| | |u], (x !!! i) as [| | |xi],
    z as [| | |z]; simpl in *; try done; dcases; try done.
  all: try (apply bool_decide_eq_true).
  all: try (assert (mu / (xi - u) <= 0) by (apply Rdiv_nonpos; lra)).
  all: try (assert (0 <= - (mu / (xi - u)) / ks) by (apply Rdiv_nonneg; lra)).
  all: try (assert (0 <= 0 / ks) by (apply Rdiv_nonneg; lra)).
  all: try (replace (mu / (xi - u) / ks) with (- (- (mu / (xi - u)) / ks)) in * by (field; lra)).
  all: try nra.
Qed.

(** for a strictly interior point, a nonnegative barrier parameter and
    [k_sigma >= 1] the interval of Eq. 16 is not empty *)
Lemma lower_multiplier_interval_ordered (x : vector) (i : nat) :
  1 <= ks ->
  (get_variable_lower_bound problem i <? x !!! i)%D = true ->
  ((lower_multiplier_interval this problem x i).1
   <=? (lower_multiplier_interval this problem x i).2)%D = true.
Proof.
  intros Hk Hx. unfold lower_multiplier_interval. cbn [fst snd]. rewrite Hmu, Hks.
  destruct (get_variable_lower_bound problem i) as [| | |l], (x !!! i) as [| | |xi];
    simpl in *; try done; dcases; try done; try lra.
  all: match goal with H : ¬ (_ <= _) |- _ => exfalso; apply H end.
  all: apply Rdiv_le_mult; [|done]; try lra.
  apply Rdiv_nonneg; lra.
Qed.

Lemma upper_multiplier_interval_ordered (x : vector) (i : nat) :
  1 <= ks ->
  (x !!! i <? get_variable_upper_bound problem i)%D = true ->
  ((upper_multiplier_interval this problem x i).1
   <=? (upper_multiplier_interval this problem x i).2)%D = true.
Proof.
  intros Hk Hx. unfold upper_multiplier_interval. cbn [fst snd]. rewrite Hmu, Hks.
  destruct (get_variable_upper_bound problem i) as [| | |u], (x !!! i) as [| | |xi];
    simpl in *; try done; dcases; try done; try lra.
  all: match goal with H : ¬ (_ <= _) |- _ => exfalso; apply H end.
  all: apply Rmult_le_div; [|done]; try lra.
  apply Rdiv_nonpos; lra.
Qed.
End MultiplierReset.

(** [postprocess_iterate] keeps the interior-point invariant *)
Lemma postprocess_iterate_invariant (this : Subproblem) (problem : NonlinearProblem)
    (iterate : Iterate) (mu ks : R) :
  barrier_parameter this = Fin mu -> k_sigma (parameters this) = Fin ks ->
  (0 <= mu)%R -> (0 < ks)%R ->
  interior_point_invariant problem iterate ->
  interior_point_invariant problem (postprocess_iterate this problem iterate).
Proof.
  intros Hmu Hks Hmu0 Hks0 [[HxL HxU] [HzL HzU]].
  rewrite postprocess_iterate_multipliers.
  split; [done|]. split; simpl.
  - apply (foldl_invariant (Forall (fun z => (Double.zero <=? z)%D = true))); [done|].
    intros v i Hi Hv. apply (Forall_insert_total _ (clamp_lower this problem (primals iterate) i)); [|done].
    intros z Hz. eapply clamp_lower_nonnegative; eauto.
  - apply (foldl_invariant (Forall (fun z => (z <=? Double.zero)%D = true))); [done|].
    intros v i Hi Hv. apply (Forall_insert_total _ (clamp_upper this problem (primals iterate) i)); [|done].
    intros z Hz. eapply clamp_upper_nonpositive; eauto.
Qed.

(** ** C10 *)




(** ** C2 *)




(** ** C6 *)

(** C6: [postprocess_iterate] changes the bound multipliers only.  The
    multiplier [z_L_i] of a lower-bounded variable, when it is a number
    and the interval [[c / k_sigma, c * k_sigma]] with
    [c = mu / (x_i - x_L_i)] is not empty, ends inside this interval, and
    it is unchanged when it was inside already; likewise [z_U_i] and the
    interval [[c * k_sigma, c / k_sigma]] with [c = mu / (x_i - x_U_i)].
    The multipliers of the other variables are unchanged.  The intervals
    are not empty when the iterate is strictly interior, [mu >= 0] and
    [k_sigma >= 1]. *)
Theorem postprocess_iterate_multiplier_reset (this : Subproblem) (problem : NonlinearProblem)
    (iterate : Iterate) :
  let iterate' := postprocess_iterate this problem iterate in
  let zL := lower_bounds (multipliers iterate) in
  let zU := upper_bounds (multipliers iterate) in
  let zL' := lower_bounds (multipliers iterate') in
  let zU' := upper_bounds (multipliers iterate') in
  (primals iterate' = primals iterate
   /\ constraints (multipliers iterate') = constraints (multipliers iterate)
   /\ evaluations_constraints iterate' = evaluations_constraints iterate
   /\ is_objective_gradient_computed iterate' = is_objective_gradient_computed iterate
   /\ are_constraints_computed iterate' = are_constraints_computed iterate
   /\ is_constraint_jacobian_computed iterate' = is_constraint_jacobian_computed iterate
   /\ length zL' = length zL /\ length zU' = length zU)
  /\ (forall i, i ∈ lower_bounded_variables problem -> (i < length zL)%nat ->
        let lo := (lower_multiplier_interval this problem (primals iterate) i).1 in
        let hi := (lower_multiplier_interval this problem (primals iterate) i).2 in
        ((lo <=? hi)%D = true -> zL !!! i <> NaN ->
         (lo <=? zL' !!! i)%D = true /\ (zL' !!! i <=? hi)%D = true)
        /\ ((lo <=? zL !!! i)%D = true -> (zL !!! i <=? hi)%D = true -> zL' !!! i = zL !!! i))
  /\ (forall i, i ∈ upper_bounded_variables problem -> (i < length zU)%nat ->
        let lo := (upper_multiplier_interval this problem (primals iterate) i).1 in
        let hi := (upper_multiplier_interval this problem (primals iterate) i).2 in
        ((lo <=? hi)%D = true -> zU !!! i <> NaN ->
         (lo <=? zU' !!! i)%D = true /\ (zU' !!! i <=? hi)%D = true)
        /\ ((lo <=? zU !!! i)%D = true -> (zU !!! i <=? hi)%D = true -> zU' !!! i = zU !!! i))
  /\ (forall i, i ∉ lower_bounded_variables problem -> zL' !!! i = zL !!! i)
  /\ (forall i, i ∉ upper_bounded_variables problem -> zU' !!! i = zU !!! i)
  /\ (forall mu ks : R,
        barrier_parameter this = Fin mu -> k_sigma (parameters this) = Fin ks ->
        (0 <= mu)%R -> (1 <= ks)%R -> strictly_interior problem (primals iterate) ->
        (forall i, i ∈ lower_bounded_variables problem ->
           ((lower_multiplier_interval this problem (primals iterate) i).1
            <=? (lower_multiplier_interval this problem (primals iterate) i).2)%D = true)
        /\ (forall i, i ∈ upper_bounded_variables problem ->
              ((upper_multiplier_interval this problem (primals iterate) i).1
               <=? (upper_multiplier_interval this problem (primals iterate) i).2)%D = true)).
Proof.
  intros iterate' zL zU zL' zU'.
  pose proof (fun k => foldl_insert_idempotent
    (clamp_lower this problem (primals iterate)) (lower_bounded_variables problem) zL k
    (fun i z => clamp_idempotent _ _ z)) as HL.
  pose proof (fun k => foldl_insert_idempotent
    (clamp_upper this problem (primals iterate)) (upper_bounded_variables problem) zU k
    (fun i z => clamp_idempotent _ _ z)) as HU.
  subst zL' zU' iterate'. rewrite postprocess_iterate_multipliers. cbn [set_multipliers
    multipliers lower_bounds upper_bounds constraints primals evaluations_constraints
    is_objective_gradient_computed are_constraints_computed is_constraint_jacobian_computed].
  fold zL zU.
  split; [|split; [|split; [|split; [|split]]]].
  - repeat split; try done; [apply (HL 0%nat) | apply (HU 0%nat)].
  - intros i Hi Hlen. cbv zeta. destruct (HL i) as [_ ->]. rewrite decide_True by done.
    split.
    + intros Hle Hz. by apply clamp_inside.
    + intros H1 H2. by apply clamp_unchanged.
  - intros i Hi Hlen. cbv zeta. destruct (HU i) as [_ ->]. rewrite decide_True by done.
    split.
    + intros Hle Hz. by apply clamp_inside.
    + intros H1 H2. by apply clamp_unchanged.
  - intros i Hi. destruct (HL i) as [_ ->]. rewrite decide_False; [done|]. by intros [? _].
  - intros i Hi. destruct (HU i) as [_ ->]. rewrite decide_False; [done|]. by intros [? _].
  - intros mu ks Hmu Hks Hmu0 Hks1 [HxL HxU]. split; intros i Hi.
    + eapply lower_multiplier_interval_ordered; eauto.
    + eapply upper_multiplier_interval_ordered; eauto.
Qed.

(** with [mu = 1/10], [k_sigma = 10], bounds [0 <= x <= 10], [x = 5]:
    the intervals are [[1/500, 1/5]] and [[-1/5, -1/500]] *)
Lemma postprocess_iterate_multiplier_reset_witness :
  let iterate := one_variable_iterate 5 3 (- 3) in
  let iterate' :=
    postprocess_iterate (example_subproblem (1 / 100) (1 / 100)) (one_variable_problem 0 10) iterate in
  primals iterate' = primals iterate
  /\ (Fin (1 / 10 / (5 - 0) / 10) <=? lower_bounds (multipliers iterate') !!! 0%nat)%D = true
  /\ (lower_bounds (multipliers iterate') !!! 0%nat <=? Fin (1 / 10 / (5 - 0) * 10))%D = true.
Proof.
  intros iterate iterate'.
  destruct (postprocess_iterate_multiplier_reset (example_subproblem (1 / 100) (1 / 100))
              (one_variable_problem 0 10) iterate)
    as ((Hx & _) & HL & _ & _ & _ & Hordered).
  split; [exact Hx|].
  destruct (Hordered (1 / 10)%R 10%R eq_refl eq_refl) as [HoL _]; [lra | lra | |].
  { split; intros i Hi; apply list_elem_of_singleton in Hi as ->; cbn;
      apply bool_decide_eq_true; lra. }
  assert (Hin : 0%nat ∈ lower_bounded_variables (one_variable_problem 0 10)) by (by left).
  assert (Hinterval :
    lower_multiplier_interval (example_subproblem (1 / 100) (1 / 100))
      (one_variable_problem 0 10) (primals iterate) 0
    = (Fin (1 / 10 / (5 - 0) / 10), Fin (1 / 10 / (5 - 0) * 10))).
  { unfold lower_multiplier_interval. cbn. rewrite decide_False by lra. cbn. rewrite decide_False by lra. done. }
  destruct (HL 0%nat Hin) as [Hclamp _]; [cbn; lia|].
  specialize (Hclamp (HoL 0%nat Hin)). rewrite Hinterval in Hclamp.
  apply Hclamp. done.
Defined.

(** ** Fraction-to-boundary rule *)

Lemma fraction_step_spec guard trial (l : list nat) (a0 : R) :
  (0 < a0 <= 1)%R ->
  exists a : R,
    foldl (fraction_step guard trial) (Fin a0) l = Fin a
    /\ (0 < a <= a0)%R
    /\ forall i, i ∈ l -> guard i = true -> (Double.zero <? trial i)%D = true ->
         (Fin a <=? trial i)%D = true.
Proof.
  revert a0. induction l as [|i l IH]; intros a0 Ha0; cbn [foldl].
  - exists a0. split; [done|]. split; [lra|]. intros i Hi. by apply elem_of_nil in Hi.
  - assert (Hstep : exists a1 : R, fraction_step guard trial (Fin a0) i = Fin a1
        /\ (0 < a1 <= a0)%R
        /\ (guard i = true -> (Double.zero <? trial i)%D = true -> (Fin a1 <=? trial i)%D = true)).
    { unfold fraction_step, Double.min, Double.zero.
      destruct (guard i) eqn:Hg; [|exists a0; split; [done|]; split; [lra|done]].
      destruct (trial i) as [| | |t] eqn:Ht; simpl;
        try (exists a0; split; [done|]; split; [lra|done]).
      case_bool_decide as H0; [|exists a0; split; [done|]; split; [lra|done]].
      case_bool_decide as H1; [exists t|exists a0]; (split; [done|]); (split; [lra|]);
        intros _ _; apply bool_decide_eq_true; lra. }
    destruct Hstep as (a1 & -> & Ha1 & Hi).
    destruct (IH a1) as (a & Heq & Ha & Hl); [lra|].
    exists a. split; [done|]. split; [lra|].
    intros k Hk Hg Ht. apply elem_of_cons in Hk as [->|Hk]; [|by apply Hl].
    specialize (Hi Hg Ht). destruct (trial i); simpl in *; try done.
    apply bool_decide_eq_true. apply bool_decide_eq_true in Hi. lra.
Qed.

Section FractionToBoundary.
Variables (this : Subproblem) (problem : NonlinearProblem) (current_iterate : Iterate).
Variable tau : R.
Hypothesis Htau : (0 < tau)%R.

Let x i := primals current_iterate !!! i.
Let zL i := lower_bounds (multipliers current_iterate) !!! i.
Let zU i := upper_bounds (multipliers current_iterate) !!! i.

(** the primal step length is in (0, 1] and keeps the fraction [1 - tau]
    of the distance to each bound *)
Lemma primal_fraction_to_boundary_spec :
  (forall i, i ∈ lower_bounded_variables problem ->
     Double.is_finite (x i) = true
     /\ Double.is_finite (get_variable_lower_bound problem i) = true
     /\ Double.is_finite (solution this !!! i) = true
     /\ (get_variable_lower_bound problem i <? x i)%D = true) ->
  (forall i, i ∈ upper_bounded_variables problem ->
     Double.is_finite (x i) = true
     /\ Double.is_finite (get_variable_upper_bound problem i) = true
     /\ Double.is_finite (solution this !!! i) = true
     /\ (x i <? get_variable_upper_bound problem i)%D = true) ->
  exists alpha : R,
    primal_fraction_to_boundary this problem current_iterate (Fin tau) = Some (Fin alpha)
    /\ (0 < alpha <= 1)%R
    /\ (forall i, i ∈ lower_bounded_variables problem ->
          ((Double.one - Fin tau) * (x i - get_variable_lower_bound problem i)
           <=? x i + Fin alpha * solution this !!! i - get_variable_lower_bound problem i)%D = true)
    /\ (forall i, i ∈ upper_bounded_variables problem ->
          ((Double.one - Fin tau) * (get_variable_upper_bound problem i - x i)
           <=? get_variable_upper_bound problem i - (x i + Fin alpha * solution this !!! i))%D = true).
Proof.
  intros HL HU. unfold primal_fraction_to_boundary.
  destruct (fraction_step_spec
              (fun i => (solution this !!! i <? Double.zero)%D)
              (fun i => (- Fin tau * (x i - get_variable_lower_bound problem i)
                         / solution this !!! i)%D)
              (lower_bounded_variables problem) 1) as (a1 & Heq1 & Ha1 & H1); [lra|].
  destruct (fraction_step_spec
              (fun i => (Double.zero <? solution this !!! i)%D)
              (fun i => (- Fin tau * (x i - get_variable_upper_bound problem i)
                         / solution this !!! i)%D)
              (upper_bounded_variables problem) a1) as (a2 & Heq2 & Ha2 & H2); [lra|].
  unfold fraction_step in Heq1, Heq2. subst x. cbv beta in *.
  unfold Double.one. rewrite Heq1, Heq2. clear Heq1 Heq2.
  exists a2. simpl. rewrite !bool_decide_eq_true_2 by lra. simpl.
  split; [done|]. split; [lra|]. split.
  - intros i Hi. specialize (H1 i Hi). destruct (HL i Hi) as (Hx & Hl & Hs & Hlt).
    destruct (primals current_iterate !!! i) as [| | |xi]; try done.
    destruct (get_variable_lower_bound problem i) as [| | |l]; try done.
    destruct (solution this !!! i) as [| | |d]; try done.
    simpl in *. apply bool_decide_eq_true in Hlt. apply bool_decide_eq_true.
    destruct (decide (d < 0)%R) as [Hd|Hd]; [|nra].
    rewrite bool_decide_eq_true_2 in H1 by done.
    rewrite decide_False in H1 by lra. simpl in H1.
    assert (Ht : (0 < - tau * (xi - l) / d)%R).
    { replace (- tau * (xi - l) / d)%R with (tau * (xi - l) / - d)%R by (field; lra).
      apply Rdiv_pos; nra. }
    rewrite bool_decide_eq_true_2 in H1 by done.
    specialize (H1 eq_refl eq_refl). apply bool_decide_eq_true in H1.
    assert (a2 <= - tau * (xi - l) / d)%R by lra.
    assert (a2 * d >= - tau * (xi - l) / d * d)%R by nra.
    replace (- tau * (xi - l) / d * d)%R with (- tau * (xi - l))%R in * by (field; lra).
    lra.
  - intros i Hi. specialize (H2 i Hi). destruct (HU i Hi) as (Hx & Hu & Hs & Hlt).
    destruct (primals current_iterate !!! i) as [| | |xi]; try done.
    destruct (get_variable_upper_bound problem i) as [| | |u]; try done.
    destruct (solution this !!! i) as [| | |d]; try done.
    simpl in *. apply bool_decide_eq_true in Hlt. apply bool_decide_eq_true.
    destruct (decide (0 < d)%R) as [Hd|Hd]; [|nra].
    rewrite bool_decide_eq_true_2 in H2 by done.
    rewrite decide_False in H2 by lra. simpl in H2.
    assert (Ht : (0 < - tau * (xi - u) / d)%R).
    { replace (- tau * (xi - u) / d)%R with (tau * (u - xi) / d)%R by (field; lra).
      apply Rdiv_pos; nra. }
    rewrite bool_decide_eq_true_2 in H2 by done.
    specialize (H2 eq_refl eq_refl). apply bool_decide_eq_true in H2.
    assert (a2 * d <= - tau * (xi - u) / d * d)%R by nra.
    replace (- tau * (xi - u) / d * d)%R with (- tau * (xi - u))%R in * by (field; lra).
    lra.
Qed.

(** the dual step length is in (0, 1] and keeps the bound multipliers
    strictly on their side of 0 *)
Lemma dual_fraction_to_boundary_spec :
  (tau < 1)%R ->
  (forall i, i ∈ lower_bounded_variables problem ->
     Double.is_finite (zL i) = true
     /\ Double.is_finite (lower_delta_z this !!! i) = true
     /\ (Double.zero <? zL i)%D = true) ->
  (forall i, i ∈ upper_bounded_variables problem ->
     Double.is_finite (zU i) = true
     /\ Double.is_finite (upper_delta_z this !!! i) = true
     /\ (zU i <? Double.zero)%D = true) ->
  exists alpha : R,
    dual_fraction_to_boundary this problem current_iterate (Fin tau) = Some (Fin alpha)
    /\ (0 < alpha <= 1)%R
    /\ (forall i, i ∈ lower_bounded_variables problem ->
          (Double.zero <? zL i + Fin alpha * lower_delta_z this !!! i)%D = true)
    /\ (forall i, i ∈ upper_bounded_variables problem ->
          (zU i + Fin alpha * upper_delta_z this !!! i <? Double.zero)%D = true).
Proof.
  intros Htau1 HL HU. unfold dual_fraction_to_boundary.
  destruct (fraction_step_spec
              (fun i => (lower_delta_z this !!! i <? Double.zero)%D)
              (fun i => (- Fin tau * zL i / lower_delta_z this !!! i)%D)
              (lower_bounded_variables problem) 1) as (a1 & Heq1 & Ha1 & H1); [lra|].
  destruct (fraction_step_spec
              (fun i => (Double.zero <? upper_delta_z this !!! i)%D)
              (fun i => (- Fin tau * zU i / upper_delta_z this !!! i)%D)
              (upper_bounded_variables problem) a1) as (a2 & Heq2 & Ha2 & H2); [lra|].
  unfold fraction_step in Heq1, Heq2. subst zL zU. cbv beta in *.
  unfold Double.one. rewrite Heq1, Heq2. clear Heq1 Heq2.
  exists a2. simpl. rewrite !bool_decide_eq_true_2 by lra. simpl.
  split; [done|]. split; [lra|]. split.
  - intros i Hi. specialize (H1 i Hi). destruct (HL i Hi) as (Hz & Hd & Hlt).
    destruct (lower_bounds (multipliers current_iterate) !!! i) as [| | |z]; try done.
    destruct (lower_delta_z this !!! i) as [| | |d]; try done.
    simpl in *. apply bool_decide_eq_true in Hlt. apply bool_decide_eq_true.
    destruct (decide (d < 0)%R) as [Hneg|Hneg]; [|nra].
    rewrite bool_decide_eq_true_2 in H1 by done.
    rewrite decide_False in H1 by lra. simpl in H1.
    assert (Ht : (0 < - tau * z / d)%R).
    { replace (- tau * z / d)%R with (tau * z / - d)%R by (field; lra).
      apply Rdiv_pos; nra. }
    rewrite bool_decide_eq_true_2 in H1 by done.
    specialize (H1 eq_refl eq_refl). apply bool_decide_eq_true in H1.
    assert (a2 * d >= - tau * z / d * d)%R by nra.
    replace (- tau * z / d * d)%R with (- tau * z)%R in * by (field; lra).
    nra.
  - intros i Hi. specialize (H2 i Hi). destruct (HU i Hi) as (Hz & Hd & Hlt).
    destruct (upper_bounds (multipliers current_iterate) !!! i) as [| | |z]; try done.
    destruct (upper_delta_z this !!! i) as [| | |d]; try done.
    simpl in *. apply bool_decide_eq_true in Hlt. apply bool_decide_eq_true.
    destruct (decide (0 < d)%R) as [Hpos|Hpos]; [|nra].
    rewrite bool_decide_eq_true_2 in H2 by done.
    rewrite decide_False in H2 by lra. simpl in H2.
    assert (Ht : (0 < - tau * z / d)%R).
    { replace (- tau * z / d)%R with (tau * - z / d)%R by (field; lra).
      apply Rdiv_pos; nra. }
    rewrite bool_decide_eq_true_2 in H2 by done.
    specialize (H2 eq_refl eq_refl). apply bool_decide_eq_true in H2.
    assert (a2 * d <= - tau * z / d * d)%R by nra.
    replace (- tau * z / d * d)%R with (- tau * z)%R in * by (field; lra).
    nra.
Qed.
End FractionToBoundary.

(** ** Loops over a record *)

Section Projections.
Context {S T J : Type}.

(** a component that no iteration writes *)
Lemma foldl_frame (proj : S -> T) (step : S -> J -> S) (l : list J) (s : S) :
  (forall s j, proj (step s j) = proj s) -> proj (foldl step s l) = proj s.
Proof.
  intros H. revert s. induction l as [|j l IH]; intros s; simpl; [done|].
  by rewrite IH.
Qed.

(** a component that each iteration updates by [upd], as long as [inv]
    (a property of the other components) holds *)
Lemma foldl_component (proj : S -> T) (inv : S -> Prop) (upd : J -> T -> T)
    (step : S -> J -> S) (l : list J) (s : S) :
  inv s ->
  (forall s j, inv s -> inv (step s j) /\ proj (step s j) = upd j (proj s)) ->
  inv (foldl step s l) /\ proj (foldl step s l) = foldl (fun v j => upd j v) (proj s) l.
Proof.
  intros Hs H. revert s Hs. induction l as [|j l IH]; intros s Hs; simpl; [done|].
  destruct (H s j Hs) as [Hinv Heq]. destruct (IH _ Hinv) as [? ->]. by rewrite Heq.
Qed.
End Projections.

(** storing [f i] at each index [i] of a list *)
Lemma foldl_insert_from `{!Inhabited A} (f : nat -> A) (l : list nat) (v : list A) (k : nat) :
  length (foldl (fun v i => <[i:=f i]> v) v l) = length v /\
  foldl (fun v i => <[i:=f i]> v) v l !!! k
  = if decide (k ∈ l /\ (k < length v)%nat) then f k else v !!! k.
Proof.
  apply (foldl_insert_idempotent (fun i _ => f i)). done.
Qed.

Section BoundDualDirection.
Variables (this : Subproblem) (problem : NonlinearProblem) (current_iterate : Iterate).

Local Lemma lower_loop (l : list nat) (dzL dzU : vector) :
  (forall i, i ∈ l -> (i < length dzL)%nat /\ Double.is_finite (lower_displacement this problem current_iterate i) = true) ->
  foldl (fun (acc : option Subproblem) i =>
           this ← acc;
           let distance_to_bound :=
             (primals current_iterate !!! i - get_variable_lower_bound problem i)%D in
           let dz :=
             ((barrier_parameter this
               - solution this !!! i * lower_bounds (multipliers current_iterate) !!! i)
              / distance_to_bound
              - lower_bounds (multipliers current_iterate) !!! i)%D in
           let this := set_lower_delta_z this (<[i:=dz]> (lower_delta_z this)) in
           if Double.is_finite (lower_delta_z this !!! i) then Some this else None)
        (Some (with_delta_z this dzL dzU)) l
  = Some (with_delta_z this (foldl (fun v i => <[i:=lower_displacement this problem current_iterate i]> v) dzL l) dzU).
Proof.
  revert dzL. induction l as [|i l IH]; intros dzL Hl; cbn [foldl]; [done|].
  destruct (Hl i) as [Hi Hfin]; [by left|].
  cbn [mbind option_bind with_delta_z set_upper_delta_z set_lower_delta_z lower_delta_z
       barrier_parameter solution]. cbv zeta.
  cbn [lower_delta_z]. rewrite list_lookup_total_insert_eq by done.
  fold (lower_displacement this problem current_iterate i). rewrite Hfin.
  rewrite <- IH; [done|]. intros k Hk. rewrite length_insert. apply Hl. by right.
Qed.

Local Lemma upper_loop (l : list nat) (dzL dzU : vector) :
  (forall i, i ∈ l -> (i < length dzU)%nat /\ Double.is_finite (upper_displacement this problem current_iterate i) = true) ->
  foldl (fun (acc : option Subproblem) i =>
           this ← acc;
           let distance_to_bound :=
             (primals current_iterate !!! i - get_variable_upper_bound problem i)%D in
           let dz :=
             ((barrier_parameter this
               - solution this !!! i * upper_bounds (multipliers current_iterate) !!! i)
              / distance_to_bound
              - upper_bounds (multipliers current_iterate) !!! i)%D in
           let this := set_upper_delta_z this (<[i:=dz]> (upper_delta_z this)) in
           if Double.is_finite (upper_delta_z this !!! i) then Some this else None)
        (Some (with_delta_z this dzL dzU)) l
  = Some (with_delta_z this dzL (foldl (fun v i => <[i:=upper_displacement this problem current_iterate i]> v) dzU l)).
Proof.
  revert dzU. induction l as [|i l IH]; intros dzU Hl; cbn [foldl]; [done|].
  destruct (Hl i) as [Hi Hfin]; [by left|].
  cbn [mbind option_bind with_delta_z set_upper_delta_z set_lower_delta_z upper_delta_z
       barrier_parameter solution]. cbv zeta.
  cbn [upper_delta_z]. rewrite list_lookup_total_insert_eq by done.
  fold (upper_displacement this problem current_iterate i). rewrite Hfin.
  rewrite <- IH; [done|]. intros k Hk. rewrite length_insert. apply Hl. by right.
Qed.

(** [compute_bound_dual_direction] succeeds when every displacement is
    finite, and writes the two vectors of displacements only *)
Lemma compute_bound_dual_direction_spec :
  (forall i, i ∈ lower_bounded_variables problem ->
     (i < length (lower_delta_z this))%nat
     /\ Double.is_finite (lower_displacement this problem current_iterate i) = true) ->
  (forall i, i ∈ upper_bounded_variables problem ->
     (i < length (upper_delta_z this))%nat
     /\ Double.is_finite (upper_displacement this problem current_iterate i) = true) ->
  compute_bound_dual_direction this problem current_iterate
  = Some (with_delta_z this
            (foldl (fun v i => <[i:=lower_displacement this problem current_iterate i]> v)
               (replicate (length (lower_delta_z this)) Double.zero)
               (lower_bounded_variables problem))
            (foldl (fun v i => <[i:=upper_displacement this problem current_iterate i]> v)
               (replicate (length (upper_delta_z this)) Double.zero)
               (upper_bounded_variables problem))).
Proof.
  intros HL HU. unfold compute_bound_dual_direction, initialize_vector.
  change (set_upper_delta_z (set_lower_delta_z this ?a) (replicate ?n ?z))
    with (with_delta_z this a (replicate n z)).
  cbn [upper_delta_z set_lower_delta_z].
  rewrite lower_loop by (intros i Hi; rewrite length_replicate; by apply HL).
  cbn [mbind option_bind].
  rewrite upper_loop by (intros i Hi; rewrite length_replicate; by apply HU).
  done.
Qed.
End BoundDualDirection.

Lemma displacement_finite (mu d z xi b : double) :
  Double.is_finite mu = true -> Double.is_finite d = true -> Double.is_finite z = true ->
  Double.is_finite xi = true -> Double.is_finite b = true ->
  (b <? xi)%D = true \/ (xi <? b)%D = true ->
  Double.is_finite ((mu - d * z) / (xi - b) - z)%D = true.
Proof.
  destruct mu, d, z, xi, b; try done. simpl. intros _ _ _ _ _ H.
  rewrite decide_False; [done|].
  destruct H as [H|H]; apply bool_decide_eq_true in H; lra.
Qed.

Section PrimalDualDirection.
Variable quadratic_product : vector -> vector -> double.
Variables (this : Subproblem) (problem : NonlinearProblem) (current_iterate : Iterate).
Variables tmin mu : R.
Hypothesis Htmin : tau_min (parameters this) = Fin tmin.
Hypothesis Hmu : barrier_parameter this = Fin mu.
Hypothesis Htmin_range : (0 < tmin < 1)%R.
Hypothesis Hmu_pos : (0 < mu)%R.

Local Abbreviation n := (number_variables problem).
Let x i := primals current_iterate !!! i.
Let zL i := lower_bounds (multipliers current_iterate) !!! i.
Let zU i := upper_bounds (multipliers current_iterate) !!! i.
Let tau := Double.max (tau_min (parameters this)) (Double.one - barrier_parameter this)%D.

Hypothesis Hsolution : (n <= length (solution this))%nat.
Hypothesis Hlower_delta_z : (n <= length (lower_delta_z this))%nat.
Hypothesis Hupper_delta_z : (n <= length (upper_delta_z this))%nat.
Hypothesis Hdirection_primals : (n <= length (direction_primals (direction this)))%nat.
Hypothesis Hdirection_lower :
  (n <= length (lower_bounds (direction_multipliers (direction this))))%nat.
Hypothesis Hdirection_upper :
  (n <= length (upper_bounds (direction_multipliers (direction this))))%nat.
Hypothesis Hlower : forall i, i ∈ lower_bounded_variables problem ->
  (i < n)%nat
  /\ Double.is_finite (x i) = true
  /\ Double.is_finite (get_variable_lower_bound problem i) = true
  /\ Double.is_finite (solution this !!! i) = true
  /\ Double.is_finite (zL i) = true
  /\ (get_variable_lower_bound problem i <? x i)%D = true
  /\ (Double.zero <? zL i)%D = true.
Hypothesis Hupper : forall i, i ∈ upper_bounded_variables problem ->
  (i < n)%nat
  /\ Double.is_finite (x i) = true
  /\ Double.is_finite (get_variable_upper_bound problem i) = true
  /\ Double.is_finite (solution this !!! i) = true
  /\ Double.is_finite (zU i) = true
  /\ (x i <? get_variable_upper_bound problem i)%D = true
  /\ (zU i <? Double.zero)%D = true.

Local Lemma tau_value : exists t : R, tau = Fin t /\ (0 < t < 1)%R.
Proof.
  unfold tau, Double.max. rewrite Htmin, Hmu. simpl.
  case_bool_decide; eexists; (split; [reflexivity|lra]).
Qed.

Lemma generate_primal_dual_direction_spec :
  exists (this' : Subproblem) (alpha_primal alpha_dual : R),
    generate_primal_dual_direction quadratic_product this problem current_iterate = Some this'
    /\ primal_dual_step_length (direction this') = Fin alpha_primal
    /\ bound_dual_step_length (direction this') = Fin alpha_dual
    /\ (0 < alpha_primal <= 1)%R
    /\ (0 < alpha_dual <= 1)%R
    /\ (forall i, i ∈ lower_bounded_variables problem ->
          direction_primals (direction this') !!! i = solution this !!! i
          /\ ((Double.one - tau) * (x i - get_variable_lower_bound problem i)
              <=? x i + Fin alpha_primal * direction_primals (direction this') !!! i
                  - get_variable_lower_bound problem i)%D = true
          /\ (Double.zero
              <? zL i + Fin alpha_dual
                        * lower_bounds (direction_multipliers (direction this')) !!! i)%D = true)
    /\ (forall i, i ∈ upper_bounded_variables problem ->
          direction_primals (direction this') !!! i = solution this !!! i
          /\ ((Double.one - tau) * (get_variable_upper_bound problem i - x i)
              <=? get_variable_upper_bound problem i
                  - (x i + Fin alpha_primal * direction_primals (direction this') !!! i))%D = true
          /\ (zU i + Fin alpha_dual
                     * upper_bounds (direction_multipliers (direction this')) !!! i
              <? Double.zero)%D = true).
Proof.
  destruct tau_value as (t & Htau & Ht).
  unfold generate_primal_dual_direction.
  set (s0 := set_direction this _).
  set (neg := fun (this0 : Subproblem) (j : nat) =>
                set_solution this0 (<[j:=(- solution this0 !!! j)%D]> (solution this0))).
  set (s1 := foldl neg s0 _).
  (* the components after the change of sign of the constraint part *)
  assert (Hpar1 : parameters s1 = parameters this)
    by (unfold s1; by rewrite (foldl_frame parameters)).
  assert (Hbar1 : barrier_parameter s1 = barrier_parameter this)
    by (unfold s1; by rewrite (foldl_frame barrier_parameter)).
  assert (HdzL1 : lower_delta_z s1 = lower_delta_z this)
    by (unfold s1; by rewrite (foldl_frame lower_delta_z)).
  assert (HdzU1 : upper_delta_z s1 = upper_delta_z this)
    by (unfold s1; by rewrite (foldl_frame upper_delta_z)).
  assert (Hdir1 : direction s1 = direction s0)
    by (unfold s1; by rewrite (foldl_frame direction)).
  assert (Hsol1 : forall i, (i < n)%nat -> solution s1 !!! i = solution this !!! i).
  { intros i Hi.
    destruct (foldl_component solution (fun _ => True) (fun j v => <[j:=(- v !!! j)%D]> v) neg
                (seq n (length (solution s0) - n)) s0 I) as [_ Heq]; [done|].
    unfold s1. rewrite Heq.
    destruct (foldl_insert_pointwise (fun _ a => (- a)%D) (seq n (length (solution s0) - n))
                (solution s0) i (NoDup_seq _ _)) as [_ ->].
    rewrite decide_False; [done|]. intros [Hin _]. apply elem_of_seq in Hin. lia. }
  rewrite Hpar1, Hbar1. fold tau. rewrite Htau.
  (* primal step length *)
  destruct (primal_fraction_to_boundary_spec s1 problem current_iterate t) as
    (ap & -> & Hap & HpL & HpU); [lra | | |].
  { intros i Hi. destruct (Hlower i Hi) as (? & ? & ? & ? & ? & ? & ?).
    rewrite Hsol1 by done. done. }
  { intros i Hi. destruct (Hupper i Hi) as (? & ? & ? & ? & ? & ? & ?).
    rewrite Hsol1 by done. done. }
  cbn [mbind option_bind].
  set (prim := fun (this0 : Subproblem) (i : nat) =>
                 set_direction this0
                   (set_direction_primal (direction this0) i (solution this0 !!! i))).
  set (s2 := foldl prim s1 _).
  set (cons := fun (this0 : Subproblem) (j : nat) =>
                 set_direction this0
                   (set_direction_multipliers (direction this0)
                      (mkMultipliers
                         (<[j:=solution this0 !!! (number_variables problem + j)%nat]>
                            (constraints (direction_multipliers (direction this0))))
                         (lower_bounds (direction_multipliers (direction this0)))
                         (upper_bounds (direction_multipliers (direction this0)))))).
  set (s3 := foldl cons s2 _).
  assert (Hsol3 : solution s3 = solution s1).
  { unfold s3. rewrite (foldl_frame solution) by done. unfold s2. by rewrite (foldl_frame solution). }
  assert (Hbar3 : barrier_parameter s3 = barrier_parameter this).
  { unfold s3. rewrite (foldl_frame barrier_parameter) by done.
    unfold s2. by rewrite (foldl_frame barrier_parameter). }
  assert (HdzL3 : lower_delta_z s3 = lower_delta_z this).
  { unfold s3. rewrite (foldl_frame lower_delta_z) by done.
    unfold s2. by rewrite (foldl_frame lower_delta_z). }
  assert (HdzU3 : upper_delta_z s3 = upper_delta_z this).
  { unfold s3. rewrite (foldl_frame upper_delta_z) by done.
    unfold s2. by rewrite (foldl_frame upper_delta_z). }
  assert (Hprim3 : forall i, (i < n)%nat ->
            direction_primals (direction s3) !!! i = solution this !!! i).
  { intros i Hi. unfold s3.
    rewrite (foldl_frame (fun s => direction_primals (direction s))) by done.
    destruct (foldl_component (fun s => direction_primals (direction s))
                (fun s => solution s = solution s1)
                (fun i v => <[i:=solution s1 !!! i]> v) prim (seq 0 n) s1 eq_refl)
      as [_ Heq].
    { intros s i0 Hs. split; [done|]. cbn. by rewrite Hs. }
    unfold s2. rewrite Heq.
    destruct (foldl_insert_from (fun i => solution s1 !!! i) (seq 0 n)
                (direction_primals (direction s1)) i) as [_ ->].
    rewrite decide_True; [by apply Hsol1|].
    split; [apply elem_of_seq; lia|]. rewrite Hdir1. cbn. lia. }
  assert (Hmult3 : lower_bounds (direction_multipliers (direction s3))
                   = lower_bounds (direction_multipliers (direction this))
                   /\ upper_bounds (direction_multipliers (direction s3))
                      = upper_bounds (direction_multipliers (direction this))).
  { unfold s3.
    rewrite (foldl_frame (fun s => lower_bounds (direction_multipliers (direction s)))) by done.
    rewrite (foldl_frame (fun s => upper_bounds (direction_multipliers (direction s)))) by done.
    unfold s2.
    rewrite (foldl_frame (fun s => lower_bounds (direction_multipliers (direction s)))) by done.
    rewrite (foldl_frame (fun s => upper_bounds (direction_multipliers (direction s)))) by done.
    by rewrite Hdir1. }
  destruct Hmult3 as [HmL3 HmU3].
  (* displacements of the bound multipliers *)
  assert (HfinL : forall i, i ∈ lower_bounded_variables problem ->
            Double.is_finite (lower_displacement s3 problem current_iterate i) = true).
  { intros i Hi. destruct (Hlower i Hi) as (? & ? & ? & ? & ? & ? & ?).
    unfold lower_displacement. rewrite Hbar3, Hmu, Hsol3, Hsol1 by done.
    apply displacement_finite; try done. by left. }
  assert (HfinU : forall i, i ∈ upper_bounded_variables problem ->
            Double.is_finite (upper_displacement s3 problem current_iterate i) = true).
  { intros i Hi. destruct (Hupper i Hi) as (? & ? & ? & ? & ? & ? & ?).
    unfold upper_displacement. rewrite Hbar3, Hmu, Hsol3, Hsol1 by done.
    apply displacement_finite; try done. by right. }
  rewrite compute_bound_dual_direction_spec; cycle 1.
  { intros i Hi. split; [|by apply HfinL]. rewrite HdzL3. destruct (Hlower i Hi). lia. }
  { intros i Hi. split; [|by apply HfinU]. rewrite HdzU3. destruct (Hupper i Hi). lia. }
  cbn [mbind option_bind].
  set (s4 := with_delta_z s3 _ _).
  assert (HdzL4 : forall i, i ∈ lower_bounded_variables problem ->
            lower_delta_z s4 !!! i = lower_displacement s3 problem current_iterate i).
  { intros i Hi. cbn.
    match goal with |- foldl _ ?v ?l !!! _ = _ =>
      destruct (foldl_insert_from (lower_displacement s3 problem current_iterate) l v i)
        as [_ ->] end.
    rewrite decide_True; [done|]. split; [done|]. rewrite length_replicate, HdzL3.
    destruct (Hlower i Hi). lia. }
  assert (HdzU4 : forall i, i ∈ upper_bounded_variables problem ->
            upper_delta_z s4 !!! i = upper_displacement s3 problem current_iterate i).
  { intros i Hi. cbn.
    match goal with |- foldl _ ?v ?l !!! _ = _ =>
      destruct (foldl_insert_from (upper_displacement s3 problem current_iterate) l v i)
        as [_ ->] end.
    rewrite decide_True; [done|]. split; [done|]. rewrite length_replicate, HdzU3.
    destruct (Hupper i Hi). lia. }
  (* dual step length *)
  destruct (dual_fraction_to_boundary_spec s4 problem current_iterate t) as
    (ad & -> & Had & HdL & HdU); [lra | lra | | |].
  { intros i Hi. destruct (Hlower i Hi) as (? & ? & ? & ? & ? & ? & ?).
    rewrite HdzL4 by done. split; [done|]. split; [by apply HfinL|done]. }
  { intros i Hi. destruct (Hupper i Hi) as (? & ? & ? & ? & ? & ? & ?).
    rewrite HdzU4 by done. split; [done|]. split; [by apply HfinU|done]. }
  cbn [mbind option_bind].
  set (fin := fun (this0 : Subproblem) (i : nat) =>
                set_direction this0
                  (set_direction_multipliers (direction this0)
                     (mkMultipliers (constraints (direction_multipliers (direction this0)))
                        (<[i:=lower_delta_z this0 !!! i]>
                           (lower_bounds (direction_multipliers (direction this0))))
                        (<[i:=upper_delta_z this0 !!! i]>
                           (upper_bounds (direction_multipliers (direction this0))))))).
  set (s5 := foldl fin s4 _).
  assert (Hprim5 : direction_primals (direction s5) = direction_primals (direction s3)).
  { unfold s5. by rewrite (foldl_frame (fun s => direction_primals (direction s))). }
  assert (HL5 : forall i, (i < n)%nat ->
            lower_bounds (direction_multipliers (direction s5)) !!! i = lower_delta_z s4 !!! i).
  { intros i Hi.
    destruct (foldl_component (fun s => lower_bounds (direction_multipliers (direction s)))
                (fun s => lower_delta_z s = lower_delta_z s4)
                (fun i v => <[i:=lower_delta_z s4 !!! i]> v) fin (seq 0 n) s4 eq_refl)
      as [_ Heq].
    { intros s i0 Hs. split; [done|]. cbn. by rewrite Hs. }
    unfold s5. rewrite Heq.
    destruct (foldl_insert_from (fun i => lower_delta_z s4 !!! i) (seq 0 n)
                (lower_bounds (direction_multipliers (direction s4))) i) as [_ ->].
    rewrite decide_True; [done|]. split; [apply elem_of_seq; lia|].
    change (direction s4) with (direction s3). rewrite HmL3. lia. }
  assert (HU5 : forall i, (i < n)%nat ->
            upper_bounds (direction_multipliers (direction s5)) !!! i = upper_delta_z s4 !!! i).
  { intros i Hi.
    destruct (foldl_component (fun s => upper_bounds (direction_multipliers (direction s)))
                (fun s => upper_delta_z s = upper_delta_z s4)
                (fun i v => <[i:=upper_delta_z s4 !!! i]> v) fin (seq 0 n) s4 eq_refl)
      as [_ Heq].
    { intros s i0 Hs. split; [done|]. cbn. by rewrite Hs. }
    unfold s5. rewrite Heq.
    destruct (foldl_insert_from (fun i => upper_delta_z s4 !!! i) (seq 0 n)
                (upper_bounds (direction_multipliers (direction s4))) i) as [_ ->].
    rewrite decide_True; [done|]. split; [apply elem_of_seq; lia|].
    change (direction s4) with (direction s3). rewrite HmU3. lia. }
  eexists _, ap, ad. split; [reflexivity|].
  cbn [direction set_direction primal_dual_step_length bound_dual_step_length
       direction_primals direction_multipliers].
  split; [done|]. split; [done|]. split; [done|]. split; [done|].
  rewrite Hprim5. split.
  - intros i Hi. destruct (Hlower i Hi) as (Hin & _).
    rewrite Hprim3, HL5 by done. split; [done|]. split.
    + rewrite <- (Hsol1 i Hin). by apply HpL.
    + by apply HdL.
  - intros i Hi. destruct (Hupper i Hi) as (Hin & _).
    rewrite Hprim3, HU5 by done. split; [done|]. split.
    + rewrite <- (Hsol1 i Hin). by apply HpU.
    + by apply HdU.
Qed.
End PrimalDualDirection.

(** ** C1 *)



(** ** C3 *)

(** [relax_variable_bounds] changes neither the subproblem nor the
    problem, so no bound is relaxed, whatever the distance of the iterate
    to its bounds. *)
Lemma relax_variable_bounds_changes_nothing (this : Subproblem) (problem : NonlinearProblem)
    (current_iterate : Iterate) :
  relax_variable_bounds this problem current_iterate = (this, problem).
Proof.
  unfold relax_variable_bounds.
  apply (foldl_invariant (fun state => state = (this, problem))).
  - apply (foldl_invariant (fun state => state = (this, problem))); [done|].
    intros state i _ ->. by destruct (_ <? _)%D.
  - intros state i _ ->. by destruct (_ <? _)%D.
Qed.

(** C3 (the code, at an input of the claim): an iterate at distance
    [10^-18] of its lower bound 0, closer than [machine_epsilon * mu] for
    [mu = 1/10]; after [relax_variable_bounds] the lower bound is still 0,
    not [0 - max(1, |0|) * machine_epsilon^(3/4)]. *)
Theorem relax_variable_bounds_too_close :
  let this := example_subproblem (1 / 100) (1 / 100) in
  let problem := one_variable_problem 0 10 in
  let current_iterate := one_variable_iterate (/ 10 ^ 18) 1 (- 1) in
  (primals current_iterate !!! 0%nat - get_variable_lower_bound problem 0
   <? machine_epsilon * barrier_parameter this)%D = true
  /\ get_variable_lower_bound (relax_variable_bounds this problem current_iterate).2 0 = Fin 0.
Proof.
  intros this problem current_iterate. split.
  - cbn -[pow]. apply bool_decide_eq_true.
    assert (H : (2 ^ 52 * 10 < 10 ^ 18)%R).
    { rewrite !pow_IZR, <- mult_IZR. apply IZR_lt. reflexivity. }
    assert (H2 : (0 < 2 ^ 52)%R) by (apply pow_lt; lra).
    assert (H10 : (0 < 10 ^ 18)%R) by (apply pow_lt; lra).
    replace (/ 2 ^ 52 * (1 / 10))%R with (/ (2 ^ 52 * 10))%R by (field; lra).
    rewrite Rminus_0_r. apply Rinv_lt_contravar; [nra|done].
  - by rewrite relax_variable_bounds_changes_nothing.
Qed.

(** ** Feasibility problem *)

(** the infinity norm of a vector of finite values *)
Lemma norm_inf_finite (v : vector) :
  Forall (fun c => Double.is_finite c = true) v ->
  exists m : R,
    norm_inf v = Fin m
    /\ (0 <= m)%R
    /\ (forall c : R, Fin c ∈ v -> (Rabs c <= m)%R)
    /\ (m = 0%R \/ exists c : R, Fin c ∈ v /\ m = Rabs c).
Proof.
  unfold norm_inf. intros Hv.
  enough (H : forall (m0 : R), (0 <= m0)%R ->
    exists m : R,
      foldl (fun norm a => Double.max norm (Double.abs a)) (Fin m0) v = Fin m
      /\ (m0 <= m)%R
      /\ (forall c : R, Fin c ∈ v -> (Rabs c <= m)%R)
      /\ (m = m0 \/ exists c : R, Fin c ∈ v /\ m = Rabs c)).
  { destruct (H 0%R) as (m & ? & ? & ? & ?); [lra|]. exists m. by repeat split. }
  induction Hv as [|a v Ha Hv IH]; intros m0 Hm0; cbn [foldl].
  - exists m0. split; [done|]. split; [lra|]. split; [|by left].
    intros c Hc. by apply elem_of_nil in Hc.
  - destruct a as [| | |a]; try done. unfold Double.max at 2. cbn [Double.abs Double.ltb].
    pose proof (Rabs_pos a) as Hpos.
    case_bool_decide as Hlt.
    + destruct (IH (Rabs a)) as (m & Heq & Hle & Hall & Hex); [done|].
      exists m. split; [done|]. split; [lra|]. split.
      * intros c Hc. apply elem_of_cons in Hc as [Hc|Hc]; [|by apply Hall].
        injection Hc as ->. done.
      * right. destruct Hex as [->|(c & Hc & ->)].
        -- exists a. split; [by left|done].
        -- exists c. split; [by right|done].
    + destruct (IH m0) as (m & Heq & Hle & Hall & Hex); [done|].
      exists m. split; [done|]. split; [lra|]. split.
      * intros c Hc. apply elem_of_cons in Hc as [Hc|Hc]; [|by apply Hall].
        injection Hc as ->. lra.
      * destruct Hex as [->|(c & Hc & ->)]; [by left|].
        right. exists c. split; [by right|done].
Qed.

Section RealSqrt.
Local Open Scope R_scope.

(** the closed form of an elastic variable is strictly positive *)
Lemma elastic_value_positive (mu c s : R) :
  0 < mu -> s = 1 \/ s = -1 -> 0 < (mu - s * c + sqrt (c * c + mu * mu)) / 2.
Proof.
  intros Hmu Hs.
  assert (Hc : Rabs c <= sqrt (c * c + mu * mu)).
  { rewrite <- (sqrt_Rsqr_abs c). apply sqrt_le_1_alt. unfold Rsqr. nra. }
  assert (s * c <= Rabs c).
  { destruct Hs as [-> | ->].
    - rewrite Rmult_1_l. apply Rle_abs.
    - replace (-1 * c) with (- c) by ring. rewrite <- Rabs_Ropp. apply Rle_abs. }
  lra.
Qed.
End RealSqrt.

Section ElasticVariables.
Variables (this : Subproblem) (mu : R).
Hypothesis Hmu : barrier_parameter this = Fin mu.
Hypothesis Hmu_pos : (0 < mu)%R.

Lemma elastic_setting_function_spec (iterate : Iterate) (j e : nat) (c s : R) :
  constraint_values this !!! j = Fin c ->
  s = 1%R \/ s = (-1)%R ->
  (e < length (primals iterate))%nat ->
  (e < length (lower_bounds (multipliers iterate)))%nat ->
  elastic_setting_function this (barrier_parameter this) iterate j e (Fin s)
  = Some (set_lower_bound_multiplier
            (set_primal iterate e (Fin (elastic_value mu c s))) e
            (Fin (mu / elastic_value mu c s))).
Proof.
  intros Hc Hs He1 He2. unfold elastic_setting_function. rewrite Hc, Hmu.
  pose proof (elastic_value_positive mu c s Hmu_pos Hs) as Hpos. fold (elastic_value mu c s) in Hpos.
  unfold Double.two, Double.zero, pow2.
  cbn [Double.mul Double.add Double.sqrt Double.sub Double.div].
  rewrite (decide_False (P := (c * c + mu * mu < 0)%R)) by nra.
  cbn [Double.add Double.div]. rewrite (decide_False (P := (2 = 0)%R)) by lra.
  fold (elastic_value mu c s).
  cbn [set_primal set_primals primals set_lower_bound_multiplier set_multipliers
       multipliers lower_bounds].
  rewrite !list_lookup_total_insert_eq by done.
  cbn [Double.div]. rewrite (decide_False (P := (elastic_value mu c s = 0)%R)) by lra.
  cbn [Double.ltb].
  rewrite !bool_decide_eq_true_2; [done| |done].
  apply Rdiv_pos; lra.
Qed.
End ElasticVariables.

Section ElasticLoop.
Variables (this : Subproblem) (mu : R).
Hypothesis Hmu : barrier_parameter this = Fin mu.
Hypothesis Hmu_pos : (0 < mu)%R.

Lemma elastic_loop (l : list (nat * nat * double)) (iterate : Iterate) :
  NoDup (l.*1.*2) ->
  Forall (elastic_well_formed this iterate) l ->
  exists iterate',
    foldl (fun (acc : option Iterate) '(j, elastic_index, jacobian_coefficient) =>
             iterate ← acc;
             elastic_setting_function this (barrier_parameter this) iterate j elastic_index
               jacobian_coefficient)
          (Some iterate) l = Some iterate'
    /\ length (primals iterate') = length (primals iterate)
    /\ length (lower_bounds (multipliers iterate')) = length (lower_bounds (multipliers iterate))
    /\ (forall j e (c s : R), (j, e, Fin s) ∈ l -> constraint_values this !!! j = Fin c ->
          primals iterate' !!! e = Fin (elastic_value mu c s)
          /\ lower_bounds (multipliers iterate') !!! e = Fin (mu / elastic_value mu c s))
    /\ (forall k, k ∉ l.*1.*2 ->
          primals iterate' !!! k = primals iterate !!! k
          /\ lower_bounds (multipliers iterate') !!! k
             = lower_bounds (multipliers iterate) !!! k)
    /\ upper_bounds (multipliers iterate') = upper_bounds (multipliers iterate)
    /\ constraints (multipliers iterate') = constraints (multipliers iterate).
Proof.
  revert iterate. induction l as [|[[j e] coefficient] l IH]; intros iterate Hnd Hwf.
  - exists iterate. cbn [foldl]. split; [done|]. split; [done|]. split; [done|].
    split; [|done]. intros j e c s H. by apply elem_of_nil in H.
  - cbn [foldl fmap list_fmap fst snd] in *.
    apply NoDup_cons in Hnd as [He Hnd]. apply Forall_cons in Hwf as [Hhd Hwf].
    destruct Hhd as (He1 & He2 & Hfin & Hs).
    destruct (constraint_values this !!! j) as [| | |c] eqn:Hc; try done.
    assert (Hs' : exists s : R, coefficient = Fin s /\ (s = 1%R \/ s = (-1)%R)).
    { destruct Hs as [-> | ->]; eexists; (split; [reflexivity|]); [by left|by right]. }
    destruct Hs' as (s & -> & Hs').
    cbn [mbind option_bind].
    rewrite (elastic_setting_function_spec this mu Hmu Hmu_pos iterate j e c s) by done.
    set (iterate1 := set_lower_bound_multiplier _ _ _).
    destruct (IH iterate1 Hnd) as (iterate' & Heq & Hlen1 & Hlen2 & Hval & Hframe & HzU & Hc').
    { eapply Forall_impl; [exact Hwf|]. intros [[j' e'] s'] (? & ? & ? & ?).
      unfold elastic_well_formed, iterate1. cbn. rewrite !length_insert. done. }
    exists iterate'. split; [exact Heq|].
    split; [rewrite Hlen1; unfold iterate1; cbn; by rewrite length_insert|].
    split; [rewrite Hlen2; unfold iterate1; cbn; by rewrite length_insert|].
    split; [|split; [|split]].
    + intros j' e' c' s0 Hin Hc0. apply elem_of_cons in Hin as [Hin|Hin]; [|by eapply Hval].
      injection Hin as -> -> ->. rewrite Hc in Hc0. injection Hc0 as <-.
      destruct (Hframe e He) as [-> ->]. unfold iterate1. cbn.
      by rewrite !list_lookup_total_insert_eq.
    + intros k Hk. apply not_elem_of_cons in Hk as [Hne Hk].
      destruct (Hframe k Hk) as [-> ->]. unfold iterate1. cbn.
      by rewrite !list_lookup_total_insert_ne.
    + by rewrite HzU.
    + by rewrite Hc'.
Qed.
End ElasticLoop.

(** ** C5 *)


(** ** C8 *)

Section DirectionBounds.
Import InequalityConstrainedMethod.
Variables (this : Method) (problem : OptimizationProblem) (current_iterate : Iterate).

Local Abbreviation original := (get_number_original_variables problem).
Local Abbreviation n := (number_variables problem).
Local Abbreviation x := (primals current_iterate).

Let lower_original i :=
  Double.max (- trust_region_radius this)%D (variable_lower_bound problem i - x !!! i)%D.
Let upper_original i :=
  Double.min (trust_region_radius this) (variable_upper_bound problem i - x !!! i)%D.
Let lower_additional i := (variable_lower_bound problem i - x !!! i)%D.
Let upper_additional i := (variable_upper_bound problem i - x !!! i)%D.

Lemma set_direction_bounds_spec :
  let this' := set_direction_bounds this problem current_iterate in
  trust_region_radius this' = trust_region_radius this
  /\ direction_lower_bounds this'
     = foldl (fun v i => <[i:=lower_additional i]> v)
         (foldl (fun v i => <[i:=lower_original i]> v) (direction_lower_bounds this)
            (seq 0 original))
         (seq original (n - original))
  /\ direction_upper_bounds this'
     = foldl (fun v i => <[i:=upper_additional i]> v)
         (foldl (fun v i => <[i:=upper_original i]> v) (direction_upper_bounds this)
            (seq 0 original))
         (seq original (n - original)).
Proof.
  intros this'. unfold this', set_direction_bounds.
  set (step2 := fun (this0 : Method) (variable_index : nat) => _).
  set (step1 := fun (this0 : Method) (variable_index : nat) => _).
  set (s1 := foldl step1 this (seq 0 original)).
  assert (Hr1 : trust_region_radius s1 = trust_region_radius this)
    by (unfold s1; by rewrite (foldl_frame trust_region_radius)).
  destruct (foldl_component direction_lower_bounds
              (fun s => trust_region_radius s = trust_region_radius this)
              (fun i v => <[i:=lower_original i]> v) step1 (seq 0 original) this eq_refl)
    as [_ HL1].
  { intros s i Hs. split; [done|]. unfold step1, lower_original. cbn. by rewrite Hs. }
  destruct (foldl_component direction_upper_bounds
              (fun s => trust_region_radius s = trust_region_radius this)
              (fun i v => <[i:=upper_original i]> v) step1 (seq 0 original) this eq_refl)
    as [_ HU1].
  { intros s i Hs. split; [done|]. unfold step1, upper_original. cbn. by rewrite Hs. }
  destruct (foldl_component direction_lower_bounds (fun _ => True)
              (fun i v => <[i:=lower_additional i]> v) step2 (seq original (n - original)) s1 I)
    as [_ HL2]; [done|].
  destruct (foldl_component direction_upper_bounds (fun _ => True)
              (fun i v => <[i:=upper_additional i]> v) step2 (seq original (n - original)) s1 I)
    as [_ HU2]; [done|].
  split; [by rewrite (foldl_frame trust_region_radius)|].
  rewrite HL2, HU2. unfold s1. by rewrite HL1, HU1.
Qed.
End DirectionBounds.

Lemma generate_variables_bounds__spec (this : ActiveSetMethod.Method)
    (current_iterate : ActiveSetMethod.Iterate) (trust_region_radius : double) (i : nat) :
  let x := ActiveSetMethod.iterate_x current_iterate in
  let bounds := ActiveSetMethod.generate_variables_bounds_ this current_iterate trust_region_radius in
  length bounds = length x
  /\ ((i < length x)%nat ->
      bounds !!! i
      = mkInterval
          (Double.max (- trust_region_radius)%D (lb (ActiveSetMethod.bounds this !!! i) - x !!! i)%D)
          (Double.min trust_region_radius (ub (ActiveSetMethod.bounds this !!! i) - x !!! i)%D)).
Proof.
  intros x bounds. unfold bounds, ActiveSetMethod.generate_variables_bounds_. fold x.
  match goal with |- context [foldl ?f ?v ?l] =>
    destruct (foldl_insert_from
                (fun i => mkInterval
                   (Double.max (- trust_region_radius)%D
                      (lb (ActiveSetMethod.bounds this !!! i) - x !!! i)%D)
                   (Double.min trust_region_radius
                      (ub (ActiveSetMethod.bounds this !!! i) - x !!! i)%D)) l v i) as [Hlen Hi]
  end.
  rewrite Hlen, Hi, length_replicate. split; [done|]. intros Hlt.
  rewrite decide_True; [done|]. split; [apply elem_of_seq; lia|done].
Qed.

(** C8: [set_direction_bounds] gives to each original variable [i] the
    displacement bounds [[max(-Delta, x_L_i - x_i), min(Delta, x_U_i - x_i)]],
    and to each additional (elastic) variable the bounds
    [[x_L_i - x_i, x_U_i - x_i]] without the trust region (so [0 - x_i]
    below when its lower bound is 0); the entries beyond the variables of
    the problem and the trust-region radius are unchanged.  In the
    active-set method of ActiveSetMethod.cpp, [generate_variables_bounds_]
    gives the bounds [[max(-Delta, x_L_i - x_i), min(Delta, x_U_i - x_i)]]
    to every variable of the iterate. *)
Theorem direction_bounds_trust_region
    (this : InequalityConstrainedMethod.Method)
    (problem : InequalityConstrainedMethod.OptimizationProblem)
    (current_iterate : Iterate)
    (legacy : ActiveSetMethod.Method) (legacy_iterate : ActiveSetMethod.Iterate)
    (radius : double) :
  let original := InequalityConstrainedMethod.get_number_original_variables problem in
  let n := InequalityConstrainedMethod.number_variables problem in
  let Delta := InequalityConstrainedMethod.trust_region_radius this in
  let x_L := InequalityConstrainedMethod.variable_lower_bound problem in
  let x_U := InequalityConstrainedMethod.variable_upper_bound problem in
  let x := primals current_iterate in
  let this' := InequalityConstrainedMethod.set_direction_bounds this problem current_iterate in
  let lower := InequalityConstrainedMethod.direction_lower_bounds in
  let upper := InequalityConstrainedMethod.direction_upper_bounds in
  (original <= n)%nat ->
  (n <= length (lower this))%nat ->
  (n <= length (upper this))%nat ->
  InequalityConstrainedMethod.trust_region_radius this' = Delta
  /\ (forall i, (i < original)%nat ->
        lower this' !!! i = Double.max (- Delta)%D (x_L i - x !!! i)%D
        /\ upper this' !!! i = Double.min Delta (x_U i - x !!! i)%D)
  /\ (forall i, (original <= i < n)%nat ->
        lower this' !!! i = (x_L i - x !!! i)%D
        /\ upper this' !!! i = (x_U i - x !!! i)%D
        /\ (x_L i = Double.zero -> lower this' !!! i = (Double.zero - x !!! i)%D))
  /\ (forall i, (n <= i)%nat ->
        lower this' !!! i = lower this !!! i /\ upper this' !!! i = upper this !!! i)
  /\ (forall i, (i < length (ActiveSetMethod.iterate_x legacy_iterate))%nat ->
        ActiveSetMethod.generate_variables_bounds_ legacy legacy_iterate radius !!! i
        = mkInterval
            (Double.max (- radius)%D
               (lb (ActiveSetMethod.bounds legacy !!! i)
                - ActiveSetMethod.iterate_x legacy_iterate !!! i)%D)
            (Double.min radius
               (ub (ActiveSetMethod.bounds legacy !!! i)
                - ActiveSetMethod.iterate_x legacy_iterate !!! i)%D)).
Proof.
  intros original n Delta x_L x_U x this' lower upper Hle HlenL HlenU.
  destruct (set_direction_bounds_spec this problem current_iterate) as (Hr & HL & HU).
  fold this' in Hr, HL, HU.
  assert (Hlookup : forall (f1 f2 : nat -> double) (v : vector) (i : nat),
    (n <= length v)%nat ->
    foldl (fun v i => <[i:=f2 i]> v) (foldl (fun v i => <[i:=f1 i]> v) v (seq 0 original))
      (seq original (n - original)) !!! i
    = if decide (i < original)%nat then f1 i
      else if decide (i < n)%nat then f2 i else v !!! i).
  { intros f1 f2 v i Hv.
    destruct (foldl_insert_from f2 (seq original (n - original))
                (foldl (fun v i => <[i:=f1 i]> v) v (seq 0 original)) i) as [_ ->].
    destruct (foldl_insert_from f1 (seq 0 original) v 0) as [Hlen _]. rewrite Hlen.
    destruct (foldl_insert_from f1 (seq 0 original) v i) as [_ ->].
    destruct (decide (i < original)%nat) as [H1|H1].
    - rewrite decide_False by (intros [Hin _]; apply elem_of_seq in Hin; lia).
      rewrite decide_True; [done|]. split; [apply elem_of_seq; lia|lia].
    - destruct (decide (i < n)%nat) as [H2|H2].
      + rewrite decide_True; [done|]. split; [apply elem_of_seq; lia|lia].
      + rewrite decide_False by (intros [Hin _]; apply elem_of_seq in Hin; lia).
        rewrite decide_False; [done|]. intros [Hin _]. apply elem_of_seq in Hin. lia. }
  split; [done|]. unfold lower, upper in *. rewrite HL, HU.
  split; [|split; [|split]].
  - intros i Hi. rewrite !Hlookup by done. by rewrite !decide_True by done.
  - intros i Hi. rewrite !Hlookup by done.
    rewrite !(decide_False (P := (i < original)%nat)) by lia.
    rewrite !(decide_True (P := (i < n)%nat)) by lia.
    split; [done|]. split; [done|]. intros Hzero. unfold x_L in Hzero. by rewrite Hzero.
  - intros i Hi. rewrite !Hlookup by done.
    rewrite !(decide_False (P := (i < original)%nat)) by lia.
    by rewrite !(decide_False (P := (i < n)%nat)) by lia.
  - intros i Hi. by apply generate_variables_bounds__spec.
Qed.

(** ** C4 *)

(** erasing from a set the elements of a list that pass a test *)
Lemma foldl_erase (keep : nat -> bool) (l : list nat) (s : gset nat) (k : nat) :
  k ∈ foldl (fun s j => if keep j then s else s ∖ {[j]}) s l
  <-> k ∈ s /\ ~ (k ∈ l /\ keep k = false).
Proof.
  revert s. induction l as [|j l IH]; intros s; cbn [foldl].
  - split; [intros H; split; [done|]; intros [H' _]; by apply elem_of_nil in H'|by intros [? _]].
  - rewrite IH. destruct (keep j) eqn:Hj.
    + split; intros [Hk Hn]; (split; [done|]); intros [Hin Hkeep]; apply Hn.
      * apply elem_of_cons in Hin as [->|Hin]; [congruence|done].
      * split; [by right|done].
    + rewrite elem_of_difference, elem_of_singleton. split.
      * intros [[Hk Hne] Hn]. split; [done|]. intros [Hin Hkeep].
        apply elem_of_cons in Hin as [->|Hin]; [done|]. by apply Hn.
      * intros [Hk Hn]. split; [split; [done|]|].
        -- intros ->. apply Hn. split; [by left|done].
        -- intros [Hin Hkeep]. apply Hn. split; [by right|done].
Qed.

Section RecoverActiveSet.
Import ActiveSetMethod.
Variables (problem : Problem) (direction : Direction) (elastic_variables : ElasticVariables).

Local Abbreviation n := (number_variables problem).
Local Abbreviation m := (length (constraints (multipliers direction))).

Lemma recover_l1qp_active_set__spec :
  let direction' := recover_l1qp_active_set_ problem direction elastic_variables in
  let bounds' := active_bounds (active_set direction') in
  let bounds := active_bounds (active_set direction) in
  let constraints' := active_constraints (active_set direction') in
  let constraints_ := active_constraints (active_set direction) in
  (x direction' = x direction /\ multipliers direction' = multipliers direction
   /\ objective direction' = objective direction
   /\ objective_multiplier direction' = objective_multiplier direction
   /\ phase direction' = phase direction
   /\ constraint_partition direction' = constraint_partition direction
   /\ predicted_reduction direction' = predicted_reduction direction)
  /\ (forall i,
        (i ∈ at_lower_bound bounds' <->
         i ∈ at_lower_bound bounds /\ ~ (n <= i < length (x direction))%nat)
        /\ (i ∈ at_upper_bound bounds' <->
            i ∈ at_upper_bound bounds /\ ~ (n <= i < length (x direction))%nat))
  /\ (forall j,
        (j ∈ at_lower_bound constraints' <->
         j ∈ at_lower_bound constraints_ /\ ~ ((j < m)%nat /\ relaxed direction elastic_variables j = true))
        /\ (j ∈ at_upper_bound constraints' <->
            j ∈ at_upper_bound constraints_ /\ ~ ((j < m)%nat /\ relaxed direction elastic_variables j = true))).
Proof.
  intros direction' bounds' bounds constraints' constraints_.
  subst direction' bounds' constraints'. unfold recover_l1qp_active_set_.
  set (step1 := fun (direction0 : Direction) (i : nat) => erase_bound direction0 i).
  set (d1 := foldl step1 direction _).
  set (step2 := fun (direction0 : Direction) (j : nat) =>
                  let constraint_violation :=
                    constraint_violation direction0 elastic_variables j in
                  if (Double.zero <? constraint_violation)%D
                  then erase_constraint direction0 j else direction0).
  assert (Hframe2 : forall (T : Type) (proj : Direction -> T),
            (forall d j, proj (erase_constraint d j) = proj d) ->
            forall l d, proj (foldl step2 d l) = proj d).
  { intros T proj Hproj l d. apply (foldl_frame proj). intros s j. unfold step2. cbv zeta.
    by destruct (_ <? _)%D. }
  assert (Hx1 : x d1 = x direction) by (unfold d1; by rewrite (foldl_frame x)).
  assert (Hm1 : multipliers d1 = multipliers direction)
    by (unfold d1; by rewrite (foldl_frame multipliers)).
  rewrite Hm1.
  split.
  { rewrite !Hframe2 by done. unfold d1.
    rewrite (foldl_frame x), (foldl_frame multipliers), (foldl_frame objective),
      (foldl_frame objective_multiplier), (foldl_frame phase),
      (foldl_frame constraint_partition), (foldl_frame predicted_reduction) by done.
    done. }
  split.
  - intros i. rewrite (Hframe2 _ (fun d => active_bounds (active_set d))) by done.
    destruct (foldl_component (fun d => at_lower_bound (active_bounds (active_set d)))
                (fun _ => True) (fun i s => if false then s else s ∖ {[i]}) step1
                (seq n (length (x direction) - n)) direction I) as [_ HL]; [done|].
    destruct (foldl_component (fun d => at_upper_bound (active_bounds (active_set d)))
                (fun _ => True) (fun i s => if false then s else s ∖ {[i]}) step1
                (seq n (length (x direction) - n)) direction I) as [_ HU]; [done|].
    unfold d1. rewrite HL, HU, !(foldl_erase (fun _ => false)). fold bounds.
    split; split; intros [Hin Hn]; (split; [done|]).
    all: try (intros Hr; apply Hn; split; [apply elem_of_seq; lia|done]).
    all: intros [Hr _]; apply Hn; apply elem_of_seq in Hr; lia.
  - intros j.
    destruct (foldl_component (fun d => at_lower_bound (active_constraints (active_set d)))
                (fun d => x d = x direction)
                (fun j s => if negb (relaxed direction elastic_variables j) then s else s ∖ {[j]}) step2
                (seq 0 m) d1 Hx1) as [_ HL].
    { intros s k Hs. unfold step2, relaxed, constraint_violation. cbv zeta. rewrite Hs.
      destruct (_ <? _)%D; by cbn. }
    destruct (foldl_component (fun d => at_upper_bound (active_constraints (active_set d)))
                (fun d => x d = x direction)
                (fun j s => if negb (relaxed direction elastic_variables j) then s else s ∖ {[j]}) step2
                (seq 0 m) d1 Hx1) as [_ HU].
    { intros s k Hs. unfold step2, relaxed, constraint_violation. cbv zeta. rewrite Hs.
      destruct (_ <? _)%D; by cbn. }
    rewrite HL, HU, !(foldl_erase (fun j => negb (relaxed direction elastic_variables j))).
    unfold d1. rewrite !(foldl_frame (fun d => active_constraints (active_set d))) by done.
    fold constraints_.
    split; split; intros [Hin Hn]; (split; [done|]).
    all: try (intros [Hj Hr]; apply Hn; split; [apply elem_of_seq; lia|by rewrite Hr]).
    all: intros [Hj Hr]; apply Hn; split; [apply elem_of_seq in Hj; lia|];
      by apply negb_false_iff in Hr.
Qed.
End RecoverActiveSet.



(** ** C7 *)

Section RestorationObjective.
Import ActiveSetMethod.
Variables (current_iterate : Iterate) (partition : ConstraintPartition).

Hypothesis Hfinite : forall j i d,
  j ∈ infeasible partition ->
  (constraints_jacobian current_iterate !!! j) !! i = Some d -> Double.is_finite d = true.

Local Lemma add_row_spec (j : nat) (g : SparseVector) (i : nat) (r : R) :
  j ∈ infeasible partition ->
  sparse_at g i = Fin r ->
  sparse_at (add_row current_iterate partition j g) i = Fin (r + gradient_sign partition j * jacobian_entry current_iterate j i).
Proof.
  intros Hj Hg. unfold add_row, jacobian_entry, gradient_sign.
  pose proof (fun i d => Hfinite j i d Hj) as Hrow.
  generalize dependent (constraints_jacobian current_iterate !!! j). intros row.
  apply (map_fold_weak_ind
    (fun (result : SparseVector) (row : SparseVector) =>
       (forall i d, row !! i = Some d -> Double.is_finite d = true) ->
       sparse_at result i
       = Fin (r + (if decide (constraint_feasibility partition !!! j = INFEASIBLE_LOWER)
                   then -1 else 1) * Double.to_R (sparse_at row i)))).
  - intros _. rewrite Hg. unfold sparse_at. rewrite lookup_empty. cbn. f_equal. ring.
  - intros k d row' result Hk IH Hfin.
    assert (Hd : Double.is_finite d = true) by (apply (Hfin k); by rewrite lookup_insert_eq).
    assert (IH' : sparse_at result i
       = Fin (r + (if decide (constraint_feasibility partition !!! j = INFEASIBLE_LOWER)
                   then -1 else 1) * Double.to_R (sparse_at row' i))).
    { apply IH. intros i' d' Hi'. apply (Hfin i').
      rewrite lookup_insert_ne; [done|]. intros ->. congruence. }
    destruct d as [| | |d]; try done.
    unfold sparse_at in *.
    destruct (decide (k = i)) as [->|Hne].
    + rewrite Hk in IH'. cbn in IH'. rewrite lookup_insert_eq. cbn [default Double.to_R].
      destruct (decide _); rewrite lookup_insert_eq; cbn [default];
        rewrite IH'; cbn; f_equal; ring.
    + rewrite (lookup_insert_ne row') by done.
      destruct (decide _); rewrite lookup_insert_ne by done; exact IH'.
Qed.

(** the objective gradient of the restoration problem, entry by entry *)
Lemma compute_l1_linear_objective__spec (i : nat) :
  sparse_at (objective_gradient (compute_l1_linear_objective_ current_iterate partition)) i
  = Fin (Rsum ((fun j => gradient_sign partition j * jacobian_entry current_iterate j i)%R <$> infeasible partition)).
Proof.
  unfold compute_l1_linear_objective_. cbn [objective_gradient set_objective_gradient].
  change (foldl _ ∅ (infeasible partition))
    with (foldl (fun g j => add_row current_iterate partition j g) (∅ : SparseVector) (infeasible partition)).
  assert (H : forall l (g : SparseVector) (r : R),
    (forall j, j ∈ l -> j ∈ infeasible partition) ->
    sparse_at g i = Fin r ->
    sparse_at (foldl (fun g j => add_row current_iterate partition j g) g l) i
    = Fin (r + Rsum ((fun j => gradient_sign partition j * jacobian_entry current_iterate j i)%R <$> l))).
  { induction l as [|j l IH]; intros g r Hl Hg; cbn [foldl fmap list_fmap Rsum foldr].
    - rewrite Hg. f_equal. ring.
    - rewrite (IH _ (r + gradient_sign partition j * jacobian_entry current_iterate j i)%R).
      + f_equal. fold (Rsum ((fun j => gradient_sign partition j * jacobian_entry current_iterate j i)%R <$> l)). ring.
      + intros k Hk. apply Hl. by right.
      + apply add_row_spec; [|done]. apply Hl. by left. }
  rewrite (H _ _ 0%R); [f_equal; ring|done|].
  unfold sparse_at. by rewrite lookup_empty.
Qed.
End RestorationObjective.

Lemma generate_feasibility_bounds__spec (problem : ActiveSetMethod.Problem)
    (current_constraints : vector) (partition : ActiveSetMethod.ConstraintPartition) (j : nat) :
  let bounds :=
    ActiveSetMethod.generate_feasibility_bounds_ problem current_constraints partition in
  let c_L := lb (ActiveSetMethod.constraint_bounds problem !!! j) in
  let c_U := ub (ActiveSetMethod.constraint_bounds problem !!! j) in
  let c := current_constraints !!! j in
  length bounds = ActiveSetMethod.number_constraints problem
  /\ ((j < ActiveSetMethod.number_constraints problem)%nat ->
      bounds !!! j
      = match ActiveSetMethod.constraint_feasibility partition !!! j with
        | ActiveSetMethod.INFEASIBLE_LOWER => mkInterval NInf (c_L - c)%D
        | ActiveSetMethod.INFEASIBLE_UPPER => mkInterval (c_U - c)%D PInf
        | ActiveSetMethod.FEASIBLE => mkInterval (c_L - c)%D (c_U - c)%D
        end).
Proof.
  intros bounds c_L c_U c. unfold bounds, ActiveSetMethod.generate_feasibility_bounds_.
  set (g := fun j =>
         match ActiveSetMethod.constraint_feasibility partition !!! j with
         | ActiveSetMethod.INFEASIBLE_LOWER =>
             mkInterval NInf (lb (ActiveSetMethod.constraint_bounds problem !!! j)
                              - current_constraints !!! j)%D
         | ActiveSetMethod.INFEASIBLE_UPPER =>
             mkInterval (ub (ActiveSetMethod.constraint_bounds problem !!! j)
                         - current_constraints !!! j)%D PInf
         | ActiveSetMethod.FEASIBLE =>
             mkInterval (lb (ActiveSetMethod.constraint_bounds problem !!! j)
                         - current_constraints !!! j)%D
                        (ub (ActiveSetMethod.constraint_bounds problem !!! j)
                         - current_constraints !!! j)%D
         end).
  match goal with |- context [foldl ?f ?v0 ?l] =>
    destruct (foldl_component (fun w : list Interval => w) (fun _ => True)
                (fun j w => <[j:=g j]> w) f l v0 I) as [_ Heq]
  end.
  { intros s k _. split; [done|]. unfold g.
    by destruct (ActiveSetMethod.constraint_feasibility partition !!! k). }
  rewrite Heq.
  match goal with |- context [foldl ?f ?v0 ?l] =>
    destruct (foldl_insert_from g l v0 j) as [Hlen Hj]
  end.
  rewrite Hlen, Hj, length_replicate. split; [done|]. intros Hlt.
  rewrite decide_True by (split; [apply elem_of_seq; lia|done]).
  done.
Qed.

(** C7: the restoration subproblem that [compute_l1lp_step_] hands to the
    LP solver has, as linear objective, the sum over the constraints [j]
    of the list [infeasible] of the partition of [-grad c_j] when [j] is
    marked INFEASIBLE_LOWER and of [+grad c_j] otherwise (that is, for
    INFEASIBLE_UPPER); its constraint bounds are [(-inf, c_L_j - c_j]] for
    INFEASIBLE_LOWER, [[c_U_j - c_j, +inf)] for INFEASIBLE_UPPER and
    [[c_L_j - c_j, c_U_j - c_j]] for FEASIBLE; and the direction returned
    has objective multiplier 0, the phase RESTORATION and the partition of
    the phase-2 direction. *)
Theorem restoration_subproblem
    (solve_LP : list Interval -> list Interval -> SparseVector -> list SparseVector -> vector
                -> ActiveSetMethod.Direction)
    (this : ActiveSetMethod.Method) (problem : ActiveSetMethod.Problem)
    (current_iterate : ActiveSetMethod.Iterate) (phase_2_direction : ActiveSetMethod.Direction)
    (trust_region_radius : double) :
  let partition := ActiveSetMethod.constraint_partition phase_2_direction in
  let subproblem :=
    ActiveSetMethod.l1lp_subproblem this problem current_iterate phase_2_direction
      trust_region_radius in
  let call := subproblem.2 in
  let result :=
    ActiveSetMethod.compute_l1lp_step_ solve_LP this problem current_iterate phase_2_direction
      trust_region_radius in
  let direction := result.1.1 in
  (forall j i d,
     j ∈ ActiveSetMethod.infeasible partition ->
     (ActiveSetMethod.constraints_jacobian current_iterate !!! j) !! i = Some d ->
     Double.is_finite d = true) ->
  (* the objective *)
  (forall i,
     sparse_at (ActiveSetMethod.call_linear_objective call) i
     = Fin (Rsum ((fun j => gradient_sign partition j * jacobian_entry current_iterate j i)%R
                    <$> ActiveSetMethod.infeasible partition)))
  /\ (forall j,
        (ActiveSetMethod.constraint_feasibility partition !!! j = ActiveSetMethod.INFEASIBLE_LOWER ->
         gradient_sign partition j = (-1)%R)
        /\ (ActiveSetMethod.constraint_feasibility partition !!! j = ActiveSetMethod.INFEASIBLE_UPPER ->
            gradient_sign partition j = 1%R))
  (* the bounds of the linearized constraints *)
  /\ length (ActiveSetMethod.call_constraints_bounds call)
     = ActiveSetMethod.number_constraints problem
  /\ (forall j, (j < ActiveSetMethod.number_constraints problem)%nat ->
        let c_L := lb (ActiveSetMethod.constraint_bounds problem !!! j) in
        let c_U := ub (ActiveSetMethod.constraint_bounds problem !!! j) in
        let c := ActiveSetMethod.iterate_constraints current_iterate !!! j in
        ActiveSetMethod.call_constraints_bounds call !!! j
        = match ActiveSetMethod.constraint_feasibility partition !!! j with
          | ActiveSetMethod.INFEASIBLE_LOWER => mkInterval NInf (c_L - c)%D
          | ActiveSetMethod.INFEASIBLE_UPPER => mkInterval (c_U - c)%D PInf
          | ActiveSetMethod.FEASIBLE => mkInterval (c_L - c)%D (c_U - c)%D
          end)
  (* the rest of the call and the direction *)
  /\ ActiveSetMethod.call_constraints_jacobian call
     = ActiveSetMethod.constraints_jacobian current_iterate
  /\ ActiveSetMethod.call_initial_point call = ActiveSetMethod.x phase_2_direction
  /\ ActiveSetMethod.x direction = ActiveSetMethod.x (ActiveSetMethod.call_solve_LP solve_LP call)
  /\ ActiveSetMethod.objective_gradient result.2 = ActiveSetMethod.call_linear_objective call
  /\ ActiveSetMethod.objective_multiplier direction = Double.zero
  /\ ActiveSetMethod.phase direction = ActiveSetMethod.RESTORATION
  /\ ActiveSetMethod.constraint_partition direction = partition.
Proof.
  intros partition subproblem call result direction Hfinite.
  split; [|split; [|split; [|split]]].
  - intros i. by apply compute_l1_linear_objective__spec.
  - intros j. unfold gradient_sign. split; intros ->; [by rewrite decide_True|by rewrite decide_False].
  - apply (generate_feasibility_bounds__spec problem _ partition 0).
  - intros j Hj. by apply (generate_feasibility_bounds__spec problem _ partition j).
  - done.
Qed.

(** two constraints with gradients [2 e_0] and [5 e_0], the first below
    its lower bound and the second above its upper bound: the objective
    gradient is [(-2 + 5) e_0] *)
Lemma restoration_subproblem_witness :
  let solve_LP := fun (_ _ : list Interval) (_ : SparseVector) (_ : list SparseVector)
                      (d0 : vector) =>
    ActiveSetMethod.mkDirection d0 (mkMultipliers [] [] [])
      (ActiveSetMethod.mkActiveSet (ActiveSetMethod.mkActiveSetRecord ∅ ∅)
         (ActiveSetMethod.mkActiveSetRecord ∅ ∅))
      Double.zero Double.one ActiveSetMethod.OPTIMALITY
      (ActiveSetMethod.mkConstraintPartition [] [] []) ActiveSetMethod.other_predicted_reduction in
  let partition :=
    ActiveSetMethod.mkConstraintPartition [] [0%nat; 1%nat]
      [ActiveSetMethod.INFEASIBLE_LOWER; ActiveSetMethod.INFEASIBLE_UPPER] in
  let problem :=
    ActiveSetMethod.mkProblem 1 2 [mkInterval (Fin 1) PInf; mkInterval NInf (Fin 0)] Double.one in
  let current_iterate :=
    ActiveSetMethod.mkIterate [Fin 0] (mkMultipliers [Fin 0; Fin 0] [Fin 0] [Fin 0])
      [Fin 0; Fin 4] [{[0%nat := Fin 2]}; {[0%nat := Fin 5]}] ∅ in
  let phase_2_direction :=
    ActiveSetMethod.mkDirection [Fin 0] (mkMultipliers [] [] [])
      (ActiveSetMethod.mkActiveSet (ActiveSetMethod.mkActiveSetRecord ∅ ∅)
         (ActiveSetMethod.mkActiveSetRecord ∅ ∅))
      Double.zero Double.one ActiveSetMethod.OPTIMALITY partition
      ActiveSetMethod.other_predicted_reduction in
  let this := ActiveSetMethod.mkMethod [mkInterval NInf PInf] 0 in
  let call :=
    (ActiveSetMethod.l1lp_subproblem this problem current_iterate phase_2_direction (Fin 1)).2 in
  sparse_at (ActiveSetMethod.call_linear_objective call) 0 = Fin (-1 * 2 + (1 * 5 + 0))
  /\ ActiveSetMethod.call_constraints_bounds call !!! 0%nat = mkInterval NInf (Fin 1 - Fin 0)%D
  /\ ActiveSetMethod.call_constraints_bounds call !!! 1%nat = mkInterval (Fin 0 - Fin 4)%D PInf.
Proof.
  intros solve_LP partition problem current_iterate phase_2_direction this call.
  destruct (restoration_subproblem solve_LP this problem current_iterate phase_2_direction (Fin 1))
    as (Hg & _ & _ & Hb & _).
  { intros j i d Hj Hd. cbn in Hj.
    apply elem_of_cons in Hj as [->|Hj]; [|apply list_elem_of_singleton in Hj as ->];
      cbn in Hd; apply lookup_singleton_Some in Hd as [_ <-]; done. }
  split; [|split].
  - etrans; [apply (Hg 0%nat)|]. vm_compute. reflexivity.
  - apply (Hb 0%nat). cbn. lia.
  - apply (Hb 1%nat). cbn. lia.
Defined.

(** ** C9 *)

(** C9, as stated, fails for [SubproblemFactory::create]: it throws for
    "QP", which is in the set of the specification, and returns an instance
    for "SQP", which is not. *)
Lemma subproblem_factory_other_names :
  ("QP"%string ∈ specified_strategies
   /\ SubproblemFactory.create (fun _ => inr Double.one) "QP" ∅ false false
      = inl (invalid_argument "Subproblem method QP does not exist"))
  /\ (("SQP"%string ∉ specified_strategies)
      /\ SubproblemFactory.create (fun _ => inr Double.one) "SQP" ∅ false false
         = inr (SubproblemFactory.SQP "" "" false false)).
Proof.
  split; (split; [|reflexivity]).
  - by left.
  - intros H. repeat (apply elem_of_cons in H as [H|H]; [discriminate H|]).
    by apply elem_of_nil in H.
Qed.

(** C9 (amended): each factory returns an instance for every name of its
    own recognized set and throws [std::invalid_argument] for every other
    name.  The set of [InequalityHandlingMethodFactory::create], which
    reads the option [subproblem], is QP, LP, primal_dual_interior_point;
    the set of [SubproblemFactory::create] is SQP, SLP, Sl1QP, IPM, where
    Sl1QP is built when its option [Sl1QP_initial_parameter] is a number
    and otherwise the exception of [std::stod] is thrown. *)
Theorem factories_recognized_strategies :
  (forall (Options : Type) (get_string : Options -> string -> string)
          (number_variables number_constraints number_objective_gradient_nonzeros
           number_jacobian_nonzeros number_hessian_nonzeros : nat) (options : Options),
     let strategy := get_string options "subproblem" in
     let created :=
       InequalityHandlingMethodFactory.create Options get_string number_variables
         number_constraints number_objective_gradient_nonzeros number_jacobian_nonzeros
         number_hessian_nonzeros options in
     (strategy ∈ specified_strategies -> exists instance, created = inr instance)
     /\ (strategy ∉ specified_strategies ->
         created
         = inl (invalid_argument ("Subproblem strategy " +:+ strategy +:+ " is not supported"))))
  /\ (forall (stod : string -> Exception + double) (type : string)
             (options : gmap string string) (use_trust_region scale_residuals : bool),
        let created :=
          SubproblemFactory.create stod type options use_trust_region scale_residuals in
        (type ∈ legacy_strategies -> type <> "Sl1QP"%string -> exists instance, created = inr instance)
        /\ (type = "Sl1QP"%string ->
            forall initial_parameter,
              stod (SubproblemFactory.option_value options "Sl1QP_initial_parameter")
              = inr initial_parameter ->
              created
              = inr (SubproblemFactory.Sl1QP
                       (SubproblemFactory.option_value options "QP_solver")
                       (SubproblemFactory.option_value options "hessian")
                       use_trust_region scale_residuals initial_parameter))
        /\ (type = "Sl1QP"%string ->
            forall exception,
              stod (SubproblemFactory.option_value options "Sl1QP_initial_parameter")
              = inl exception ->
              created = inl exception)
        /\ (type ∉ legacy_strategies ->
            created
            = inl (invalid_argument ("Subproblem method " +:+ type +:+ " does not exist")))).
Proof.
  split.
  - intros Options get_string nv nc ng nj nh options strategy created.
    unfold created, InequalityHandlingMethodFactory.create. fold strategy. clearbody strategy.
    unfold specified_strategies. split.
    + intros Hin. repeat case_decide; eauto. exfalso.
      repeat (apply elem_of_cons in Hin as [Hin|Hin]; [done|]). by apply elem_of_nil in Hin.
    + intros Hnot. rewrite !decide_False; [done|..]; intros ->; apply Hnot.
      * do 2 right. by left.
      * right. by left.
      * by left.
  - intros stod type options use_trust_region scale_residuals created.
    unfold created, SubproblemFactory.create, legacy_strategies.
    split; [|split; [|split]].
    + intros Hin Hne. repeat case_decide; eauto; [done|]. exfalso.
      repeat (apply elem_of_cons in Hin as [Hin|Hin]; [done|]). by apply elem_of_nil in Hin.
    + intros -> initial_parameter ->. reflexivity.
    + intros -> exception ->. reflexivity.
    + intros Hnot. rewrite !decide_False; [done|..]; intros ->; apply Hnot.
      * do 3 right. by left.
      * do 2 right. by left.
      * right. by left.
      * by left.
Qed.

Lemma factories_recognized_strategies_witness :
  (exists instance,
     InequalityHandlingMethodFactory.create (gmap string string)
       (fun options key => default EmptyString (options !! key)) 2 1 2 2 3
       {["subproblem"%string := "LP"%string]} = inr instance)
  /\ InequalityHandlingMethodFactory.create (gmap string string)
       (fun options key => default EmptyString (options !! key)) 2 1 2 2 3
       {["subproblem"%string := "SLP"%string]}
     = inl (invalid_argument "Subproblem strategy SLP is not supported")
  /\ SubproblemFactory.create (fun _ => inl (invalid_argument "stod")) "Sl1QP" ∅ true false
     = inl (invalid_argument "stod").
Proof.
  destruct factories_recognized_strategies as [Hnew Hlegacy].
  destruct (Hnew (gmap string string) (fun options key => default EmptyString (options !! key))
              2%nat 1%nat 2%nat 2%nat 3%nat {["subproblem"%string := "LP"%string]})
    as [Hin _].
  destruct (Hnew (gmap string string) (fun options key => default EmptyString (options !! key))
              2%nat 1%nat 2%nat 2%nat 3%nat {["subproblem"%string := "SLP"%string]})
    as [_ Hout].
  destruct (Hlegacy (fun _ => inl (invalid_argument "stod")) "Sl1QP"%string ∅ true false)
    as (_ & _ & Hstod & _).
  split; [|split].
  - apply Hin. vm_compute. right. by left.
  - apply Hout. vm_compute. intros H.
    repeat (apply elem_of_cons in H as [H|H]; [discriminate H|]).
    by apply elem_of_nil in H.
  - by apply Hstod.
Defined.


(** one original variable with bounds [-5 <= x <= 5] at [x = 0] and one
    elastic variable with bounds [0 <= p] at [p = 3], for the radius 1 *)
Lemma direction_bounds_trust_region_witness :
  let this :=
    InequalityConstrainedMethod.mkMethod (Fin 1) [] [Fin 0; Fin 0] [Fin 0; Fin 0] [] [] in
  let problem :=
    InequalityConstrainedMethod.mkOptimizationProblem 1 2 0
      (fun i => if decide (i = 0%nat) then Fin (-5) else Fin 0)
      (fun i => if decide (i = 0%nat) then Fin 5 else PInf)
      (fun _ => NInf) (fun _ => PInf) in
  let current_iterate :=
    mkIterate [Fin 0; Fin 3] (mkMultipliers [] [Fin 0; Fin 0] [Fin 0; Fin 0]) [] false false false in
  let this' := InequalityConstrainedMethod.set_direction_bounds this problem current_iterate in
  InequalityConstrainedMethod.direction_lower_bounds this' !!! 0%nat
  = Double.max (- Fin 1)%D (Fin (-5) - Fin 0)%D
  /\ InequalityConstrainedMethod.direction_lower_bounds this' !!! 1%nat = (Fin 0 - Fin 3)%D
  /\ InequalityConstrainedMethod.direction_upper_bounds this' !!! 1%nat = (PInf - Fin 3)%D.
Proof.
  intros this problem current_iterate this'.
  destruct (direction_bounds_trust_region this problem current_iterate
              (ActiveSetMethod.mkMethod [] 0)
              (ActiveSetMethod.mkIterate [] (mkMultipliers [] [] []) [] [] ∅) (Fin 1))
    as (_ & Horiginal & Hadditional & _); [cbn; lia..|].
  destruct (Horiginal 0%nat) as [HL _]; [cbn; lia|].
  destruct (Hadditional 1%nat) as (HL1 & HU1 & _); [cbn; lia|].
  split; [exact HL|]. split; [exact HL1|exact HU1].
Defined.

(** * Further properties *)

Import PrimalDualInteriorPointSubproblem.

(** ** Pushing a value: projection *)

(** [min(max(v, lo), hi)] applied twice *)
Lemma min_max_idempotent (lo hi v : double) :
  Double.min (Double.max (Double.min (Double.max v lo) hi) lo) hi
  = Double.min (Double.max v lo) hi.
Proof.
  unfold Double.min, Double.max.
  destruct lo, hi, v; simpl; try done; dcases; try done; try lra.
Qed.

(** [min(max(v, lo), hi)] is monotone in [v] *)
Lemma min_max_monotone (lo hi v w : double) :
  (v <=? w)%D = true ->
  (Double.min (Double.max v lo) hi <=? Double.min (Double.max w lo) hi)%D = true.
Proof.
  unfold Double.min, Double.max.
  destruct lo, hi, v, w; simpl; try done; dcases; try done; try lra.
Qed.

(** X1: [push_variable_to_interior] is a projection: pushing a pushed value
    again returns it unchanged, for any value, bounds and parameters; and
    it is monotone, a larger value is pushed to a value at least as large. *)
Theorem push_variable_to_interior_projection (p : Parameters) (b : Interval) (v w : double) :
  push_variable_to_interior p (push_variable_to_interior p v b) b
  = push_variable_to_interior p v b
  /\ ((v <=? w)%D = true ->
      (push_variable_to_interior p v b <=? push_variable_to_interior p w b)%D = true).
Proof.
  unfold push_variable_to_interior. cbv zeta. split.
  - apply min_max_idempotent.
  - apply min_max_monotone.
Qed.

(** ** Initial point *)

(** a loop that stores at [s], for each pair [(j, s)] of a list, a value
    that depends on the pair *)
Lemma foldl_insert_pairs `{!Inhabited A} (g : nat -> nat -> A) (l : list (nat * nat))
    (v : list A) :
  NoDup (l.*2) ->
  length (foldl (fun (v : list A) '(j, s) => <[s:=g j s]> v) v l) = length v
  /\ (forall j s, (j, s) ∈ l -> (s < length v)%nat ->
        foldl (fun (v : list A) '(j, s) => <[s:=g j s]> v) v l !!! s = g j s)
  /\ (forall k, k ∉ l.*2 ->
        foldl (fun (v : list A) '(j, s) => <[s:=g j s]> v) v l !!! k = v !!! k).
Proof.
  revert v. induction l as [|[j s] l IH]; intros v Hnd; cbn [foldl fmap list_fmap snd] in *.
  - split; [done|]. split; [|done]. intros j s H. by apply elem_of_nil in H.
  - apply NoDup_cons in Hnd as [Hs Hnd].
    destruct (IH (<[s:=g j s]> v) Hnd) as (Hlen & Hin & Hout).
    rewrite length_insert in Hlen, Hin. split; [done|]. split.
    + intros j' s' H Hlt. apply elem_of_cons in H as [H|H].
      * injection H as -> ->. rewrite (Hout s Hs).
        by rewrite list_lookup_total_insert_eq.
      * by apply Hin.
    + intros k Hk. apply not_elem_of_cons in Hk as [Hne Hk].
      rewrite (Hout k Hk). by rewrite list_lookup_total_insert_ne.
Qed.

(** the loop over the slacks writes primal values only *)
Lemma foldl_set_primal_slacks (g : double -> nat -> double) (c : vector) (l : list (nat * nat))
    (it : Iterate) :
  evaluations_constraints it = c ->
  foldl (fun (it : Iterate) '(j, s) => set_primal it s (g (evaluations_constraints it !!! j) s))
    it l
  = set_primals it (foldl (fun (v : vector) '(j, s) => <[s:=g (c !!! j) s]> v) (primals it) l).
Proof.
  revert it. induction l as [|[j s] l IH]; intros it Hc; cbn [foldl]; [by destruct it|].
  rewrite IH by done. by rewrite Hc.
Qed.

(** X2: when the problem has no inequality constraint, [initialize]
    succeeds; with distinct slack indices, it gives to each slack variable
    the pushed value of its constraint, evaluated at the point it was
    given (before any variable is pushed), and to each other variable its
    own pushed value; entries beyond the variables of the problem are
    unchanged, and the three evaluation flags of the iterate are reset. *)
Theorem initialize_primals
    (least_square_multipliers : NonlinearProblem -> Iterate -> vector)
    (this : Subproblem) (problem : NonlinearProblem) (first_iterate : Iterate) :
  let n := number_variables problem in
  let c := evaluations_constraints (evaluate_constraints problem first_iterate) in
  let pushed := fun (v : double) (i : nat) =>
    push_variable_to_interior (parameters this) v
      (mkInterval (get_variable_lower_bound problem i) (get_variable_upper_bound problem i)) in
  inequality_constraints problem = [] ->
  NoDup ((model_slacks problem).*2) ->
  exists iterate,
    initialize least_square_multipliers this problem first_iterate = Some iterate
    /\ length (primals iterate) = length (primals first_iterate)
    /\ (forall j s, (j, s) ∈ model_slacks problem -> (s < length (primals first_iterate))%nat ->
          primals iterate !!! s = pushed (c !!! j) s)
    /\ (forall i, i ∉ (model_slacks problem).*2 -> (i < n)%nat ->
          (i < length (primals first_iterate))%nat ->
          primals iterate !!! i = pushed (primals first_iterate !!! i) i)
    /\ (forall i, i ∉ (model_slacks problem).*2 -> (n <= i)%nat ->
          primals iterate !!! i = primals first_iterate !!! i)
    /\ evaluations_constraints iterate = c
    /\ is_objective_gradient_computed iterate = false
    /\ are_constraints_computed iterate = false
    /\ is_constraint_jacobian_computed iterate = false.
Proof.
  intros n c pushed Hno Hnd. unfold initialize. rewrite bool_decide_eq_true_2 by done.
  set (it1 := evaluate_constraints problem first_iterate).
  assert (Hp1 : primals it1 = primals first_iterate)
    by (unfold it1, evaluate_constraints; by destruct (are_constraints_computed _)).
  rewrite (foldl_set_primal (fun i v => pushed v i)).
  set (x2 := foldl _ (primals it1) _).
  destruct (foldl_insert_pointwise (fun i v => pushed v i) (seq 0 n) (primals it1) 0
              (NoDup_seq _ _)) as [Hlen2 _].
  change (length x2 = length (primals it1)) in Hlen2.
  assert (Hx2 : forall k, x2 !!! k
             = if decide (k ∈ seq 0 n /\ (k < length (primals it1))%nat)
               then pushed (primals it1 !!! k) k else primals it1 !!! k).
  { intros k. by destruct (foldl_insert_pointwise (fun i v => pushed v i) (seq 0 n)
                             (primals it1) k (NoDup_seq _ _)) as [_ ?]. }
  set (it2 := set_primals it1 x2).
  set (x3 := foldl (fun (v : vector) '(j, s) => <[s:=pushed (c !!! j) s]> v) x2
               (model_slacks problem)).
  destruct (foldl_insert_pairs (fun j s => pushed (c !!! j) s) (model_slacks problem) x2 Hnd)
    as (Hlen3 & Hin3 & Hout3). fold x3 in Hlen3, Hin3, Hout3.
  set (it3 := if bool_decide (model_slacks problem <> []) then _ else it2).
  assert (H3 : it3 = set_primals it1 x3).
  { unfold it3. case_bool_decide as Hs.
    - rewrite (foldl_set_primal_slacks (fun v s => pushed v s) c) by done. done.
    - unfold x3. destruct (model_slacks problem); [done|]. first [discriminate Hs | exfalso; by apply Hs]. }
  rewrite H3. rewrite foldl_set_lower_bound_multiplier, foldl_set_upper_bound_multiplier.
  destruct (is_constrained problem); eexists; (split; [reflexivity|]); cbn;
    rewrite Hlen3, Hlen2, Hp1; (split; [done|]); (split; [|split; [|split]]); try done.
  all: try (intros j s Hjs Hs; apply Hin3; [done|]; by rewrite Hlen2, Hp1).
  all: try (intros i Hi Hn Hlt; rewrite (Hout3 i Hi), Hx2, Hp1;
            rewrite decide_True; [done|]; split; [apply elem_of_seq; lia|done]).
  all: intros i Hi Hn; rewrite (Hout3 i Hi), Hx2, Hp1;
       rewrite decide_False; [done|]; intros [H _]; apply elem_of_seq in H; lia.
Qed.

(** the slack of [slack_problem], from the point [(20, 0)] *)
Lemma initialize_primals_witness :
  exists iterate,
    initialize no_least_square_multipliers (example_subproblem (1 / 100) (1 / 100))
      slack_problem
      (mkIterate [Fin 20; Fin 0] (mkMultipliers [Fin 0] [Fin 0; Fin 0] [Fin 0; Fin 0]) []
         false false false)
    = Some iterate
    /\ length (primals iterate) = 2%nat
    /\ are_constraints_computed iterate = false.
Proof.
  destruct (initialize_primals no_least_square_multipliers
              (example_subproblem (1 / 100) (1 / 100)) slack_problem
              (mkIterate [Fin 20; Fin 0] (mkMultipliers [Fin 0] [Fin 0; Fin 0] [Fin 0; Fin 0]) []
                 false false false))
    as (iterate & Hinit & Hlen & _ & _ & _ & _ & _ & Hflag & _).
  - reflexivity.
  - cbn. apply NoDup_singleton.
  - exists iterate. split; [exact Hinit|]. split; [exact Hlen|exact Hflag].
Defined.

(** ** Multiplier reset: idempotence *)

(** two lists of the same length with the same entries *)
Lemma list_eq_total `{!Inhabited A} (l1 l2 : list A) :
  length l1 = length l2 -> (forall i, l1 !!! i = l2 !!! i) -> l1 = l2.
Proof.
  intros Hlen H. apply list_eq. intros i.
  destruct (decide (i < length l1)%nat) as [Hi|Hi].
  - rewrite (list_lookup_lookup_total_lt l1 i Hi).
    rewrite (list_lookup_lookup_total_lt l2 i) by lia. by rewrite H.
  - rewrite !lookup_ge_None_2; [done|lia|lia].
Qed.

(** a loop that rewrites entries by an idempotent function, run twice *)
Lemma foldl_insert_twice `{!Inhabited A} (g : nat -> A -> A) (l : list nat) (v : list A) :
  (forall i z, g i (g i z) = g i z) ->
  foldl (fun v i => <[i:=g i (v !!! i)]> v) (foldl (fun v i => <[i:=g i (v !!! i)]> v) v l) l
  = foldl (fun v i => <[i:=g i (v !!! i)]> v) v l.
Proof.
  intros Hg.
  pose proof (fun v k => foldl_insert_idempotent g l v k Hg) as H.
  apply list_eq_total.
  - by destruct (H (foldl (fun v i => <[i:=g i (v !!! i)]> v) v l) 0%nat) as [-> _].
  - intros k. destruct (H (foldl (fun v i => <[i:=g i (v !!! i)]> v) v l) k) as [_ ->].
    destruct (H v k) as [-> ->].
    destruct (decide (k ∈ l /\ (k < length v)%nat)); [apply Hg|done].
Qed.

(** X3: [postprocess_iterate] is idempotent: a second reset of the bound
    multipliers changes nothing. *)
Theorem postprocess_iterate_idempotent (this : Subproblem) (problem : NonlinearProblem)
    (iterate : Iterate) :
  postprocess_iterate this problem (postprocess_iterate this problem iterate)
  = postprocess_iterate this problem iterate.
Proof.
  rewrite (postprocess_iterate_multipliers this problem (postprocess_iterate _ _ _)).
  rewrite postprocess_iterate_multipliers.
  cbn [set_multipliers multipliers primals lower_bounds upper_bounds constraints
       evaluations_constraints is_objective_gradient_computed are_constraints_computed
       is_constraint_jacobian_computed].
  rewrite !foldl_insert_twice; [done| |]; intros i z; apply clamp_idempotent.
Qed.

(** ** Bound multiplier displacements: linearized complementarity *)

Lemma displacement_complementarity (mu d z xi b : double) :
  Double.is_finite mu = true -> Double.is_finite d = true -> Double.is_finite z = true ->
  Double.is_finite xi = true -> Double.is_finite b = true ->
  (b <? xi)%D = true \/ (xi <? b)%D = true ->
  exists dz : R,
    ((mu - d * z) / (xi - b) - z)%D = Fin dz
    /\ ((Double.to_R xi - Double.to_R b) * (Double.to_R z + dz)
        + Double.to_R z * Double.to_R d = Double.to_R mu)%R.
Proof.
  destruct mu as [| | |mu], d as [| | |d], z as [| | |z], xi as [| | |x], b as [| | |b];
    try done. simpl. intros _ _ _ _ _ H.
  assert (Hne : (x - b <> 0)%R)
    by (destruct H as [H|H]; apply bool_decide_eq_true in H; lra).
  rewrite decide_False by done. eexists. split; [reflexivity|]. by field.
Qed.



(** ** Fraction-to-boundary rule: the step is the largest one *)

(** the loop returns its initial value or one of the trial values *)
Lemma fraction_step_attained guard trial (l : list nat) (a0 : R) :
  (0 < a0)%R ->
  exists a : R,
    foldl (fraction_step guard trial) (Fin a0) l = Fin a
    /\ (0 < a <= a0)%R
    /\ (a = a0 \/ exists i, i ∈ l /\ guard i = true /\ trial i = Fin a).
Proof.
  revert a0. induction l as [|i l IH]; intros a0 Ha0; cbn [foldl].
  - exists a0. split; [done|]. split; [lra|]. by left.
  - assert (Hstep : exists a1 : R, fraction_step guard trial (Fin a0) i = Fin a1
        /\ (0 < a1 <= a0)%R
        /\ (a1 = a0 \/ (guard i = true /\ trial i = Fin a1))).
    { unfold fraction_step, Double.min, Double.zero.
      destruct (guard i) eqn:Hg; [|exists a0; split; [done|]; split; [lra|by left]].
      destruct (trial i) as [| | |t] eqn:Ht; simpl;
        try (exists a0; split; [done|]; split; [lra|by left]).
      case_bool_decide as H0; [|exists a0; split; [done|]; split; [lra|by left]].
      case_bool_decide as H1; [exists t|exists a0]; (split; [done|]); (split; [lra|]);
        [by right|by left]. }
    destruct Hstep as (a1 & -> & Ha1 & Hi).
    destruct (IH a1) as (a & Heq & Ha & Hl); [lra|].
    exists a. split; [done|]. split; [lra|].
    destruct Hl as [->|(k & Hk & Hg & Ht)].
    + destruct Hi as [->|[Hg Ht]]; [by left|]. right. exists i. split; [by left|done].
    + right. exists k. split; [by right|done].
Qed.



(** ** The direction: primal part and sign of the constraint multipliers *)

(** an invariant of a loop that may fail *)
Lemma foldl_option_invariant {S J : Type} (P : S -> Prop) (f : option S -> J -> option S)
    (l : list J) (acc : option S) (s' : S) :
  (forall s, acc = Some s -> P s) ->
  (forall acc j s1, (forall s, acc = Some s -> P s) -> f acc j = Some s1 -> P s1) ->
  foldl f acc l = Some s' -> P s'.
Proof.
  intros Hacc Hstep. revert acc Hacc. induction l as [|j l IH]; intros acc Hacc; cbn [foldl].
  - intros H. by apply Hacc.
  - apply IH. intros s Hs. by eapply Hstep.
Qed.

(** [compute_bound_dual_direction] writes the two vectors of
    displacements only *)
Lemma compute_bound_dual_direction_frame (this this' : Subproblem) (problem : NonlinearProblem)
    (current_iterate : Iterate) :
  compute_bound_dual_direction this problem current_iterate = Some this' ->
  solution this' = solution this /\ direction this' = direction this
  /\ objective_gradient this' = objective_gradient this.
Proof.
  unfold compute_bound_dual_direction. intros H.
  set (P := fun s : Subproblem =>
              solution s = solution this /\ direction s = direction this
              /\ objective_gradient s = objective_gradient this).
  destruct (foldl _ (Some _) (lower_bounded_variables problem)) as [s1|] eqn:E1; [|done].
  cbn [mbind option_bind] in H.
  assert (H1 : P s1).
  { eapply (foldl_option_invariant P); [| |exact E1].
    - intros s [= <-]. done.
    - intros [s|] j s2 Hs; [|done]. cbn [mbind option_bind]. cbv zeta.
      destruct (Double.is_finite _); [|done]. intros [= <-].
      destruct (Hs s eq_refl) as (? & ? & ?). unfold P. cbn. done. }
  eapply (foldl_option_invariant P); [| |exact H].
  - intros s [= <-]. done.
  - intros [s|] j s2 Hs; [|done]. cbn [mbind option_bind]. cbv zeta.
    destruct (Double.is_finite _); [|done]. intros [= <-].
    destruct (Hs s eq_refl) as (? & ? & ?). unfold P. cbn. done.
Qed.

(** X6: when [generate_primal_dual_direction] succeeds, the primal part
    of the direction is the first block of the solution of the augmented
    system and the constraint multipliers of the direction are the
    second block with the opposite sign; the method leaves this change of
    sign in the stored solution.  The dimensions of the direction are
    those of the problem, and its objective is the one of the subproblem
    at the direction. *)
Theorem generate_primal_dual_direction_retrieves_multipliers
    (quadratic_product : vector -> vector -> double)
    (this this' : Subproblem) (problem : NonlinearProblem) (current_iterate : Iterate) :
  let n := number_variables problem in
  let m := number_constraints problem in
  generate_primal_dual_direction quadratic_product this problem current_iterate = Some this' ->
  (forall i, (i < n)%nat -> (i < length (direction_primals (direction this)))%nat ->
     direction_primals (direction this') !!! i = solution this !!! i)
  /\ (forall j, (j < m)%nat -> (n + j < length (solution this))%nat ->
        (j < length (constraints (direction_multipliers (direction this))))%nat ->
        constraints (direction_multipliers (direction this')) !!! j
        = (- solution this !!! (n + j)%nat)%D)
  /\ (forall k, (n <= k < length (solution this))%nat ->
        solution this' !!! k = (- solution this !!! k)%D)
  /\ (forall i, (i < n)%nat -> solution this' !!! i = solution this !!! i)
  /\ direction_number_variables (direction this') = n
  /\ direction_number_constraints (direction this') = m
  /\ subproblem_objective (direction this')
     = evaluate_subproblem_objective quadratic_product this'.
Proof.
  intros n m. unfold generate_primal_dual_direction. fold n m.
  set (s0 := set_direction this _).
  set (neg := fun (this0 : Subproblem) (j : nat) =>
                set_solution this0 (<[j:=(- solution this0 !!! j)%D]> (solution this0))).
  set (s1 := foldl neg s0 _).
  assert (Hdir1 : direction s1 = direction s0)
    by (unfold s1; by rewrite (foldl_frame direction)).
  assert (Hgrad1 : objective_gradient s1 = objective_gradient this)
    by (unfold s1; by rewrite (foldl_frame objective_gradient)).
  assert (Hsol1 : forall k,
            solution s1 !!! k
            = if decide (n <= k < length (solution this))%nat
              then (- solution this !!! k)%D else solution this !!! k).
  { intros k.
    destruct (foldl_component solution (fun _ => True) (fun j v => <[j:=(- v !!! j)%D]> v) neg
                (seq n (length (solution s0) - n)) s0 I) as [_ Heq]; [done|].
    unfold s1. rewrite Heq.
    destruct (foldl_insert_pointwise (fun _ a => (- a)%D) (seq n (length (solution s0) - n))
                (solution s0) k (NoDup_seq _ _)) as [_ ->].
    change (solution s0) with (solution this).
    destruct (decide (n <= k < length (solution this))%nat) as [Hk|Hk].
    - rewrite decide_True; [done|]. split; [apply elem_of_seq; lia|lia].
    - rewrite decide_False; [done|]. intros [Hin ?]. apply elem_of_seq in Hin. lia. }
  destruct (primal_fraction_to_boundary s1 problem current_iterate _) as [ap|]; [|done].
  cbn [mbind option_bind].
  set (prim := fun (this0 : Subproblem) (i : nat) =>
                 set_direction this0
                   (set_direction_primal (direction this0) i (solution this0 !!! i))).
  set (s2 := foldl prim s1 _).
  set (cons := fun (this0 : Subproblem) (j : nat) =>
                 set_direction this0
                   (set_direction_multipliers (direction this0)
                      (mkMultipliers
                         (<[j:=solution this0 !!! (n + j)%nat]>
                            (constraints (direction_multipliers (direction this0))))
                         (lower_bounds (direction_multipliers (direction this0)))
                         (upper_bounds (direction_multipliers (direction this0)))))).
  set (s3 := foldl cons s2 _).
  assert (Hsol2 : solution s2 = solution s1)
    by (unfold s2; by rewrite (foldl_frame solution)).
  assert (Hsol3 : solution s3 = solution s1)
    by (unfold s3; rewrite (foldl_frame solution) by done; exact Hsol2).
  assert (Hgrad3 : objective_gradient s3 = objective_gradient this).
  { unfold s3. rewrite (foldl_frame objective_gradient) by done.
    unfold s2. by rewrite (foldl_frame objective_gradient). }
  assert (Hdim3 : direction_number_variables (direction s3) = n
                  /\ direction_number_constraints (direction s3) = m).
  { unfold s3.
    rewrite (foldl_frame (fun s => direction_number_variables (direction s))) by done.
    rewrite (foldl_frame (fun s => direction_number_constraints (direction s))) by done.
    unfold s2.
    rewrite (foldl_frame (fun s => direction_number_variables (direction s))) by done.
    rewrite (foldl_frame (fun s => direction_number_constraints (direction s))) by done.
    by rewrite Hdir1. }
  assert (Hprim3 : forall i, (i < n)%nat ->
            (i < length (direction_primals (direction this)))%nat ->
            direction_primals (direction s3) !!! i = solution s1 !!! i).
  { intros i Hi Hlen. unfold s3.
    rewrite (foldl_frame (fun s => direction_primals (direction s))) by done.
    destruct (foldl_component (fun s => direction_primals (direction s))
                (fun s => solution s = solution s1)
                (fun i v => <[i:=solution s1 !!! i]> v) prim (seq 0 n) s1 eq_refl)
      as [_ Heq].
    { intros s i0 Hs. split; [done|]. cbn. by rewrite Hs. }
    unfold s2. rewrite Heq.
    destruct (foldl_insert_from (fun i => solution s1 !!! i) (seq 0 n)
                (direction_primals (direction s1)) i) as [_ ->].
    rewrite decide_True; [done|].
    split; [apply elem_of_seq; lia|]. rewrite Hdir1. cbn. lia. }
  assert (Hcons3 : forall j, (j < m)%nat ->
            (j < length (constraints (direction_multipliers (direction this))))%nat ->
            constraints (direction_multipliers (direction s3)) !!! j
            = solution s1 !!! (n + j)%nat).
  { intros j Hj Hlen.
    destruct (foldl_component (fun s => constraints (direction_multipliers (direction s)))
                (fun s => solution s = solution s1)
                (fun j v => <[j:=solution s1 !!! (n + j)%nat]> v) cons (seq 0 m) s2 Hsol2)
      as [_ Heq].
    { intros s j0 Hs. split; [done|]. cbn. by rewrite Hs. }
    unfold s3. rewrite Heq.
    destruct (foldl_insert_from (fun j => solution s1 !!! (n + j)%nat) (seq 0 m)
                (constraints (direction_multipliers (direction s2))) j) as [_ ->].
    rewrite decide_True; [done|]. split; [apply elem_of_seq; lia|].
    unfold s2.
    rewrite (foldl_frame (fun s => constraints (direction_multipliers (direction s)))) by done.
    by rewrite Hdir1. }
  destruct (compute_bound_dual_direction s3 problem current_iterate) as [s4|] eqn:E4; [|done].
  cbn [mbind option_bind].
  apply compute_bound_dual_direction_frame in E4 as (Hsol4 & Hdir4 & Hgrad4).
  destruct (dual_fraction_to_boundary s4 problem current_iterate _) as [ad|]; [|done].
  cbn [mbind option_bind].
  set (fin := fun (this0 : Subproblem) (i : nat) =>
                set_direction this0
                  (set_direction_multipliers (direction this0)
                     (mkMultipliers (constraints (direction_multipliers (direction this0)))
                        (<[i:=lower_delta_z this0 !!! i]>
                           (lower_bounds (direction_multipliers (direction this0))))
                        (<[i:=upper_delta_z this0 !!! i]>
                           (upper_bounds (direction_multipliers (direction this0))))))).
  set (s5 := foldl fin s4 _).
  assert (Hprim5 : direction_primals (direction s5) = direction_primals (direction s3)).
  { unfold s5. rewrite (foldl_frame (fun s => direction_primals (direction s))) by done.
    by rewrite Hdir4. }
  assert (Hcons5 : constraints (direction_multipliers (direction s5))
                   = constraints (direction_multipliers (direction s3))).
  { unfold s5.
    rewrite (foldl_frame (fun s => constraints (direction_multipliers (direction s)))) by done.
    by rewrite Hdir4. }
  assert (Hdim5 : direction_number_variables (direction s5) = n
                  /\ direction_number_constraints (direction s5) = m).
  { unfold s5.
    rewrite (foldl_frame (fun s => direction_number_variables (direction s))) by done.
    rewrite (foldl_frame (fun s => direction_number_constraints (direction s))) by done.
    by rewrite Hdir4. }
  assert (Hsol5 : solution s5 = solution s1).
  { unfold s5. rewrite (foldl_frame solution) by done. by rewrite Hsol4. }
  assert (Hgrad5 : objective_gradient s5 = objective_gradient this).
  { unfold s5. rewrite (foldl_frame objective_gradient) by done. by rewrite Hgrad4. }
  intros [= <-].
  cbn [direction set_direction direction_primals direction_multipliers solution
       direction_number_variables direction_number_constraints subproblem_objective].
  rewrite Hprim5, Hcons5, Hsol5.
  split; [|split; [|split; [|split; [|split; [|split]]]]].
  - intros i Hi Hlen. rewrite (Hprim3 i Hi Hlen), Hsol1. rewrite decide_False; [done|lia].
  - intros j Hj Hsol Hlen. rewrite (Hcons3 j Hj Hlen), Hsol1. rewrite decide_True; [done|lia].
  - intros k Hk. rewrite Hsol1. by rewrite decide_True.
  - intros i Hi. rewrite Hsol1. rewrite decide_False; [done|lia].
  - apply Hdim5.
  - apply Hdim5.
  - unfold evaluate_subproblem_objective.
    cbn [direction set_direction direction_primals objective_gradient]. done.
Qed.

Lemma generate_primal_dual_direction_retrieves_multipliers_witness :
  exists this',
    generate_primal_dual_direction (fun _ _ => Double.zero) (example_solved_subproblem (- 100))
      (one_variable_problem 0 10) (one_variable_iterate 5 1 (- 1)) = Some this'
    /\ direction_primals (direction this') !!! 0%nat = Fin (- 100)
    /\ direction_number_variables (direction this') = 1%nat.
Proof.
  destruct (generate_primal_dual_direction_spec (fun _ _ => Double.zero)
              (example_solved_subproblem (- 100)) (one_variable_problem 0 10)
              (one_variable_iterate 5 1 (- 1)) (99 / 100) (1 / 10) eq_refl eq_refl)
    as (this' & ap & ad & Heq & _); try (cbn; lia); try lra.
  - intros i Hi. apply list_elem_of_singleton in Hi as ->. cbn.
    repeat split; try done; try lia; apply bool_decide_eq_true; lra.
  - intros i Hi. apply list_elem_of_singleton in Hi as ->. cbn.
    repeat split; try done; try lia; apply bool_decide_eq_true; lra.
  - exists this'. split; [exact Heq|].
    destruct (generate_primal_dual_direction_retrieves_multipliers (fun _ _ => Double.zero)
                (example_solved_subproblem (- 100)) this' (one_variable_problem 0 10)
                (one_variable_iterate 5 1 (- 1)) Heq) as (Hp & _ & _ & _ & Hn & _).
    split; [|exact Hn]. apply (Hp 0%nat); cbn; lia.
Defined.

(** ** Elastic variables: the relaxed constraint and complementarity *)



(** ** Sums of finite terms *)

(** a loop that adds finite terms computes their sum *)
Lemma foldl_add_finite {J : Type} (term : J -> double) (t : J -> R) (l : list J) (a : R) :
  (forall i, i ∈ l -> term i = Fin (t i)) ->
  foldl (fun acc i => (acc + term i)%D) (Fin a) l = Fin (a + Rsum (t <$> l)).
Proof.
  revert a. induction l as [|i l IH]; intros a H; cbn [foldl fmap list_fmap Rsum foldr].
  - f_equal. lra.
  - rewrite (H i) by left. cbn [Double.add]. rewrite IH by (intros k Hk; apply H; by right).
    f_equal. fold (Rsum (t <$> l)). lra.
Qed.

(** a loop that subtracts finite terms *)
Lemma foldl_sub_finite {J : Type} (term : J -> double) (t : J -> R) (l : list J) (a : R) :
  (forall i, i ∈ l -> term i = Fin (t i)) ->
  foldl (fun acc i => (acc - term i)%D) (Fin a) l = Fin (a - Rsum (t <$> l)).
Proof.
  revert a. induction l as [|i l IH]; intros a H; cbn [foldl fmap list_fmap Rsum foldr].
  - f_equal. lra.
  - rewrite (H i) by left. cbn [Double.sub]. rewrite IH by (intros k Hk; apply H; by right).
    f_equal. fold (Rsum (t <$> l)). lra.
Qed.

(** NaN is absorbing in a loop of additions or subtractions *)
Lemma foldl_add_NaN {J : Type} (term : J -> double) (l : list J) :
  foldl (fun acc i => (acc + term i)%D) NaN l = NaN.
Proof. induction l as [|i l IH]; [done|]. exact IH. Qed.

Lemma foldl_sub_NaN {J : Type} (term : J -> double) (l : list J) :
  foldl (fun acc i => (acc - term i)%D) NaN l = NaN.
Proof. induction l as [|i l IH]; [done|]. exact IH. Qed.

(** one NaN term makes the result of the loop NaN *)
Lemma foldl_sub_NaN_term {J : Type} (term : J -> double) (l : list J) (a : double) (i : J) :
  i ∈ l -> term i = NaN -> foldl (fun acc i => (acc - term i)%D) a l = NaN.
Proof.
  revert a. induction l as [|k l IH]; intros a Hi Hnan; [by apply elem_of_nil in Hi|].
  cbn [foldl]. apply elem_of_cons in Hi as [<-|Hi].
  - rewrite Hnan. replace (a - NaN)%D with NaN by (by destruct a). apply foldl_sub_NaN.
  - by apply IH.
Qed.

(** ** The barrier terms of the auxiliary measure *)



(** X9: when a lower-bounded variable is below its bound, or an
    upper-bounded one above its bound, the barrier is NaN and the
    assertion of [set_auxiliary_measure] fails. *)
Theorem set_auxiliary_measure_outside
    (this : State) (problem : NonlinearProblem) (iterate : Iterate) :
  let x := fun i => primals iterate !!! i in
  (exists i, i ∈ lower_bounded_variables problem
             /\ (x i - get_variable_lower_bound problem i <? Double.zero)%D = true)
  \/ (exists i, i ∈ upper_bounded_variables problem
                /\ (get_variable_upper_bound problem i - x i <? Double.zero)%D = true) ->
  set_auxiliary_measure this problem iterate = None.
Proof.
  intros x H. unfold set_auxiliary_measure.
  assert (Hlog : forall a, (a <? Double.zero)%D = true -> Double.log a = NaN).
  { intros [| | |a]; try done. cbn. intros Ha. apply bool_decide_eq_true in Ha.
    by rewrite decide_True. }
  match goal with |- context [(?b * barrier_parameter _)%D] =>
    assert (Hb : b = NaN); [|by rewrite Hb]
  end.
  destruct H as [(i & Hi & Hlt)|(i & Hi & Hlt)].
  - rewrite (foldl_sub_NaN_term _ _ _ i Hi) by (by apply Hlog).
    by rewrite foldl_sub_NaN, !foldl_add_NaN.
  - rewrite (foldl_sub_NaN_term _ (upper_bounded_variables problem) _ i Hi)
      by (by apply Hlog).
    by rewrite !foldl_add_NaN.
Qed.

(** the point [x = -1] is below the bound 0 *)
Lemma set_auxiliary_measure_outside_witness :
  set_auxiliary_measure (example_state 0) (one_variable_problem 0 10)
    (one_variable_iterate (- 1) 1 (- 1)) = None.
Proof.
  apply (set_auxiliary_measure_outside (example_state 0) (one_variable_problem 0 10)
           (one_variable_iterate (- 1) 1 (- 1))).
  left. exists 0%nat. split; [by left|]. cbn. apply bool_decide_eq_true. lra.
Defined.

(** ** Barrier terms of the Hessian and of the objective gradient *)

Lemma is_finite_Fin (a : double) : Double.is_finite a = true -> exists r : R, a = Fin r.
Proof. destruct a; try done. by eexists. Qed.

Lemma nonnegative_times_positive (z : double) (r : R) :
  (Double.zero <=? z)%D = true -> (0 < r)%R -> (Double.zero <=? z * Fin r)%D = true.
Proof.
  destruct z as [| | |z]; try done; cbn; intros Hz Hr.
  - unfold Double.signed_inf. by rewrite decide_True.
  - apply bool_decide_eq_true. apply bool_decide_eq_true in Hz. nra.
Qed.

Lemma nonpositive_times_negative (z : double) (r : R) :
  (z <=? Double.zero)%D = true -> (r < 0)%R -> (Double.zero <=? z * Fin r)%D = true.
Proof.
  destruct z as [| | |z]; try done; cbn; intros Hz Hr.
  - unfold Double.signed_inf. rewrite decide_True by lra. done.
  - apply bool_decide_eq_true. apply bool_decide_eq_true in Hz. nra.
Qed.

Lemma nonnegative_plus_nonnegative (a b : double) :
  (Double.zero <=? a)%D = true -> (Double.zero <=? b)%D = true ->
  (Double.zero <=? a + b)%D = true.
Proof.
  destruct a as [| | |a], b as [| | |b]; try done; cbn; intros Ha Hb.
  apply bool_decide_eq_true. apply bool_decide_eq_true in Ha, Hb. lra.
Qed.

Lemma inverse_distance_value (x b : R) :
  (x <> b)%R -> (Double.one / (Fin x - Fin b))%D = Fin (1 / (x - b)).
Proof. intros H. cbn. rewrite decide_False; [done|lra]. Qed.



(** ** Sums over index lists *)

Section Sums.
Local Open Scope R_scope.

Lemma Rsum_nil : Rsum [] = 0.
Proof. reflexivity. Qed.

Lemma Rsum_cons (a : R) (l : list R) : Rsum (a :: l) = a + Rsum l.
Proof. reflexivity. Qed.

Lemma Rsum_Permutation (l1 l2 : list R) : l1 ≡ₚ l2 -> Rsum l1 = Rsum l2.
Proof.
  induction 1 as [|a l1 l2 _ IH|a b l|l1 l2 l3 _ IH1 _ IH2]; rewrite ?Rsum_cons; lra.
Qed.

Lemma Rsum_ext {J : Type} (f g : J -> R) (l : list J) :
  (forall i, i ∈ l -> f i = g i) -> Rsum (f <$> l) = Rsum (g <$> l).
Proof.
  induction l as [|i l IH]; intros H; [done|]. rewrite !fmap_cons, !Rsum_cons.
  rewrite (H i) by left. rewrite IH; [done|]. intros k Hk. apply H. by right.
Qed.

Lemma Rsum_plus {J : Type} (f g : J -> R) (l : list J) :
  Rsum ((fun i => f i + g i) <$> l) = Rsum (f <$> l) + Rsum (g <$> l).
Proof.
  induction l as [|i l IH]; [rewrite !fmap_nil, Rsum_nil; lra|].
  rewrite !fmap_cons, !Rsum_cons, IH. lra.
Qed.

Lemma Rsum_opp {J : Type} (f : J -> R) (l : list J) :
  Rsum ((fun i => - f i) <$> l) = - Rsum (f <$> l).
Proof.
  induction l as [|i l IH]; [rewrite !fmap_nil, Rsum_nil; lra|].
  rewrite !fmap_cons, !Rsum_cons, IH. lra.
Qed.

(** the sum over the indices that pass a test *)
Lemma Rsum_filter (f : nat -> R) (P : nat -> Prop) `{!forall i, Decision (P i)} (l : list nat) :
  Rsum (f <$> filter P l) = Rsum ((fun i => if decide (P i) then f i else 0) <$> l).
Proof.
  induction l as [|i l IH]; [done|].
  rewrite filter_cons, fmap_cons, Rsum_cons, <- IH.
  destruct (decide (P i)); [rewrite fmap_cons, Rsum_cons|]; lra.
Qed.

(** the sum over a list of distinct indices below [n] is a sum over all
    the indices below [n] *)
Lemma Rsum_indicator (f : nat -> R) (l : list nat) (n : nat) :
  NoDup l -> (forall i, i ∈ l -> (i < n)%nat) ->
  Rsum (f <$> l) = Rsum ((fun i => if decide (i ∈ l) then f i else 0) <$> seq 0 n).
Proof.
  intros Hnd Hlt. rewrite <- (Rsum_filter f (fun i => i ∈ l)).
  apply Rsum_Permutation, fmap_Permutation, NoDup_Permutation.
  - done.
  - apply NoDup_filter, NoDup_seq.
  - intros i. rewrite list_elem_of_filter, elem_of_seq. split.
    + intros Hi. split; [done|]. specialize (Hlt i Hi). lia.
    + by intros [? _].
Qed.
End Sums.

(** ** The directional derivative of the barrier terms *)

Section DirectionalDerivative.
Variables (this : State) (problem : NonlinearProblem) (current_iterate : Iterate)
  (direction : Direction).
Variables mu damping : R.

Local Abbreviation n := (number_variables problem).
Let x i := primals current_iterate !!! i.
Let xL i := get_variable_lower_bound problem i.
Let xU i := get_variable_upper_bound problem i.
Let d i := direction_primals direction !!! i.
Let g i := (evaluate_functions_barrier_terms this problem current_iterate i).2.

Hypothesis Hmu : barrier_parameter (subproblem this) = Fin mu.
Hypothesis Hdamping : damping_factor this = Fin damping.
Hypothesis Hlower : forall i, i ∈ lower_bounded_variables problem <->
  (i < n)%nat /\ Double.is_finite (xL i) = true.
Hypothesis Hupper : forall i, i ∈ upper_bounded_variables problem <->
  (i < n)%nat /\ Double.is_finite (xU i) = true.
Hypothesis Hsingle_lower : forall i, i ∈ single_lower_bounded_variables problem <->
  (i < n)%nat /\ Double.is_finite (xL i) = true /\ Double.is_finite (xU i) = false.
Hypothesis Hsingle_upper : forall i, i ∈ single_upper_bounded_variables problem <->
  (i < n)%nat /\ Double.is_finite (xU i) = true /\ Double.is_finite (xL i) = false.
Hypothesis Hnodup_lower : NoDup (lower_bounded_variables problem).
Hypothesis Hnodup_upper : NoDup (upper_bounded_variables problem).
Hypothesis Hnodup_single_lower : NoDup (single_lower_bounded_variables problem).
Hypothesis Hnodup_single_upper : NoDup (single_upper_bounded_variables problem).
Hypothesis Hfinite : forall i, (i < n)%nat ->
  Double.is_finite (x i) = true /\ Double.is_finite (d i) = true.
Hypothesis Hdistance_lower : forall i, i ∈ lower_bounded_variables problem -> x i <> xL i.
Hypothesis Hdistance_upper : forall i, i ∈ upper_bounded_variables problem -> x i <> xU i.

Let a i := (- mu / (Double.to_R (x i) - Double.to_R (xL i)))%R.
Let b i := (- mu / (Double.to_R (x i) - Double.to_R (xU i)))%R.

Local Lemma lower_term (i : nat) :
  i ∈ lower_bounded_variables problem ->
  (- barrier_parameter (subproblem this) / (x i - xL i) * d i)%D
  = Fin (a i * Double.to_R (d i)).
Proof.
  intros Hi. pose proof (Hdistance_lower i Hi) as Hne. apply Hlower in Hi as [Hi Hl].
  destruct (Hfinite i Hi) as [Hx Hd]. rewrite Hmu. unfold a.
  destruct (x i) as [| | |xr], (xL i) as [| | |l], (d i) as [| | |dr]; try done.
  cbn. rewrite decide_False; [done|]. intros H. apply Hne. f_equal. lra.
Qed.

Local Lemma upper_term (i : nat) :
  i ∈ upper_bounded_variables problem ->
  (- barrier_parameter (subproblem this) / (x i - xU i) * d i)%D
  = Fin (b i * Double.to_R (d i)).
Proof.
  intros Hi. pose proof (Hdistance_upper i Hi) as Hne. apply Hupper in Hi as [Hi Hu].
  destruct (Hfinite i Hi) as [Hx Hd]. rewrite Hmu. unfold b.
  destruct (x i) as [| | |xr], (xU i) as [| | |u], (d i) as [| | |dr]; try done.
  cbn. rewrite decide_False; [done|]. intros H. apply Hne. f_equal. lra.
Qed.

Local Lemma damping_term (i : nat) :
  (i < n)%nat ->
  (damping_factor this * barrier_parameter (subproblem this) * d i)%D
  = Fin (damping * mu * Double.to_R (d i)).
Proof.
  intros Hi. destruct (Hfinite i Hi) as [_ Hd]. rewrite Hmu, Hdamping.
  by destruct (d i).
Qed.

(** the directional derivative as four sums *)
Local Lemma directional_derivative_sums :
  compute_barrier_term_directional_derivative this problem current_iterate direction
  = Fin (Rsum ((fun i => a i * Double.to_R (d i)) <$> lower_bounded_variables problem)
         + Rsum ((fun i => b i * Double.to_R (d i)) <$> upper_bounded_variables problem)
         + Rsum ((fun i => damping * mu * Double.to_R (d i))
                 <$> single_lower_bounded_variables problem)
         - Rsum ((fun i => damping * mu * Double.to_R (d i))
                 <$> single_upper_bounded_variables problem))%R.
Proof.
  unfold compute_barrier_term_directional_derivative, Double.zero.
  rewrite (foldl_add_finite _ (fun i => a i * Double.to_R (d i))%R)
    by (intros i Hi; by apply lower_term).
  rewrite (foldl_add_finite _ (fun i => b i * Double.to_R (d i))%R)
    by (intros i Hi; by apply upper_term).
  rewrite (foldl_add_finite _ (fun i => damping * mu * Double.to_R (d i))%R)
    by (intros i Hi; apply damping_term; by apply Hsingle_lower in Hi as [? _]).
  rewrite (foldl_sub_finite _ (fun i => damping * mu * Double.to_R (d i))%R)
    by (intros i Hi; apply damping_term; by apply Hsingle_upper in Hi as [? _]).
  f_equal. lra.
Qed.

(** the barrier term of the objective gradient, variable by variable *)
Local Lemma objective_barrier_term_value (i : nat) :
  (i < n)%nat ->
  g i = Fin ((if decide (i ∈ lower_bounded_variables problem) then a i else 0)
             + (if decide (i ∈ upper_bounded_variables problem) then b i else 0)
             + (if decide (i ∈ single_lower_bounded_variables problem) then damping * mu else 0)
             - (if decide (i ∈ single_upper_bounded_variables problem) then damping * mu else 0))%R.
Proof.
  intros Hi. unfold g, evaluate_functions_barrier_terms. rewrite Hmu, Hdamping.
  fold (x i) (xL i) (xU i). destruct (Hfinite i Hi) as [Hx _].
  pose proof (Hlower i) as HL. pose proof (Hupper i) as HU.
  pose proof (Hsingle_lower i) as HSL. pose proof (Hsingle_upper i) as HSU.
  pose proof (Hdistance_lower i) as HdL. pose proof (Hdistance_upper i) as HdU.
  unfold a, b.
  destruct (x i) as [| | |xr]; try done.
  destruct (Double.is_finite (xL i)) eqn:Hl; destruct (Double.is_finite (xU i)) eqn:Hu;
    cbn [negb snd].
  - rewrite (decide_True (P := i ∈ lower_bounded_variables problem)) by (by apply HL).
    rewrite (decide_True (P := i ∈ upper_bounded_variables problem)) by (by apply HU).
    rewrite (decide_False (P := i ∈ single_lower_bounded_variables problem))
      by (rewrite HSL; by intros (_ & _ & ?)).
    rewrite (decide_False (P := i ∈ single_upper_bounded_variables problem))
      by (rewrite HSU; by intros (_ & _ & ?)).
    destruct (xL i) as [| | |l]; try done. destruct (xU i) as [| | |u]; try done.
    assert (xr <> l) by (intros ->; by apply HdL; [apply HL|]).
    assert (xr <> u) by (intros ->; by apply HdU; [apply HU|]).
    rewrite !inverse_distance_value by done. cbn. f_equal. field. lra.
  - rewrite (decide_True (P := i ∈ lower_bounded_variables problem)) by (by apply HL).
    rewrite (decide_False (P := i ∈ upper_bounded_variables problem))
      by (rewrite HU; intros [_ ?]; congruence).
    rewrite (decide_True (P := i ∈ single_lower_bounded_variables problem)) by (by apply HSL).
    rewrite (decide_False (P := i ∈ single_upper_bounded_variables problem))
      by (rewrite HSU; intros (_ & ? & _); congruence).
    destruct (xL i) as [| | |l]; try done.
    assert (xr <> l) by (intros ->; by apply HdL; [apply HL|]).
    rewrite !inverse_distance_value by done. cbn. f_equal. field. lra.
  - rewrite (decide_False (P := i ∈ lower_bounded_variables problem))
      by (rewrite HL; intros [_ ?]; congruence).
    rewrite (decide_True (P := i ∈ upper_bounded_variables problem)) by (by apply HU).
    rewrite (decide_False (P := i ∈ single_lower_bounded_variables problem))
      by (rewrite HSL; intros (_ & ? & _); congruence).
    rewrite (decide_True (P := i ∈ single_upper_bounded_variables problem)) by (by apply HSU).
    destruct (xU i) as [| | |u]; try done.
    assert (xr <> u) by (intros ->; by apply HdU; [apply HU|]).
    rewrite !inverse_distance_value by done. cbn. f_equal. field. lra.
  - rewrite (decide_False (P := i ∈ lower_bounded_variables problem))
      by (rewrite HL; intros [_ ?]; congruence).
    rewrite (decide_False (P := i ∈ upper_bounded_variables problem))
      by (rewrite HU; intros [_ ?]; congruence).
    rewrite (decide_False (P := i ∈ single_lower_bounded_variables problem))
      by (rewrite HSL; intros (_ & ? & _); congruence).
    rewrite (decide_False (P := i ∈ single_upper_bounded_variables problem))
      by (rewrite HSU; intros (_ & ? & _); congruence).
    cbn. f_equal. lra.
Qed.

Lemma barrier_directional_derivative_spec :
  (forall i, (i < n)%nat -> Double.is_finite (g i) = true)
  /\ compute_barrier_term_directional_derivative this problem current_iterate direction
     = Fin (Rsum ((fun i => (Double.to_R (g i) * Double.to_R (d i))%R) <$> seq 0 n)).
Proof.
  split; [intros i Hi; by rewrite objective_barrier_term_value|].
  rewrite directional_derivative_sums. f_equal.
  rewrite (Rsum_indicator _ (lower_bounded_variables problem) n)
    by (done || (intros i Hi; by apply Hlower in Hi as [? _])).
  rewrite (Rsum_indicator _ (upper_bounded_variables problem) n)
    by (done || (intros i Hi; by apply Hupper in Hi as [? _])).
  rewrite (Rsum_indicator _ (single_lower_bounded_variables problem) n)
    by (done || (intros i Hi; by apply Hsingle_lower in Hi as [? _])).
  rewrite (Rsum_indicator _ (single_upper_bounded_variables problem) n)
    by (done || (intros i Hi; by apply Hsingle_upper in Hi as [? _])).
  unfold Rminus. rewrite <- Rsum_opp, <- !Rsum_plus. apply Rsum_ext. intros i Hi.
  apply elem_of_seq in Hi. rewrite objective_barrier_term_value by lia. cbn [Double.to_R].
  repeat destruct (decide _); lra.
Qed.
End DirectionalDerivative.



(** ** The right-hand side of the augmented system *)

Lemma Rsum_app (l1 l2 : list R) : Rsum (l1 ++ l2) = (Rsum l1 + Rsum l2)%R.
Proof.
  induction l1 as [|a l1 IH]; cbn [app]; [rewrite Rsum_nil; lra|].
  rewrite !Rsum_cons, IH. lra.
Qed.

(** an entry read beyond the end of a vector *)
Lemma lookup_total_beyond (v : vector) (k : nat) : (length v <= k)%nat -> v !!! k = NaN.
Proof. intros H. rewrite list_lookup_total_alt, lookup_ge_None_2; done. Qed.

(** [for_each] over a sparse vector with an update of [rhs] entry by entry *)
Lemma map_fold_rhs (op : double -> double -> double) (this : State) (row : SparseVector) :
  (forall d, op NaN d = NaN) ->
  let s := map_fold (fun i derivative this =>
                       set_rhs this (<[i:=op (rhs this !!! i) derivative]> (rhs this)))
                    this row in
  s = set_rhs this (rhs s)
  /\ length (rhs s) = length (rhs this)
  /\ forall k, rhs s !!! k
               = match row !! k with
                 | Some d => op (rhs this !!! k) d
                 | None => rhs this !!! k
                 end.
Proof.
  intros Hop. cbv zeta.
  apply (map_fold_weak_ind
    (fun (s : State) (row : SparseVector) =>
       s = set_rhs this (rhs s)
       /\ length (rhs s) = length (rhs this)
       /\ forall k, rhs s !!! k
                    = match row !! k with
                      | Some d => op (rhs this !!! k) d
                      | None => rhs this !!! k
                      end)).
  - split; [by destruct this|]. split; [done|]. intros k. by rewrite lookup_empty.
  - intros i d row' s Hi (Hs & Hlen & Hval). cbn [rhs set_rhs].
    split; [rewrite Hs; reflexivity|]. split; [by rewrite length_insert|].
    intros k. destruct (decide (k = i)) as [->|Hne].
    + rewrite lookup_insert_eq. pose proof (Hval i) as Hvi. rewrite Hi in Hvi.
      destruct (decide (i < length (rhs s))%nat) as [Hlt|Hge].
      * rewrite list_lookup_total_insert_eq by done. by rewrite Hvi.
      * rewrite list_insert_ge by lia. rewrite Hvi.
        rewrite (lookup_total_beyond (rhs this)) by lia. by rewrite Hop.
    + rewrite lookup_insert_ne by done. rewrite list_lookup_total_insert_ne by done.
      apply Hval.
Qed.

Section AugmentedRhs.
Variables (this : State) (problem : NonlinearProblem) (current_iterate : Iterate).

Local Abbreviation n := (number_variables problem).
Local Abbreviation m := (number_constraints problem).
Let lambda j := constraints (multipliers current_iterate) !!! j.
Let c j := constraint_values (subproblem this) !!! j.

Hypothesis Hlength : (n + m <= length (rhs this))%nat.
Hypothesis Hgradient : forall i d, objective_gradient (subproblem this) !! i = Some d ->
  (i < n)%nat /\ Double.is_finite d = true.
Hypothesis Hjacobian : forall j i d, (j < m)%nat ->
  (constraint_jacobian this !!! j) !! i = Some d -> (i < n)%nat /\ Double.is_finite d = true.
Hypothesis Hlambda : forall j, (j < m)%nat -> Double.is_finite (lambda j) = true.
Hypothesis Hc : forall j, (j < m)%nat -> Double.is_finite (c j) = true.

(** the state of the loop over the constraints after the constraints of
    [done] *)
Let invariant (done : list nat) (s : State) : Prop :=
  s = set_rhs this (rhs s)
  /\ length (rhs s) = length (rhs this)
  /\ (forall i, (i < n)%nat ->
        rhs s !!! i
        = Fin (- Double.to_R (sparse_at (objective_gradient (subproblem this)) i)
               + Rsum ((fun j => Double.to_R (lambda j)
                                 * Double.to_R (sparse_at (constraint_jacobian this !!! j) i))%R
                       <$> done)))
  /\ (forall j, j ∈ done -> rhs s !!! (n + j)%nat = Fin (- Double.to_R (c j)))
  /\ (forall k, (n <= k < length (rhs this))%nat -> (k - n)%nat ∉ done ->
        rhs s !!! k = Double.zero).

Local Lemma invariant_entry :
  invariant []
    (map_fold (fun i derivative this =>
                 set_rhs this (<[i:=(rhs this !!! i - derivative)%D]> (rhs this)))
       (set_rhs this (initialize_vector (rhs this) Double.zero))
       (objective_gradient (subproblem this))).
Proof.
  destruct (map_fold_rhs (fun v d => (v - d)%D)
              (set_rhs this (initialize_vector (rhs this) Double.zero))
              (objective_gradient (subproblem this))) as (Hs & Hlen & Hval); [done|].
  cbn [rhs set_rhs] in Hlen, Hval. unfold initialize_vector in Hlen, Hval.
  rewrite length_replicate in Hlen.
  split; [rewrite Hs; reflexivity|]. split; [done|]. split; [|split].
  - intros i Hi. rewrite Hval. rewrite lookup_total_replicate_2 by lia.
    unfold sparse_at. rewrite fmap_nil, Rsum_nil.
    destruct (objective_gradient (subproblem this) !! i) as [d|] eqn:Hd; cbn [default].
    + destruct (Hgradient i d Hd) as [_ Hfin]. destruct d; try done. cbn. f_equal. lra.
    + cbn. f_equal. lra.
  - intros j Hj. by apply elem_of_nil in Hj.
  - intros k Hk _. rewrite Hval. rewrite lookup_total_replicate_2 by lia.
    destruct (objective_gradient (subproblem this) !! k) as [d|] eqn:Hd; [|done].
    destruct (Hgradient k d Hd) as [? _]. lia.
Qed.

Local Lemma invariant_step (done : list nat) (j : nat) (s : State) :
  (j < m)%nat -> invariant done s ->
  invariant (done ++ [j])
    (set_rhs
       (if Double.neb (constraints (multipliers current_iterate) !!! j) Double.zero then
          map_fold (fun i derivative this =>
                      set_rhs this
                        (<[i:=(rhs this !!! i
                               + constraints (multipliers current_iterate) !!! j
                                 * derivative)%D]> (rhs this)))
                   s (constraint_jacobian s !!! j)
        else s)
       (<[(n + j)%nat:=(- constraint_values (subproblem
            (if Double.neb (constraints (multipliers current_iterate) !!! j) Double.zero then
               map_fold (fun i derivative this =>
                           set_rhs this
                             (<[i:=(rhs this !!! i
                                    + constraints (multipliers current_iterate) !!! j
                                      * derivative)%D]> (rhs this)))
                        s (constraint_jacobian s !!! j)
             else s)) !!! j)%D]>
          (rhs (if Double.neb (constraints (multipliers current_iterate) !!! j) Double.zero then
                  map_fold (fun i derivative this =>
                              set_rhs this
                                (<[i:=(rhs this !!! i
                                       + constraints (multipliers current_iterate) !!! j
                                         * derivative)%D]> (rhs this)))
                           s (constraint_jacobian s !!! j)
                else s)))).
Proof.
  intros Hj (Hs & Hlen & Hgrad & Hdone & Hzero).
  fold (lambda j).
  assert (Hrow : constraint_jacobian s = constraint_jacobian this) by (by rewrite Hs).
  rewrite Hrow. set (row := constraint_jacobian this !!! j).
  set (s1 := if Double.neb (lambda j) Double.zero then _ else s).
  assert (H1 : s1 = set_rhs this (rhs s1)
               /\ length (rhs s1) = length (rhs this)
               /\ (forall i, (i < n)%nat ->
                     rhs s1 !!! i
                     = Fin (Double.to_R (rhs s !!! i)
                            + Double.to_R (lambda j) * Double.to_R (sparse_at row i)))
               /\ (forall k, (n <= k)%nat -> rhs s1 !!! k = rhs s !!! k)).
  { pose proof (Hlambda j Hj) as Hl.
    destruct (map_fold_rhs (fun v d => (v + lambda j * d)%D) s row) as (Hs1 & Hlen1 & Hval1);
      [done|].
    assert (Hentry : forall i d, row !! i = Some d -> (i < n)%nat /\ Double.is_finite d = true)
      by (intros i d; by apply Hjacobian).
    unfold s1. destruct (Double.neb (lambda j) Double.zero) eqn:Hneb.
    - split; [rewrite Hs1, Hs; reflexivity|]. split; [by rewrite Hlen1|]. split.
      + intros i Hi. rewrite Hval1, (Hgrad i Hi). unfold sparse_at.
        destruct (row !! i) as [d|] eqn:Hd; cbn [default Double.to_R].
        * destruct (Hentry i d Hd) as [_ Hfin]. destruct d; try done.
          by destruct (lambda j).
        * cbn. f_equal. lra.
      + intros k Hk. rewrite Hval1. destruct (row !! k) as [d|] eqn:Hd; [|done].
        destruct (Hentry k d Hd) as [? _]. lia.
    - split; [done|]. split; [done|]. split; [|done].
      intros i Hi. rewrite (Hgrad i Hi). cbn [Double.to_R].
      destruct (lambda j) as [| | |l]; try done. cbn in Hneb.
      apply negb_false_iff, bool_decide_eq_true in Hneb. subst l. cbn [Double.to_R].
      f_equal. lra. }
  destruct H1 as (Hs1 & Hlen1 & Hgrad1 & Hrest1).
  assert (Hc1 : constraint_values (subproblem s1) = constraint_values (subproblem this))
    by (by rewrite Hs1).
  rewrite Hc1. fold (c j). unfold invariant. cbn [set_rhs rhs].
  split; [rewrite Hs1; reflexivity|]. split; [by rewrite length_insert|].
  split; [|split].
  - intros i Hi. rewrite list_lookup_total_insert_ne by lia.
    rewrite (Hgrad1 i Hi), (Hgrad i Hi). cbn [Double.to_R].
    rewrite fmap_app, Rsum_app, fmap_cons, fmap_nil, Rsum_cons, Rsum_nil. f_equal.
    unfold row. lra.
  - intros j' Hj'. apply elem_of_app in Hj' as [Hj'|Hj'].
    + destruct (decide (j' = j)) as [->|Hne].
      * rewrite list_lookup_total_insert_eq by lia.
        pose proof (Hc j Hj) as Hfin. by destruct (c j).
      * rewrite list_lookup_total_insert_ne by lia. rewrite Hrest1 by lia. by apply Hdone.
    + apply list_elem_of_singleton in Hj' as ->.
      rewrite list_lookup_total_insert_eq by lia.
      pose proof (Hc j Hj) as Hfin. by destruct (c j).
  - intros k Hk Hnot. apply not_elem_of_app in Hnot as [Hnot Hkj].
    rewrite list_elem_of_singleton in Hkj.
    rewrite list_lookup_total_insert_ne by lia. rewrite Hrest1 by lia. by apply Hzero.
Qed.

Lemma generate_augmented_rhs_spec :
  let s := generate_augmented_rhs this problem current_iterate in
  s = set_rhs this (rhs s)
  /\ length (rhs s) = length (rhs this)
  /\ (forall i, (i < n)%nat ->
        rhs s !!! i
        = Fin (- Double.to_R (sparse_at (objective_gradient (subproblem this)) i)
               + Rsum ((fun j => Double.to_R (lambda j)
                                 * Double.to_R (sparse_at (constraint_jacobian this !!! j) i))%R
                       <$> seq 0 m)))
  /\ (forall j, (j < m)%nat -> rhs s !!! (n + j)%nat = Fin (- Double.to_R (c j)))
  /\ (forall k, (n + m <= k < length (rhs this))%nat -> rhs s !!! k = Double.zero).
Proof.
  cbv zeta. unfold generate_augmented_rhs.
  match goal with |- context [foldl ?f ?s0 ?l] =>
    pose proof (foldl_invariant_done invariant f l s0 invariant_entry) as H
  end.
  destruct H as (Hs & Hlen & Hgrad & Hdone & Hzero).
  { intros done j s Hj Hinv. apply elem_of_seq in Hj. apply invariant_step; [lia|done]. }
  split; [exact Hs|]. split; [exact Hlen|]. split; [exact Hgrad|]. split.
  - intros j Hj. apply Hdone. apply elem_of_seq. lia.
  - intros k Hk. apply Hzero; [lia|]. rewrite elem_of_seq. lia.
Qed.
End AugmentedRhs.

(** X12: for finite data whose gradient and Jacobian entries are about
    the variables of the problem, [generate_augmented_rhs] writes
    [- grad f + J^T lambda] in the first [n] entries of the right-hand
    side and [- c] in the next [m] entries, sets the remaining entries to
    0, and changes no other member of the subproblem. *)
Theorem generate_augmented_rhs_residual
    (this : State) (problem : NonlinearProblem) (current_iterate : Iterate) :
  let n := number_variables problem in
  let m := number_constraints problem in
  let lambda := fun j => Double.to_R (constraints (multipliers current_iterate) !!! j) in
  let c := fun j => Double.to_R (constraint_values (subproblem this) !!! j) in
  let gradient := fun i => Double.to_R (sparse_at (objective_gradient (subproblem this)) i) in
  let jacobian := fun j i => Double.to_R (sparse_at (constraint_jacobian this !!! j) i) in
  let this' := generate_augmented_rhs this problem current_iterate in
  (n + m <= length (rhs this))%nat ->
  (forall i d, objective_gradient (subproblem this) !! i = Some d ->
     (i < n)%nat /\ Double.is_finite d = true) ->
  (forall j i d, (j < m)%nat -> (constraint_jacobian this !!! j) !! i = Some d ->
     (i < n)%nat /\ Double.is_finite d = true) ->
  (forall j, (j < m)%nat ->
     Double.is_finite (constraints (multipliers current_iterate) !!! j) = true) ->
  (forall j, (j < m)%nat ->
     Double.is_finite (constraint_values (subproblem this) !!! j) = true) ->
  this' = set_rhs this (rhs this')
  /\ length (rhs this') = length (rhs this)
  /\ (forall i, (i < n)%nat ->
        rhs this' !!! i
        = Fin (- gradient i + Rsum ((fun j => (lambda j * jacobian j i)%R) <$> seq 0 m)))
  /\ (forall j, (j < m)%nat -> rhs this' !!! (n + j)%nat = Fin (- c j))
  /\ (forall k, (n + m <= k < length (rhs this))%nat -> rhs this' !!! k = Double.zero).
Proof.
  intros n m lambda c gradient jacobian this' Hlen Hg Hj Hl Hc.
  exact (generate_augmented_rhs_spec this problem current_iterate Hlen Hg Hj Hl Hc).
Qed.

(** one variable, one constraint: the gradient 3, the Jacobian 2, the
    multiplier 5 and the constraint value 4 *)
Lemma generate_augmented_rhs_residual_witness :
  let this :=
    mkState
      (mkSubproblem (Fin (1 / 10)) (Fin (1 / 10)) Double.one
         (example_parameters (1 / 100) (1 / 100)) false false [Fin 4] {[0%nat := Fin 3]}
         [] [] [] example_direction)
      (Fin (1 / 100000)) [Fin 7; Fin 7] [{[0%nat := Fin 2]}] 0 in
  let problem :=
    mkNonlinearProblem 1 1 [] [] [] [] [] (fun _ => NInf) (fun _ => PInf) [] (fun _ => []) in
  let current_iterate :=
    mkIterate [Fin 0] (mkMultipliers [Fin 5] [Fin 0] [Fin 0]) [] false false false in
  rhs (generate_augmented_rhs this problem current_iterate) !!! 1%nat
  = Fin (- Double.to_R (constraint_values (subproblem this) !!! 0%nat)).
Proof.
  intros this problem current_iterate.
  destruct (generate_augmented_rhs_residual this problem current_iterate)
    as (_ & _ & _ & Hc & _).
  - cbn. lia.
  - intros i d Hd. cbn in Hd. apply lookup_singleton_Some in Hd as [<- <-]. split; [cbn; lia|done].
  - intros j i d Hj Hd. cbn in Hj. assert (j = 0%nat) as -> by lia. cbn in Hd.
    apply lookup_singleton_Some in Hd as [<- <-]. split; [cbn; lia|done].
  - intros j Hj. cbn in Hj. assert (j = 0%nat) as -> by lia. done.
  - intros j Hj. cbn in Hj. assert (j = 0%nat) as -> by lia. done.
  - apply (Hc 0%nat). cbn. lia.
Defined.

(** ** Second-order correction *)

(** a loop that rewrites one entry of [rhs] in each iteration *)
Lemma foldl_set_rhs (idx : nat -> nat) (upd : Subproblem -> nat -> double -> double)
    (l : list nat) (s : State) :
  foldl (fun this j =>
           set_rhs this (<[idx j:=upd (subproblem this) j (rhs this !!! idx j)]> (rhs this)))
        s l
  = set_rhs s (foldl (fun v j => <[idx j:=upd (subproblem s) j (v !!! idx j)]> v) (rhs s) l).
Proof.
  revert s. induction l as [|j l IH]; intros s; cbn [foldl]; [by destruct s|].
  rewrite IH. reflexivity.
Qed.

(** a loop over the constraints that rewrites the entries of the
    constraint block from the entries themselves *)
Lemma foldl_insert_block (n m : nat) (g : nat -> double -> double) (v : vector) :
  (forall j, g j NaN = NaN) ->
  let v' := foldl (fun v j => <[(n + j)%nat:=g j (v !!! (n + j)%nat)]> v) v (seq 0 m) in
  length v' = length v
  /\ (forall j, (j < m)%nat -> v' !!! (n + j)%nat = g j (v !!! (n + j)%nat))
  /\ (forall k, ~ (n <= k < n + m)%nat -> v' !!! k = v !!! k).
Proof.
  intros Hg v'.
  assert (Heq : foldl (fun v j => <[(n + j)%nat:=g j (v !!! (n + j)%nat)]> v) v (seq 0 m)
                = foldl (fun v i => <[i:=g (i - n)%nat (v !!! i)]> v) v (seq n m)).
  { clear v'. replace (seq n m) with ((fun j => (n + j)%nat) <$> seq 0 m)
      by (rewrite fmap_add_seq; f_equal; lia).
    generalize (seq 0 m). intros l. revert v. induction l as [|j l IH]; intros v; [done|].
    cbn [foldl fmap list_fmap]. rewrite <- IH.
    by replace (n + j - n)%nat with j by lia. }
  pose proof (fun k => foldl_insert_pointwise (fun i => g (i - n)%nat) (seq n m) v k
                         (NoDup_seq _ _)) as H.
  unfold v'. rewrite Heq. split; [apply (H 0%nat)|]. split.
  - intros j Hj. destruct (H (n + j)%nat) as [_ ->].
    replace (n + j - n)%nat with j by lia.
    destruct (decide _) as [_|Hn]; [done|].
    rewrite lookup_total_beyond; [by rewrite Hg|].
    destruct (decide (n + j < length v)%nat); [|lia].
    exfalso. apply Hn. split; [apply elem_of_seq; lia|done].
  - intros k Hk. destruct (H k) as [_ ->]. rewrite decide_False; [done|].
    intros [Hin _]. apply elem_of_seq in Hin. lia.
Qed.

(** X13: [compute_second_order_correction] multiplies the constraint
    block of the right-hand side by the primal step length and subtracts
    the constraints of the trial iterate from it, leaves the other
    entries as they are, then solves with this right-hand side, counts
    one more subproblem and generates the direction at the trial
    iterate. *)
Theorem compute_second_order_correction_rhs
    (quadratic_product : vector -> vector -> double)
    (problem_evaluate_constraints : NonlinearProblem -> Iterate -> Iterate * vector)
    (augmented_system_solve : vector -> vector)
    (this : State) (problem : NonlinearProblem) (trial_iterate : Iterate)
    (primal_step_length : double) :
  let n := number_variables problem in
  let m := number_constraints problem in
  let trial_iterate' := (problem_evaluate_constraints problem trial_iterate).1 in
  let trial_constraints := (problem_evaluate_constraints problem trial_iterate).2 in
  exists rhs' : vector,
    length rhs' = length (rhs this)
    /\ (forall j, (j < m)%nat ->
          rhs' !!! (n + j)%nat
          = (rhs this !!! (n + j)%nat * primal_step_length - trial_constraints !!! j)%D)
    /\ (forall k, ~ (n <= k < n + m)%nat -> rhs' !!! k = rhs this !!! k)
    /\ compute_second_order_correction quadratic_product problem_evaluate_constraints
         augmented_system_solve this problem trial_iterate primal_step_length
       = base ← generate_primal_dual_direction quadratic_product
                  (set_solution (set_constraint_values (subproblem this) trial_constraints)
                     (augmented_system_solve rhs'))
                  problem trial_iterate';
         Some (mkState base (damping_factor this) rhs' (constraint_jacobian this)
                 (S (number_subproblems_solved this)),
               trial_iterate').
Proof.
  intros n m trial_iterate' trial_constraints.
  unfold compute_second_order_correction. fold n m.
  rewrite (foldl_set_rhs (fun j => (n + j)%nat) (fun _ _ a => (a * primal_step_length)%D)).
  set (v1 := foldl _ (rhs this) (seq 0 m)).
  destruct (foldl_insert_block n m (fun _ a => (a * primal_step_length)%D) (rhs this))
    as (Hlen1 & Hin1 & Hout1); [done|]. fold v1 in Hlen1, Hin1, Hout1.
  unfold trial_iterate', trial_constraints.
  destruct (problem_evaluate_constraints problem trial_iterate) as [it' c']. cbn [fst snd].
  rewrite (foldl_set_rhs (fun j => (n + j)%nat)
             (fun s j a => (a - constraint_values s !!! j)%D)).
  cbn [subproblem set_subproblem set_rhs rhs constraint_values set_constraint_values
       damping_factor constraint_jacobian number_subproblems_solved].
  set (v2 := foldl _ v1 (seq 0 m)).
  destruct (foldl_insert_block n m (fun j a => (a - c' !!! j)%D) v1)
    as (Hlen2 & Hin2 & Hout2); [done|]. fold v2 in Hlen2, Hin2, Hout2.
  exists v2. split; [by rewrite Hlen2|]. split; [|split].
  - intros j Hj. by rewrite Hin2, Hin1.
  - intros k Hk. by rewrite Hout2, Hout1.
  - reflexivity.
Qed.

(** ** Small steps *)

Lemma norm_inf_range_fmap (f : nat -> double) (l : list nat) :
  norm_inf_range f l = norm_inf (f <$> l).
Proof.
  unfold norm_inf_range, norm_inf. generalize Double.zero.
  induction l as [|i l IH]; intros a; [done|]. cbn [foldl fmap list_fmap]. apply IH.
Qed.

(** X14: for finite data, [is_small_step] holds exactly when the
    threshold [small_direction_factor * epsilon] is positive and every
    [|d_i| / (1 + |x_i|)] is below it. *)
Theorem is_small_step_relative_size
    (this : State) (problem : NonlinearProblem) (current_iterate : Iterate)
    (direction : Direction) (factor : R) :
  let n := number_variables problem in
  let x := fun i => Double.to_R (primals current_iterate !!! i) in
  let d := fun i => Double.to_R (direction_primals direction !!! i) in
  small_direction_factor (parameters (subproblem this)) = Fin factor ->
  (forall i, (i < n)%nat ->
     Double.is_finite (primals current_iterate !!! i) = true
     /\ Double.is_finite (direction_primals direction !!! i) = true) ->
  is_small_step this problem current_iterate direction = true
  <-> (0 < factor / 2 ^ 52)%R
      /\ forall i, (i < n)%nat -> (Rabs (d i) / (1 + Rabs (x i)) < factor / 2 ^ 52)%R.
Proof.
  intros n x d Hfactor Hfin. unfold is_small_step. rewrite Hfactor, norm_inf_range_fmap.
  fold n. unfold machine_epsilon. cbn [Double.mul].
  set (f := fun i => (direction_primals direction !!! i
                      / (Double.one + Double.abs (primals current_iterate !!! i)))%D).
  assert (Hf : forall i, (i < n)%nat -> f i = Fin (d i / (1 + Rabs (x i)))).
  { intros i Hi. destruct (Hfin i Hi) as [Hx Hd]. unfold f, x, d.
    destruct (primals current_iterate !!! i) as [| | |xr]; try done.
    destruct (direction_primals direction !!! i) as [| | |dr]; try done.
    cbn. pose proof (Rabs_pos xr). rewrite decide_False by lra. done. }
  assert (Habs : forall i, Rabs (d i / (1 + Rabs (x i))) = (Rabs (d i) / (1 + Rabs (x i)))%R).
  { intros i. pose proof (Rabs_pos (x i)).
    unfold Rdiv. rewrite Rabs_mult, Rabs_inv. by rewrite (Rabs_pos_eq (1 + Rabs (x i))) by lra. }
  destruct (norm_inf_finite (f <$> seq 0 n)) as (nrm & -> & Hpos & Hall & Hex).
  { apply Forall_fmap, Forall_forall. intros i Hi. apply elem_of_seq in Hi. cbn.
    by rewrite Hf by lia. }
  cbn [Double.ltb]. rewrite bool_decide_eq_true.
  replace (factor * / 2 ^ 52)%R with (factor / 2 ^ 52)%R by (unfold Rdiv; ring).
  split.
  - intros Hlt. split; [lra|]. intros i Hi. rewrite <- Habs.
    eapply Rle_lt_trans; [|exact Hlt]. apply Hall. rewrite <- Hf by done.
    apply list_elem_of_fmap. exists i. split; [done|]. apply elem_of_seq. lia.
  - intros [H0 Hi]. destruct Hex as [->|(c & Hc & ->)]; [done|].
    apply list_elem_of_fmap in Hc as (i & Hci & Hin). apply elem_of_seq in Hin.
    rewrite Hf in Hci by lia. injection Hci as ->. rewrite Habs. apply Hi. lia.
Qed.

Lemma is_small_step_relative_size_witness :
  is_small_step (example_state 0) (one_variable_problem 0 10) (one_variable_iterate 5 1 (- 1))
    (one_variable_direction 0) = true
  <-> (0 < 10 / 2 ^ 52)%R
      /\ forall i, (i < 1)%nat ->
           (Rabs (Double.to_R (direction_primals (one_variable_direction 0) !!! i))
            / (1 + Rabs (Double.to_R (primals (one_variable_iterate 5 1 (- 1)) !!! i)))
            < 10 / 2 ^ 52)%R.
Proof.
  apply (is_small_step_relative_size (example_state 0) (one_variable_problem 0 10)
           (one_variable_iterate 5 1 (- 1)) (one_variable_direction 0) 10 eq_refl).
  intros i Hi. cbn in Hi. assert (i = 0%nat) as -> by lia. done.
Defined.

(** ** Elastic variables of the active-set methods *)

(** X15: the [set_elastic_variable_values] of the inequality-constrained
    methods never fails; it sets every elastic variable to 0 and its
    lower-bound multiplier to 1, and changes nothing else. *)
Theorem inequality_constrained_set_elastic_variable_values
    (problem : l1RelaxedProblem) (current_iterate : Iterate) :
  let elastic_indices := (elastic_variables problem).*1.*2 in
  exists iterate,
    InequalityConstrainedMethod.set_elastic_variable_values problem current_iterate
    = Some iterate
    /\ length (primals iterate) = length (primals current_iterate)
    /\ length (lower_bounds (multipliers iterate))
       = length (lower_bounds (multipliers current_iterate))
    /\ (forall e, e ∈ elastic_indices ->
          ((e < length (primals current_iterate))%nat -> primals iterate !!! e = Double.zero)
          /\ ((e < length (lower_bounds (multipliers current_iterate)))%nat ->
              lower_bounds (multipliers iterate) !!! e = Double.one))
    /\ (forall k, k ∉ elastic_indices ->
          primals iterate !!! k = primals current_iterate !!! k
          /\ lower_bounds (multipliers iterate) !!! k
             = lower_bounds (multipliers current_iterate) !!! k)
    /\ upper_bounds (multipliers iterate) = upper_bounds (multipliers current_iterate)
    /\ constraints (multipliers iterate) = constraints (multipliers current_iterate)
    /\ evaluations_constraints iterate = evaluations_constraints current_iterate.
Proof.
  intros elastic_indices.
  unfold InequalityConstrainedMethod.set_elastic_variable_values,
    problem_set_elastic_variable_values.
  assert (H : forall l it,
    foldl (fun (acc : option Iterate) '(j, elastic_index, jacobian_coefficient) =>
             iterate ← acc;
             (fun iterate (_ : nat) elastic_index (_ : double) =>
                let iterate := set_primal iterate elastic_index Double.zero in
                let iterate := set_lower_bound_multiplier iterate elastic_index Double.one in
                Some iterate) iterate j elastic_index jacobian_coefficient)
          (Some it) l
    = Some (mkIterate
              (foldl (fun v e => <[e:=Double.zero]> v) (primals it) (l.*1.*2))
              (mkMultipliers (constraints (multipliers it))
                 (foldl (fun v e => <[e:=Double.one]> v) (lower_bounds (multipliers it))
                    (l.*1.*2))
                 (upper_bounds (multipliers it)))
              (evaluations_constraints it) (is_objective_gradient_computed it)
              (are_constraints_computed it) (is_constraint_jacobian_computed it))).
  { induction l as [|[[j e] s] l IH]; intros it; [by destruct it as [? [] ? ? ? ?]|].
    cbn [foldl fmap list_fmap fst snd mbind option_bind]. rewrite IH. reflexivity. }
  rewrite H. eexists. split; [reflexivity|].
  cbn [primals multipliers lower_bounds upper_bounds constraints evaluations_constraints].
  fold elastic_indices.
  pose proof (fun k => foldl_insert_const Double.zero elastic_indices
                         (primals current_iterate) k) as Hx.
  pose proof (fun k => foldl_insert_const Double.one elastic_indices
                         (lower_bounds (multipliers current_iterate)) k) as Hz.
  split; [apply (Hx 0%nat)|]. split; [apply (Hz 0%nat)|].
  split; [|split; [|done]].
  - intros e He. split; intros Hlt.
    + destruct (Hx e) as [_ ->]. by rewrite decide_True.
    + destruct (Hz e) as [_ ->]. by rewrite decide_True.
  - intros k Hk. destruct (Hx k) as [_ ->]. destruct (Hz k) as [_ ->].
    rewrite !decide_False; [done| |]; by intros [? _].
Qed.

(** ** Bounds of the linearized constraints and of the direction *)

(** a shifted lower bound *)
Lemma shifted_lower_bound (b : double) (c v : R) :
  (b - Fin c <=? Fin v)%D = (b <=? Fin (c + v))%D.
Proof.
  destruct b as [| | |b]; try done. cbn.
  apply bool_decide_ext. split; lra.
Qed.

(** a shifted upper bound *)
Lemma shifted_upper_bound (b : double) (c v : R) :
  (Fin v <=? b - Fin c)%D = (Fin (c + v) <=? b)%D.
Proof.
  destruct b as [| | |b]; try done. cbn.
  apply bool_decide_ext. split; lra.
Qed.

Section LinearizedConstraintBounds.
Import InequalityConstrainedMethod.
Variables (this : Method) (problem : OptimizationProblem) (current_constraints : vector).

Lemma set_linearized_constraint_bounds_spec :
  let this' := set_linearized_constraint_bounds this problem current_constraints in
  trust_region_radius this' = trust_region_radius this
  /\ initial_point this' = initial_point this
  /\ direction_lower_bounds this' = direction_lower_bounds this
  /\ direction_upper_bounds this' = direction_upper_bounds this
  /\ linearized_constraints_lower_bounds this'
     = foldl (fun v j => <[j:=(constraint_lower_bound problem j - current_constraints !!! j)%D]> v)
         (linearized_constraints_lower_bounds this) (seq 0 (number_constraints problem))
  /\ linearized_constraints_upper_bounds this'
     = foldl (fun v j => <[j:=(constraint_upper_bound problem j - current_constraints !!! j)%D]> v)
         (linearized_constraints_upper_bounds this) (seq 0 (number_constraints problem)).
Proof.
  cbv zeta. unfold set_linearized_constraint_bounds.
  generalize (seq 0 (number_constraints problem)). intros l. revert this.
  induction l as [|j l IH]; intros this0; cbn [foldl]; [done|].
  destruct (IH (set_linearized_constraints_upper_bound
                  (set_linearized_constraints_lower_bound this0 j
                     (constraint_lower_bound problem j - current_constraints !!! j)%D) j
                  (constraint_upper_bound problem j - current_constraints !!! j)%D))
    as (-> & -> & -> & -> & -> & ->).
  done.
Qed.
End LinearizedConstraintBounds.


(** ** Steps within the bounds of the direction *)

Lemma trust_region_lower_bound (b : double) (r x d : R) :
  b <> NaN ->
  (Double.max (- Fin r) (b - Fin x) <=? Fin d)%D = true
  <-> (- r <= d)%R /\ (b <=? Fin (x + d))%D = true.
Proof.
  intros Hb. unfold Double.max. destruct b as [| | |b]; try done; cbn.
  - rewrite bool_decide_eq_true. split; [by intros ?|by intros [? _]].
  - split; [done|by intros [_ ?]].
  - case_bool_decide; cbn; rewrite !bool_decide_eq_true; split; intros; lra.
Qed.

Lemma trust_region_upper_bound (b : double) (r x d : R) :
  b <> NaN ->
  (Fin d <=? Double.min (Fin r) (b - Fin x))%D = true
  <-> (d <= r)%R /\ (Fin (x + d) <=? b)%D = true.
Proof.
  intros Hb. unfold Double.min. destruct b as [| | |b]; try done; cbn.
  - split; [done|by intros [_ ?]].
  - rewrite bool_decide_eq_true. split; [by intros ?|by intros [? _]].
  - case_bool_decide; cbn; rewrite !bool_decide_eq_true; split; intros; lra.
Qed.



(** ** Dual displacements *)

Section DualDisplacements.
Import InequalityConstrainedMethod.
Variables (problem : OptimizationProblem) (current_iterate : Iterate) (direction : Direction).

Local Abbreviation n := (number_variables problem).
Local Abbreviation m := (number_constraints problem).
Let current := multipliers current_iterate.
Let duals := direction_multipliers direction.

Lemma compute_dual_displacements_spec :
  let direction' := compute_dual_displacements problem current_iterate direction in
  direction_primals direction' = direction_primals direction
  /\ direction_number_variables direction' = direction_number_variables direction
  /\ direction_number_constraints direction' = direction_number_constraints direction
  /\ primal_dual_step_length direction' = primal_dual_step_length direction
  /\ bound_dual_step_length direction' = bound_dual_step_length direction
  /\ subproblem_objective direction' = subproblem_objective direction
  /\ constraints (direction_multipliers direction')
     = foldl (fun v j => <[j:=(v !!! j - constraints current !!! j)%D]> v)
         (constraints duals) (seq 0 m)
  /\ lower_bounds (direction_multipliers direction')
     = foldl (fun v i => <[i:=(v !!! i - lower_bounds current !!! i)%D]> v)
         (lower_bounds duals) (seq 0 n)
  /\ upper_bounds (direction_multipliers direction')
     = foldl (fun v i => <[i:=(v !!! i - upper_bounds current !!! i)%D]> v)
         (upper_bounds duals) (seq 0 n).
Proof.
  cbv zeta. unfold compute_dual_displacements, duals.
  assert (H1 : forall l d,
    let d' := foldl (fun direction constraint_index =>
                let m := direction_multipliers direction in
                set_direction_multipliers direction
                  (mkMultipliers
                     (<[constraint_index:=
                          (constraints m !!! constraint_index
                           - constraints (multipliers current_iterate) !!! constraint_index)%D]>
                        (constraints m))
                     (lower_bounds m) (upper_bounds m))) d l in
    d' = set_direction_multipliers d
           (mkMultipliers
              (foldl (fun v j => <[j:=(v !!! j - constraints current !!! j)%D]> v)
                 (constraints (direction_multipliers d)) l)
              (lower_bounds (direction_multipliers d))
              (upper_bounds (direction_multipliers d)))).
  { induction l as [|j l IH]; intros d; cbn [foldl]; [by destruct d as [? ? ? [] ? ? ?]|].
    cbv zeta in IH. rewrite IH. reflexivity. }
  assert (H2 : forall l d,
    let d' := foldl (fun direction variable_index =>
                let m := direction_multipliers direction in
                let direction :=
                  set_direction_multipliers direction
                    (mkMultipliers (constraints m)
                       (<[variable_index:=
                            (lower_bounds m !!! variable_index
                             - lower_bounds (multipliers current_iterate) !!! variable_index)%D]>
                          (lower_bounds m))
                       (upper_bounds m)) in
                let m := direction_multipliers direction in
                set_direction_multipliers direction
                  (mkMultipliers (constraints m) (lower_bounds m)
                     (<[variable_index:=
                          (upper_bounds m !!! variable_index
                           - upper_bounds (multipliers current_iterate) !!! variable_index)%D]>
                        (upper_bounds m)))) d l in
    d' = set_direction_multipliers d
           (mkMultipliers
              (constraints (direction_multipliers d))
              (foldl (fun v i => <[i:=(v !!! i - lower_bounds current !!! i)%D]> v)
                 (lower_bounds (direction_multipliers d)) l)
              (foldl (fun v i => <[i:=(v !!! i - upper_bounds current !!! i)%D]> v)
                 (upper_bounds (direction_multipliers d)) l))).
  { induction l as [|i l IH]; intros d; cbn [foldl]; [by destruct d as [? ? ? [] ? ? ?]|].
    cbv zeta in IH. rewrite IH. reflexivity. }
  cbv zeta in H1, H2. rewrite H2, H1. done.
Qed.
End DualDisplacements.

Lemma displacement_round_trip (a b : double) :
  Double.is_finite a = true -> Double.is_finite b = true -> (b + (a - b))%D = a.
Proof. destruct a, b; try done. intros _ _. cbn. f_equal. lra. Qed.


(** ** Generation of the elastic variables *)

Lemma elastic_count_S (problem : ActiveSetMethod.Problem) (j : nat) :
  elastic_count problem (S j)
  = (elastic_count problem j
     + (if has_lower_bound problem j then 1 else 0)
     + (if has_upper_bound problem j then 1 else 0))%nat.
Proof. reflexivity. Qed.

Lemma elastic_count_mono (problem : ActiveSetMethod.Problem) (j k : nat) :
  (j <= k)%nat -> (elastic_count problem j <= elastic_count problem k)%nat.
Proof.
  induction 1 as [|k _ IH]; [done|]. rewrite elastic_count_S. lia.
Qed.

Section ElasticGeneration.
Import ActiveSetMethod.
Variables (problem : Problem) (elastic_variables : ElasticVariables).

Local Abbreviation n := (number_variables problem).
Local Abbreviation m := (number_constraints problem).

(** the state of the loop of [generate_elastic_variables_] after [k]
    constraints *)
Let loop (k : nat) : ElasticVariables * nat :=
  foldl (fun '(elastic_variables, elastic_index) j =>
           let '(elastic_variables, elastic_index) :=
             if (NInf <? lb (constraint_bounds problem !!! j))%D then
               (set_negative elastic_variables j elastic_index, S elastic_index)
             else (elastic_variables, elastic_index) in
           if (ub (constraint_bounds problem !!! j) <? PInf)%D then
             (set_positive elastic_variables j elastic_index, S elastic_index)
           else (elastic_variables, elastic_index))
        (elastic_variables, n) (seq 0 k).

Local Lemma loop_spec (k : nat) :
  (loop k).2 = (n + elastic_count problem k)%nat
  /\ (forall j, negative (loop k).1 !! j
                = if decide (j < k)%nat then
                    if has_lower_bound problem j then Some (n + elastic_count problem j)%nat
                    else negative elastic_variables !! j
                  else negative elastic_variables !! j)
  /\ (forall j, positive (loop k).1 !! j
                = if decide (j < k)%nat then
                    if has_upper_bound problem j then
                      Some (n + elastic_count problem j
                            + (if has_lower_bound problem j then 1 else 0))%nat
                    else positive elastic_variables !! j
                  else positive elastic_variables !! j).
Proof.
  induction k as [|k (Hidx & Hneg & Hpos)].
  - split; [cbn; lia|]. split; intros j; by rewrite decide_False by lia.
  - unfold loop in *. rewrite seq_S, foldl_app. cbn [foldl plus].
    destruct (foldl _ _ (seq 0 k)) as [ev idx]. cbn [fst snd] in *. subst idx.
    rewrite elastic_count_S. fold (has_lower_bound problem k) (has_upper_bound problem k).
    destruct (has_lower_bound problem k) eqn:Hl, (has_upper_bound problem k) eqn:Hu;
      cbn [fst snd set_negative set_positive negative positive].
    all: split; [lia|]; split; intros j.
    all: destruct (decide (j = k)) as [->|Hne];
      [ rewrite ?lookup_insert_eq, ?Hneg, ?Hpos, ?Hl, ?Hu;
        rewrite ?(decide_True (P := (k < S k)%nat)) by lia;
        rewrite ?(decide_False (P := (k < k)%nat)) by lia;
        rewrite ?Hl, ?Hu; try done; f_equal; lia
      | rewrite ?lookup_insert_ne by done; rewrite ?Hneg, ?Hpos;
        destruct (decide (j < k)%nat);
          [rewrite decide_True by lia | rewrite decide_False by lia]; done ].
Qed.

Lemma generate_elastic_variables__spec :
  let generated := generate_elastic_variables_ problem elastic_variables in
  (forall j, negative generated !! j
             = if decide (j < m)%nat then
                 if has_lower_bound problem j then Some (n + elastic_count problem j)%nat
                 else negative elastic_variables !! j
               else negative elastic_variables !! j)
  /\ (forall j, positive generated !! j
                = if decide (j < m)%nat then
                    if has_upper_bound problem j then
                      Some (n + elastic_count problem j
                            + (if has_lower_bound problem j then 1 else 0))%nat
                    else positive elastic_variables !! j
                  else positive elastic_variables !! j).
Proof.
  destruct (loop_spec m) as (_ & Hneg & Hpos). split; [exact Hneg|exact Hpos].
Qed.
End ElasticGeneration.

(** X19: [generate_elastic_variables_] gives an elastic variable
    [negative] to each constraint with a lower bound and [positive] to
    each one with an upper bound, and leaves the other entries of the two
    maps as they were; the indices are given in order from
    [number_variables], so that they lie in
    [[n, n + elastic_count m)] and no two of them are equal. *)
Theorem generate_elastic_variables__indices
    (problem : ActiveSetMethod.Problem) (elastic_variables : ActiveSetMethod.ElasticVariables) :
  let generated := ActiveSetMethod.generate_elastic_variables_ problem elastic_variables in
  let n := ActiveSetMethod.number_variables problem in
  let m := ActiveSetMethod.number_constraints problem in
  let negative := ActiveSetMethod.negative in
  let positive := ActiveSetMethod.positive in
  (forall j, (j < m)%nat -> has_lower_bound problem j = true ->
     negative generated !! j = Some (n + elastic_count problem j)%nat)
  /\ (forall j, (j < m)%nat -> has_upper_bound problem j = true ->
        positive generated !! j
        = Some (n + elastic_count problem j
                + (if has_lower_bound problem j then 1 else 0))%nat)
  /\ (forall j, ((j < m)%nat -> has_lower_bound problem j = false) ->
        negative generated !! j = negative elastic_variables !! j)
  /\ (forall j, ((j < m)%nat -> has_upper_bound problem j = false) ->
        positive generated !! j = positive elastic_variables !! j)
  /\ (forall j i, (j < m)%nat ->
        (has_lower_bound problem j = true /\ negative generated !! j = Some i)
        \/ (has_upper_bound problem j = true /\ positive generated !! j = Some i) ->
        (n <= i < n + elastic_count problem m)%nat)
  /\ (forall j j' i, (j < m)%nat -> (j' < m)%nat ->
        has_lower_bound problem j = true -> has_lower_bound problem j' = true ->
        negative generated !! j = Some i -> negative generated !! j' = Some i -> j = j')
  /\ (forall j j' i, (j < m)%nat -> (j' < m)%nat ->
        has_upper_bound problem j = true -> has_upper_bound problem j' = true ->
        positive generated !! j = Some i -> positive generated !! j' = Some i -> j = j')
  /\ (forall j j' i, (j < m)%nat -> (j' < m)%nat ->
        has_lower_bound problem j = true -> has_upper_bound problem j' = true ->
        negative generated !! j = Some i -> positive generated !! j' = Some i -> False).
Proof.
  intros generated n m negative positive.
  destruct (generate_elastic_variables__spec problem elastic_variables) as [Hneg Hpos].
  fold generated n m in Hneg, Hpos.
  assert (HN : forall j, (j < m)%nat -> has_lower_bound problem j = true ->
            negative generated !! j = Some (n + elastic_count problem j)%nat).
  { intros j Hj Hl. unfold negative. rewrite Hneg, decide_True by done. by rewrite Hl. }
  assert (HP : forall j, (j < m)%nat -> has_upper_bound problem j = true ->
            positive generated !! j
            = Some (n + elastic_count problem j
                    + (if has_lower_bound problem j then 1 else 0))%nat).
  { intros j Hj Hu. unfold positive. rewrite Hpos, decide_True by done. by rewrite Hu. }
  assert (Hnext : forall j k, (j < k)%nat ->
            (elastic_count problem j
             + (if has_lower_bound problem j then 1 else 0)
             + (if has_upper_bound problem j then 1 else 0)
             <= elastic_count problem k)%nat).
  { intros j k Hjk. rewrite <- elastic_count_S. apply elastic_count_mono. lia. }
  split; [exact HN|]. split; [exact HP|]. split; [|split; [|split; [|split; [|split]]]].
  - intros j Hj. unfold negative. rewrite Hneg. destruct (decide (j < m)%nat); [|done].
    by rewrite Hj.
  - intros j Hj. unfold positive. rewrite Hpos. destruct (decide (j < m)%nat); [|done].
    by rewrite Hj.
  - intros j i Hj [[Hl Hi]|[Hu Hi]].
    + rewrite (HN j Hj Hl) in Hi. injection Hi as <-.
      pose proof (Hnext j m Hj). rewrite Hl in *. lia.
    + rewrite (HP j Hj Hu) in Hi. injection Hi as <-.
      pose proof (Hnext j m Hj). rewrite Hu in *. destruct (has_lower_bound problem j); lia.
  - intros j j' i Hj Hj' Hl Hl' Hi Hi'.
    rewrite (HN j Hj Hl) in Hi. rewrite (HN j' Hj' Hl') in Hi'.
    injection Hi as <-. injection Hi' as Heq.
    destruct (lt_eq_lt_dec j j') as [[Hlt|Heq']|Hlt]; [|done|].
    + pose proof (Hnext j j' Hlt). rewrite Hl in *. lia.
    + pose proof (Hnext j' j Hlt). rewrite Hl' in *. lia.
  - intros j j' i Hj Hj' Hu Hu' Hi Hi'.
    rewrite (HP j Hj Hu) in Hi. rewrite (HP j' Hj' Hu') in Hi'.
    injection Hi as <-. injection Hi' as Heq.
    destruct (lt_eq_lt_dec j j') as [[Hlt|Heq']|Hlt]; [|done|].
    + pose proof (Hnext j j' Hlt). rewrite Hu in *.
      destruct (has_lower_bound problem j), (has_lower_bound problem j'); lia.
    + pose proof (Hnext j' j Hlt). rewrite Hu' in *.
      destruct (has_lower_bound problem j), (has_lower_bound problem j'); lia.
  - intros j j' i Hj Hj' Hl Hu' Hi Hi'.
    rewrite (HN j Hj Hl) in Hi. rewrite (HP j' Hj' Hu') in Hi'.
    injection Hi as <-. injection Hi' as Heq.
    destruct (lt_eq_lt_dec j j') as [[Hlt|Heq']|Hlt].
    + pose proof (Hnext j j' Hlt). rewrite Hl in *.
      destruct (has_lower_bound problem j'); lia.
    + subst j'. rewrite Hl in Heq. lia.
    + pose proof (Hnext j' j Hlt). rewrite Hu' in *.
      destruct (has_lower_bound problem j'); lia.
Qed.

(** ** Multipliers of the l1 feasibility problem *)

Lemma generate_l1_multipliers__spec (problem : ActiveSetMethod.Problem)
    (current_constraint_multipliers : vector)
    (partition : ActiveSetMethod.ConstraintPartition) (j : nat) :
  let multipliers :=
    ActiveSetMethod.generate_l1_multipliers_ problem current_constraint_multipliers partition in
  length multipliers = ActiveSetMethod.number_constraints problem
  /\ ((j < ActiveSetMethod.number_constraints problem)%nat ->
      multipliers !!! j
      = match ActiveSetMethod.constraint_feasibility partition !!! j with
        | ActiveSetMethod.INFEASIBLE_LOWER => Fin 1
        | ActiveSetMethod.INFEASIBLE_UPPER => Fin (-1)
        | ActiveSetMethod.FEASIBLE => current_constraint_multipliers !!! j
        end).
Proof.
  intros multipliers. unfold multipliers, ActiveSetMethod.generate_l1_multipliers_.
  set (g := fun j =>
         match ActiveSetMethod.constraint_feasibility partition !!! j with
         | ActiveSetMethod.INFEASIBLE_LOWER => Fin 1
         | ActiveSetMethod.INFEASIBLE_UPPER => Fin (-1)
         | ActiveSetMethod.FEASIBLE => current_constraint_multipliers !!! j
         end).
  match goal with |- context [foldl ?f ?v0 ?l] =>
    assert (Heq : foldl f v0 l = foldl (fun w j => <[j:=g j]> w) v0 l)
  end.
  { generalize (replicate (ActiveSetMethod.number_constraints problem) Double.zero).
    generalize (seq 0 (ActiveSetMethod.number_constraints problem)).
    induction l as [|k l IH]; intros v; cbn [foldl]; [done|]. rewrite IH. f_equal.
    unfold g. by destruct (ActiveSetMethod.constraint_feasibility partition !!! k). }
  rewrite Heq.
  match goal with |- context [foldl ?f ?v0 ?l] =>
    destruct (foldl_insert_from g l v0 j) as [Hlen Hj]
  end.
  rewrite Hlen, Hj, length_replicate. split; [done|]. intros Hlt.
  by rewrite decide_True by (split; [apply elem_of_seq; lia|done]).
Qed.

(** X20: [generate_l1_multipliers_] gives the multiplier 1 to a constraint
    violated below, -1 to one violated above, and keeps the current
    multiplier of a feasible one; when the list of infeasible constraints
    agrees with the marks of the partition, the objective gradient of
    [compute_l1_linear_objective_] is [- sum_j lambda_j grad c_j] over the
    infeasible constraints. *)
Theorem l1_multipliers_objective_gradient
    (problem : ActiveSetMethod.Problem) (current_iterate : ActiveSetMethod.Iterate)
    (current_constraint_multipliers : vector)
    (partition : ActiveSetMethod.ConstraintPartition) :
  let multipliers :=
    ActiveSetMethod.generate_l1_multipliers_ problem current_constraint_multipliers partition in
  let gradient :=
    ActiveSetMethod.objective_gradient
      (ActiveSetMethod.compute_l1_linear_objective_ current_iterate partition) in
  (forall j i d, j ∈ ActiveSetMethod.infeasible partition ->
     (ActiveSetMethod.constraints_jacobian current_iterate !!! j) !! i = Some d ->
     Double.is_finite d = true) ->
  (forall j, j ∈ ActiveSetMethod.infeasible partition ->
     (j < ActiveSetMethod.number_constraints problem)%nat
     /\ ActiveSetMethod.constraint_feasibility partition !!! j <> ActiveSetMethod.FEASIBLE) ->
  length multipliers = ActiveSetMethod.number_constraints problem
  /\ (forall j, j ∈ ActiveSetMethod.infeasible partition ->
        multipliers !!! j = Fin 1 \/ multipliers !!! j = Fin (-1))
  /\ (forall j, (j < ActiveSetMethod.number_constraints problem)%nat ->
        ActiveSetMethod.constraint_feasibility partition !!! j = ActiveSetMethod.FEASIBLE ->
        multipliers !!! j = current_constraint_multipliers !!! j)
  /\ forall i,
       sparse_at gradient i
       = Fin (- Rsum ((fun j => (Double.to_R (multipliers !!! j)
                                 * jacobian_entry current_iterate j i)%R)
                      <$> ActiveSetMethod.infeasible partition)).
Proof.
  intros multipliers gradient Hfinite Hpartition.
  pose proof (generate_l1_multipliers__spec problem current_constraint_multipliers partition)
    as Hspec. cbv zeta in Hspec. fold multipliers in Hspec.
  split; [apply (Hspec 0%nat)|]. split; [|split].
  - intros j Hj. destruct (Hpartition j Hj) as [Hlt Hne].
    destruct (Hspec j) as [_ Hv]. rewrite (Hv Hlt).
    destruct (ActiveSetMethod.constraint_feasibility partition !!! j); [done|by left|by right].
  - intros j Hj Hfeasible. destruct (Hspec j) as [_ Hv]. rewrite (Hv Hj). by rewrite Hfeasible.
  - intros i. unfold gradient.
    rewrite (compute_l1_linear_objective__spec current_iterate partition Hfinite i).
    f_equal. rewrite <- Rsum_opp. apply Rsum_ext. intros j Hj.
    destruct (Hpartition j Hj) as [Hlt Hne].
    destruct (Hspec j) as [_ Hv]. rewrite (Hv Hlt). unfold gradient_sign.
    destruct (ActiveSetMethod.constraint_feasibility partition !!! j); try done.
    + rewrite decide_True by done. cbn. lra.
    + rewrite decide_False by done. cbn. lra.
Qed.

(** two infeasible constraints, one below its lower bound and one above
    its upper bound *)
Lemma l1_multipliers_objective_gradient_witness :
  let partition :=
    ActiveSetMethod.mkConstraintPartition [] [0%nat; 1%nat]
      [ActiveSetMethod.INFEASIBLE_LOWER; ActiveSetMethod.INFEASIBLE_UPPER] in
  let problem :=
    ActiveSetMethod.mkProblem 1 2 [mkInterval (Fin 1) PInf; mkInterval NInf (Fin 0)] Double.one in
  let current_iterate :=
    ActiveSetMethod.mkIterate [Fin 0] (mkMultipliers [Fin 0; Fin 0] [Fin 0] [Fin 0])
      [Fin 0; Fin 4] [{[0%nat := Fin 2]}; {[0%nat := Fin 5]}] ∅ in
  let multipliers := ActiveSetMethod.generate_l1_multipliers_ problem [Fin 7; Fin 7] partition in
  length multipliers = 2%nat
  /\ sparse_at
       (ActiveSetMethod.objective_gradient
          (ActiveSetMethod.compute_l1_linear_objective_ current_iterate partition)) 0
     = Fin (- Rsum ((fun j => (Double.to_R (multipliers !!! j)
                               * jacobian_entry current_iterate j 0)%R) <$> [0%nat; 1%nat])).
Proof.
  intros partition problem current_iterate multipliers.
  destruct (l1_multipliers_objective_gradient problem current_iterate [Fin 7; Fin 7] partition)
    as (Hlen & _ & _ & Hg).
  - intros j i d Hj Hd. cbn in Hj.
    apply elem_of_cons in Hj as [->|Hj]; [|apply list_elem_of_singleton in Hj as ->];
      cbn in Hd; apply lookup_singleton_Some in Hd as [_ <-]; done.
  - intros j Hj. cbn in Hj.
    apply elem_of_cons in Hj as [->|Hj]; [|apply list_elem_of_singleton in Hj as ->];
      cbn; (split; [lia|done]).
  - split; [exact Hlen|]. apply (Hg 0%nat).
Defined.

(** ** Recovery of the active set: idempotence, generated elastic variables *)

(** X21: [recover_l1qp_active_set_] is idempotent. *)
Theorem recover_l1qp_active_set__idempotent
    (problem : ActiveSetMethod.Problem) (direction : ActiveSetMethod.Direction)
    (elastic_variables : ActiveSetMethod.ElasticVariables) :
  ActiveSetMethod.recover_l1qp_active_set_ problem
    (ActiveSetMethod.recover_l1qp_active_set_ problem direction elastic_variables)
    elastic_variables
  = ActiveSetMethod.recover_l1qp_active_set_ problem direction elastic_variables.
Proof.
  pose proof (recover_l1qp_active_set__spec problem direction elastic_variables) as H1.
  pose proof (recover_l1qp_active_set__spec problem
                (ActiveSetMethod.recover_l1qp_active_set_ problem direction elastic_variables)
                elastic_variables) as H2.
  cbv zeta in H1, H2.
  destruct H1 as ((Hx & Hm & ? & ? & ? & ? & ?) & Hb1 & Hc1).
  destruct H2 as ((Hx2 & Hm2 & ? & ? & ? & ? & ?) & Hb2 & Hc2).
  assert (Hrelaxed : forall j,
    relaxed (ActiveSetMethod.recover_l1qp_active_set_ problem direction elastic_variables)
      elastic_variables j = relaxed direction elastic_variables j).
  { intros j. unfold relaxed, ActiveSetMethod.constraint_violation. by rewrite Hx. }
  rewrite Hx in Hb2. rewrite Hm in Hc2.
  set (d1 := ActiveSetMethod.recover_l1qp_active_set_ problem direction elastic_variables) in *.
  set (d2 := ActiveSetMethod.recover_l1qp_active_set_ problem d1 elastic_variables) in *.
  assert (Hset : ActiveSetMethod.active_set d2 = ActiveSetMethod.active_set d1).
  { destruct (ActiveSetMethod.active_set d2) as [[cl2 cu2] [bl2 bu2]] eqn:E2.
    destruct (ActiveSetMethod.active_set d1) as [[cl1 cu1] [bl1 bu1]] eqn:E1.
    cbn [ActiveSetMethod.active_bounds ActiveSetMethod.active_constraints
         ActiveSetMethod.at_lower_bound ActiveSetMethod.at_upper_bound] in Hb1, Hb2, Hc1, Hc2.
    assert (bl2 = bl1).
    { apply set_eq. intros i. destruct (Hb2 i) as [-> _]. destruct (Hb1 i) as [Hi _].
      rewrite Hi. tauto. }
    assert (bu2 = bu1).
    { apply set_eq. intros i. destruct (Hb2 i) as [_ ->]. destruct (Hb1 i) as [_ Hi].
      rewrite Hi. tauto. }
    assert (cl2 = cl1).
    { apply set_eq. intros j. destruct (Hc2 j) as [-> _]. destruct (Hc1 j) as [Hj _].
      rewrite Hj, Hrelaxed. tauto. }
    assert (cu2 = cu1).
    { apply set_eq. intros j. destruct (Hc2 j) as [_ ->]. destruct (Hc1 j) as [_ Hj].
      rewrite Hj, Hrelaxed. tauto. }
    by subst. }
  destruct d2, d1. cbn in *. by subst.
Qed.

(** X22: when the direction has one entry for each variable and each
    elastic variable of [generate_elastic_variables_], no elastic variable
    is left in the active set of the bounds by
    [recover_l1qp_active_set_]. *)
Theorem recover_l1qp_active_set__generated_elastic_variables
    (problem : ActiveSetMethod.Problem) (direction : ActiveSetMethod.Direction) :
  let elastic_variables :=
    ActiveSetMethod.generate_elastic_variables_ problem
      (ActiveSetMethod.mkElasticVariables ∅ ∅) in
  let direction' :=
    ActiveSetMethod.recover_l1qp_active_set_ problem direction elastic_variables in
  let bounds' := ActiveSetMethod.active_bounds (ActiveSetMethod.active_set direction') in
  length (ActiveSetMethod.x direction)
  = (ActiveSetMethod.number_variables problem
     + elastic_count problem (ActiveSetMethod.number_constraints problem))%nat ->
  forall j i,
    ActiveSetMethod.negative elastic_variables !! j = Some i
    \/ ActiveSetMethod.positive elastic_variables !! j = Some i ->
    (ActiveSetMethod.number_variables problem <= i < length (ActiveSetMethod.x direction))%nat
    /\ (i ∉ ActiveSetMethod.at_lower_bound bounds')
    /\ (i ∉ ActiveSetMethod.at_upper_bound bounds').
Proof.
  intros elastic_variables direction' bounds' Hlen j i Hi.
  destruct (generate_elastic_variables__spec problem (ActiveSetMethod.mkElasticVariables ∅ ∅))
    as [Hneg Hpos]. fold elastic_variables in Hneg, Hpos.
  cbn [ActiveSetMethod.negative ActiveSetMethod.positive] in Hneg, Hpos.
  assert (Hnext : forall j k, (j < k)%nat ->
            (elastic_count problem j
             + (if has_lower_bound problem j then 1 else 0)
             + (if has_upper_bound problem j then 1 else 0)
             <= elastic_count problem k)%nat).
  { intros j0 k Hjk. rewrite <- elastic_count_S. apply elastic_count_mono. lia. }
  assert (Hrange : (ActiveSetMethod.number_variables problem <= i
                    < length (ActiveSetMethod.x direction))%nat).
  { rewrite Hlen. destruct Hi as [Hi|Hi].
    - rewrite Hneg in Hi. destruct (decide _) as [Hj|]; [|by rewrite lookup_empty in Hi].
      destruct (has_lower_bound problem j) eqn:Hl; [|by rewrite lookup_empty in Hi].
      injection Hi as <-. pose proof (Hnext j _ Hj). rewrite Hl in *. lia.
    - rewrite Hpos in Hi. destruct (decide _) as [Hj|]; [|by rewrite lookup_empty in Hi].
      destruct (has_upper_bound problem j) eqn:Hu; [|by rewrite lookup_empty in Hi].
      injection Hi as <-. pose proof (Hnext j _ Hj). rewrite Hu in *.
      destruct (has_lower_bound problem j); lia. }
  split; [exact Hrange|].
  destruct (recover_l1qp_active_set__spec problem direction elastic_variables)
    as (_ & Hb & _). destruct (Hb i) as [HbL HbU]. fold direction' bounds' in HbL, HbU.
  split; [rewrite HbL|rewrite HbU]; tauto.
Qed.

(** one constraint with a lower bound only: one elastic variable, of
    index 1 *)
Lemma recover_l1qp_active_set__generated_elastic_variables_witness :
  let problem := ActiveSetMethod.mkProblem 1 1 [mkInterval (Fin 0) PInf] Double.one in
  let direction :=
    ActiveSetMethod.mkDirection [Fin 0; Fin 1] (mkMultipliers [Fin 0] [] [])
      (ActiveSetMethod.mkActiveSet (ActiveSetMethod.mkActiveSetRecord ∅ ∅)
         (ActiveSetMethod.mkActiveSetRecord {[1%nat]} ∅))
      Double.zero Double.one ActiveSetMethod.OPTIMALITY
      (ActiveSetMethod.mkConstraintPartition [] [] []) ActiveSetMethod.other_predicted_reduction in
  let elastic_variables :=
    ActiveSetMethod.generate_elastic_variables_ problem
      (ActiveSetMethod.mkElasticVariables ∅ ∅) in
  let direction' :=
    ActiveSetMethod.recover_l1qp_active_set_ problem direction elastic_variables in
  ActiveSetMethod.negative elastic_variables !! 0%nat = Some 1%nat
  /\ (1%nat ∉ ActiveSetMethod.at_lower_bound
               (ActiveSetMethod.active_bounds (ActiveSetMethod.active_set direction'))).
Proof.
  intros problem direction elastic_variables direction'.
  assert (Hneg : ActiveSetMethod.negative elastic_variables !! 0%nat = Some 1%nat).
  { destruct (generate_elastic_variables__spec problem
                (ActiveSetMethod.mkElasticVariables ∅ ∅)) as [H _].
    unfold elastic_variables. etrans; [apply (H 0%nat)|]. reflexivity. }
  split; [exact Hneg|].
  destruct (recover_l1qp_active_set__generated_elastic_variables problem direction eq_refl
              0%nat 1%nat) as (_ & H & _); [by left|exact H].
Defined.

(** ** Steps within the variable bounds of the active-set subproblem *)



(** ** Available strategies *)

(** X25: [available_strategies] returns distinct names, all of them
    accepted by [create]; when both solver lists are not empty, they are
    exactly the names that [create] accepts, and when both are empty
    there is none. *)
Theorem available_strategies_are_created
    (Options : Type) (get_string : Options -> string -> string)
    (QP_available_solvers linear_available_solvers : list string)
    (nv nc ng nj nh : nat) (options : Options) :
  let available :=
    InequalityHandlingMethodFactory.available_strategies QP_available_solvers
      linear_available_solvers in
  let created :=
    InequalityHandlingMethodFactory.create Options get_string nv nc ng nj nh options in
  NoDup available
  /\ (forall name, name ∈ available -> name ∈ specified_strategies)
  /\ (get_string options "subproblem" ∈ available -> exists method, created = inr method)
  /\ (QP_available_solvers <> [] -> linear_available_solvers <> [] ->
      get_string options "subproblem" ∈ available <-> exists method, created = inr method)
  /\ (QP_available_solvers = [] -> linear_available_solvers = [] -> available = []).
Proof.
  intros available created.
  assert (Hcreated : get_string options "subproblem" ∈ specified_strategies
                     <-> exists method, created = inr method).
  { unfold created, InequalityHandlingMethodFactory.create, specified_strategies.
    cbv zeta. repeat case_decide.
    - split; [by eexists|]. intros _. rewrite H. rewrite !elem_of_cons. auto 6.
    - split; [by eexists|]. intros _. rewrite H0. rewrite !elem_of_cons. auto 6.
    - split; [by eexists|]. intros _. rewrite H1. rewrite !elem_of_cons. auto 6.
    - split; [|by intros [? ?]]. intros Hin. exfalso.
      rewrite !elem_of_cons in Hin. destruct Hin as [?|[?|[?|Hin]]]; try done.
      by apply elem_of_nil in Hin. }
  assert (Hsub : forall name, name ∈ available -> name ∈ specified_strategies).
  { unfold available, InequalityHandlingMethodFactory.available_strategies,
      specified_strategies.
    intros name. destruct (bool_decide (QP_available_solvers = []));
      destruct (bool_decide (linear_available_solvers = [])); cbn; intros Hin;
      repeat (apply elem_of_cons in Hin as [->|Hin]);
      try (by apply elem_of_nil in Hin); rewrite !elem_of_cons; auto 6. }
  split; [|split; [exact Hsub|split; [|split]]].
  - unfold available, InequalityHandlingMethodFactory.available_strategies.
    destruct (bool_decide (QP_available_solvers = []));
      destruct (bool_decide (linear_available_solvers = [])); cbn;
      repeat (apply NoDup_cons; split;
              [rewrite ?not_elem_of_cons; repeat split; try done; apply not_elem_of_nil|]);
      apply NoDup_nil_2.
  - intros Hin. apply Hcreated. by apply Hsub.
  - intros Hqp Hls. rewrite <- Hcreated.
    unfold available, InequalityHandlingMethodFactory.available_strategies,
      specified_strategies.
    rewrite !bool_decide_eq_false_2 by done. cbn. done.
  - intros -> ->. done.
Qed.

(** ** Steps within the constraint bounds of the restoration problem *)


